(** * CODE Collector: the file collection routine [collect_files_content_gui]

    A shallow embedding of [src/collect_gui.py], lines 10-96, and the
    properties of its output file and of its log / progress callbacks.

    Modelling conventions.
    - Python [str] values are lists of Unicode code points ([str]).
    - Paths are lists of path components below the filesystem root, i.e.
      normalised absolute POSIX paths; [os.sep] is ['/']. The file
      system is a tree of directories and regular files (no symbolic
      links), listed in the order [os.walk] meets them.
    - The two callbacks are one-way sinks: every call is appended to the
      run's event trace, and a callback never raises.
    - Everything else that can raise in the source can raise here: the
      routine lives in a state-and-exception monad in which an exception
      keeps the effects performed before it, as in Python.
    - The output file is a store of its own: the file system that is
      read is the one the pre-scan saw. A run that reads the file it
      writes (an older output that the scan collected) is outside the
      model, since what it reads depends on buffering; the statements
      about the text read from the files exclude it by the hypothesis
      [output_not_collected].
      Text written through [outfile] is recorded as text; the platform's
      newline translation on write is the identity, as on POSIX.
    - [processed_files / total_files] and [... * 100] are IEEE-754
      binary64 operations, taken from the Standard Library's [SpecFloat]. *)

From Stdlib Require Import ZArith NArith List Bool Lia.
From Stdlib Require Import Strings.String Strings.Ascii Strings.Byte.
From Stdlib Require Import DecimalString Sorted Reals Lra.
From Stdlib Require Import Floats.SpecFloat.
Import ListNotations.

(** * Part I: the model *)

(** ** Text *)

Definition char := N.
Definition str := list char.

(** An ASCII literal of the source as a [str]. *)
Definition lit (s : string) : str :=
  map (fun b => Byte.to_N b) (list_byte_of_string s).

Definition nl : char := 10%N.
Definition cr : char := 13%N.

Definition char_eqb (a b : char) : bool := N.eqb a b.

Fixpoint str_eqb (a b : str) : bool :=
  match a, b with
  | [], [] => true
  | x :: a', y :: b' => char_eqb x y && str_eqb a' b'
  | _, _ => false
  end.

(** [s.startswith(p)] *)
Fixpoint startswith (s p : str) : bool :=
  match p, s with
  | [], _ => true
  | x :: p', y :: s' => char_eqb x y && startswith s' p'
  | _ :: _, [] => false
  end.

(** [s.endswith(p)] *)
Definition endswith (s p : str) : bool := startswith (rev s) (rev p).

(** [s.endswith(t)] for a tuple [t] of suffixes: any of them matches. *)
Definition endswith_any (s : str) (t : list str) : bool :=
  existsb (endswith s) t.

(** [str.isspace] on one character: the code points CPython's
    [_PyUnicode_IsWhitespace] accepts. *)
Definition isspace (c : char) : bool :=
  ((9 <=? c) && (c <=? 13) || (28 <=? c) && (c <=? 32)
   || (c =? 133) || (c =? 160) || (c =? 5760)
   || (8192 <=? c) && (c <=? 8202)
   || (c =? 8232) || (c =? 8233) || (c =? 8239) || (c =? 8287)
   || (c =? 12288))%N.

Fixpoint lstrip (s : str) : str :=
  match s with
  | c :: s' => if isspace c then lstrip s' else s
  | [] => []
  end.

Definition rstrip (s : str) : str := rev (lstrip (rev s)).

(** [s.strip()] *)
Definition strip (s : str) : str := rstrip (lstrip s).

(** [s.split(sep)] for a one-character separator: the list of the
    maximal pieces between separators, never empty. *)
Fixpoint split (sep : char) (s : str) : list str :=
  match s with
  | [] => [[]]
  | c :: s' =>
      if char_eqb c sep then [] :: split sep s'
      else match split sep s' with
           | tok :: toks => (c :: tok) :: toks
           | [] => [[c]]
           end
  end.

(** [sep.join(l)] *)
Fixpoint join (sep : str) (l : list str) : str :=
  match l with
  | [] => []
  | [x] => x
  | x :: l' => x ++ sep ++ join sep l'
  end.

Definition pipe : char := 124%N.
Definition dot : char := 46%N.
Definition slash : char := 47%N.

(** ** Extension filter (source lines 30 and 35) *)

(** [[ext.strip() for ext in extensions_str.split('|') if ext.strip()]] *)
Definition parse_extensions (extensions_str : str) : list str :=
  map strip
      (filter (fun ext => negb (str_eqb (strip ext) []))
              (split pipe extensions_str)).

(** [tuple(f".{ext}" if not ext.startswith('.') else ext for ext in extensions)] *)
Definition target_extensions_of (extensions : list str) : list str :=
  map (fun ext => if negb (startswith ext [dot]) then dot :: ext else ext)
      extensions.

(** ** Paths and the file system *)

Definition path := list str.

(** The text of a path: ["/" + "/".join(components)]. *)
Definition path_str (p : path) : str := slash :: join [slash] p.

(** [os.path.join(dirpath, name)] *)
Definition os_path_join (dirpath : path) (name : str) : path :=
  dirpath ++ [name].

Fixpoint commonprefix_len (a b : path) : nat :=
  match a, b with
  | x :: a', y :: b' => if str_eqb x y then S (commonprefix_len a' b') else 0
  | _, _ => 0
  end.

Definition pardir : str := lit "..".
Definition curdir : str := lit ".".

(** [os.path.relpath(p, start)] (posixpath): drop the common prefix,
    climb out of what is left of [start], descend into what is left of
    [p]; the components are joined with [os.sep]. *)
Definition os_path_relpath (p start : path) : str :=
  let i := commonprefix_len start p in
  let rel_list := repeat pardir (List.length start - i) ++ skipn i p in
  match rel_list with
  | [] => curdir
  | _ => join [slash] rel_list
  end.

(** [s.replace(os.sep, '/')]: [os.sep] is ['/'], nothing changes. *)
Definition replace_sep (s : str) : str := s.

(** What a file gives to [open(..., 'r')]: its bytes, or an [OSError]
    with the given text (permissions, I/O error). *)
Inductive file_data :=
| Readable (bytes : list byte)
| Unreadable (msg : str).

#[warnings="-register-all"]
Inductive node :=
| File (d : file_data)
| Dir (entries : list (str * node)).

Fixpoint lookup (fs : node) (p : path) {struct p} : option node :=
  match p with
  | [] => Some fs
  | name :: p' =>
      match fs with
      | Dir entries =>
          (fix find (es : list (str * node)) : option node :=
             match es with
             | [] => None
             | (n, x) :: rest =>
                 if str_eqb n name then lookup x p' else find rest
             end) entries
      | File _ => None
      end
  end.

(** [os.path.isdir(p)] *)
Definition os_path_isdir (fs : node) (p : path) : bool :=
  match lookup fs p with
  | Some (Dir _) => true
  | _ => false
  end.

(** The files of one directory that pass the filter, as full paths, in
    listing order (source lines 44-46). *)
Definition matching_here (dirpath : path) (target_extensions : list str)
    (entries : list (str * node)) : list path :=
  flat_map (fun e => match snd e with
                     | File _ =>
                         if endswith_any (fst e) target_extensions
                         then [os_path_join dirpath (fst e)] else []
                     | Dir _ => []
                     end) entries.

(** [os.walk(top)], top-down, with the body of the loop at lines 43-46
    applied to every triple it yields: first the file names of the
    directory itself, then each sub-directory in listing order. *)
Fixpoint walk_collect (target_extensions : list str) (dirpath : path)
    (top : node) {struct top} : list path :=
  match top with
  | File _ => []
  | Dir entries =>
      matching_here dirpath target_extensions entries ++
      (fix subdirs (es : list (str * node)) : list path :=
         match es with
         | [] => []
         | (n, sub) :: rest =>
             match sub with
             | Dir _ =>
                 walk_collect target_extensions (os_path_join dirpath n) sub
             | File _ => []
             end ++ subdirs rest
         end) entries
  end.

(** ** Decoding file contents *)

Inductive encoding := Utf8Sig | Latin1.

Definition is_cont (b : N) : bool := ((128 <=? b) && (b <=? 191))%N.

(** Strict UTF-8, as Python's codec: shortest form only, no surrogates,
    nothing above U+10FFFF. [None] is a [UnicodeDecodeError]. *)
Fixpoint decode_utf8 (bs : list byte) : option str :=
  match bs with
  | [] => Some []
  | b0 :: r0 =>
      let c0 := Byte.to_N b0 in
      if (c0 <? 128)%N then option_map (cons c0) (decode_utf8 r0)
      else if ((194 <=? c0) && (c0 <=? 223))%N then
        match r0 with
        | b1 :: r1 =>
            let c1 := Byte.to_N b1 in
            if is_cont c1
            then option_map (cons ((c0 - 192) * 64 + (c1 - 128))%N)
                            (decode_utf8 r1)
            else None
        | _ => None
        end
      else if ((224 <=? c0) && (c0 <=? 239))%N then
        match r0 with
        | b1 :: b2 :: r2 =>
            let c1 := Byte.to_N b1 in
            let c2 := Byte.to_N b2 in
            let lo := if (c0 =? 224)%N then 160%N else 128%N in
            let hi := if (c0 =? 237)%N then 159%N else 191%N in
            if ((lo <=? c1) && (c1 <=? hi))%N && is_cont c2
            then option_map
                   (cons ((c0 - 224) * 4096 + (c1 - 128) * 64 + (c2 - 128))%N)
                   (decode_utf8 r2)
            else None
        | _ => None
        end
      else if ((240 <=? c0) && (c0 <=? 244))%N then
        match r0 with
        | b1 :: b2 :: b3 :: r3 =>
            let c1 := Byte.to_N b1 in
            let c2 := Byte.to_N b2 in
            let c3 := Byte.to_N b3 in
            let lo := if (c0 =? 240)%N then 144%N else 128%N in
            let hi := if (c0 =? 244)%N then 143%N else 191%N in
            if ((lo <=? c1) && (c1 <=? hi))%N && is_cont c2 && is_cont c3
            then option_map
                   (cons ((c0 - 240) * 262144 + (c1 - 128) * 4096
                          + (c2 - 128) * 64 + (c3 - 128))%N)
                   (decode_utf8 r3)
            else None
        | _ => None
        end
      else None
  end.

(** ['utf-8-sig'] as a text-mode read applies it (the incremental
    decoder of [encodings.utf_8_sig]): a leading byte-order mark
    EF BB BF is dropped; a file that is only the beginning of one (no
    byte, EF, or EF BB) is read as the empty text, without an error. *)
Definition decode_utf8_sig (bs : list byte) : option str :=
  match bs with
  | [] => Some []
  | [b0] =>
      if (Byte.to_N b0 =? 239)%N then Some [] else decode_utf8 bs
  | [b0; b1] =>
      if ((Byte.to_N b0 =? 239) && (Byte.to_N b1 =? 187))%N
      then Some [] else decode_utf8 bs
  | b0 :: b1 :: b2 :: rest =>
      if ((Byte.to_N b0 =? 239) && (Byte.to_N b1 =? 187)
          && (Byte.to_N b2 =? 191))%N
      then decode_utf8 rest else decode_utf8 bs
  end.

(** ['latin-1']: every byte is its own code point; never fails. *)
Definition decode_latin1 (bs : list byte) : str := map Byte.to_N bs.

Definition decode (enc : encoding) (bs : list byte) : option str :=
  match enc with
  | Utf8Sig => decode_utf8_sig bs
  | Latin1 => Some (decode_latin1 bs)
  end.

(** Text mode with the default [newline=None]: on reading, ["\r\n"] and
    a lone ["\r"] become ["\n"]. *)
Fixpoint universal_newlines (s : str) : str :=
  match s with
  | [] => []
  | c :: s' =>
      if char_eqb c cr then
        match s' with
        | c' :: s'' =>
            if char_eqb c' nl then nl :: universal_newlines s''
            else nl :: universal_newlines s'
        | [] => [nl]
        end
      else c :: universal_newlines s'
  end.

(** ** Exceptions, events and the monad of the routine *)

Inductive exn :=
| UnicodeDecodeError
| OSError (msg : str)
| ZeroDivisionError
| OverflowError
| ValueError.

(** [str(e)], as the f-strings of the source interpolate it. *)
Definition exn_str (e : exn) : str :=
  match e with
  | UnicodeDecodeError => lit "'utf-8' codec can't decode bytes"
  | OSError msg => msg
  | ZeroDivisionError => lit "division by zero"
  | OverflowError => lit "cannot convert float infinity to integer"
  | ValueError => lit "cannot convert float NaN to integer"
  end.

(** What a run does to the outside, in order. *)
Inductive event :=
| Log (msg : str)            (* log_callback(msg) *)
| Progress (v : Z)           (* progress_callback(v) *)
| Walk (top : path)          (* os.walk(top) *)
| Open (name : str)          (* open(name, 'w') succeeded *)
| Write (s : str)            (* outfile.write(s) succeeded *)
| Close.                     (* the with-block closed outfile *)

(** The environment of a run: the file system that is read, and the
    faults of the output file. A fault is the text of the exception
    raised; [write_fault k] is the fate of the [k]-th call of
    [outfile.write] (disk full, unencodable text, ...). *)
Record world := {
  fs : node;
  open_fault : option str;
  write_fault : nat -> option str;
  close_fault : option str
}.

(** The output file on disk ([None]: no such file) and the number of
    calls of [outfile.write] so far. *)
Record ostate := {
  disk : option str;
  nwrites : nat
}.

Inductive res (A : Type) :=
| Val (a : A)
| Exc (e : exn).
Arguments Val {A} a.
Arguments Exc {A} e.

Definition M (A : Type) : Type := ostate -> res A * list event * ostate.

Definition ret {A} (a : A) : M A := fun s => (Val a, [], s).

Definition bind {A B} (m : M A) (k : A -> M B) : M B :=
  fun s =>
    match m s with
    | (Val a, ev, s') =>
        match k a s' with
        | (r, ev', s'') => (r, ev ++ ev', s'')
        end
    | (Exc e, ev, s') => (Exc e, ev, s')
    end.

Definition raise {A} (e : exn) : M A := fun s => (Exc e, [], s).

(** [try: body / except Exception as e: handler e] *)
Definition try_except {A} (body : M A) (handler : exn -> M A) : M A :=
  fun s =>
    match body s with
    | (Val a, ev, s') => (Val a, ev, s')
    | (Exc e, ev, s') =>
        match handler e s' with
        | (r, ev', s'') => (r, ev ++ ev', s'')
        end
    end.

Definition lift {A} (r : res A) : M A := fun s => (r, [], s).

Declare Scope coll_scope.
Delimit Scope coll_scope with coll.
Notation "x <- m ;; k" := (bind m (fun x => k))
  (at level 61, m at next level, right associativity) : coll_scope.
Notation "m ;; k" := (bind m (fun _ => k))
  (at level 61, right associativity) : coll_scope.
Local Open Scope coll_scope.

Definition emit (e : event) : M unit := fun s => (Val tt, [e], s).

Definition log_callback (msg : str) : M unit := emit (Log msg).
Definition progress_callback (v : Z) : M unit := emit (Progress v).

(** ** Binary64 arithmetic of the progress value (source line 61) *)

Definition prec : Z := 53.
Definition emax : Z := 1024.

Definition float_of_Z (z : Z) : spec_float :=
  binary_normalize prec emax z 0 false.

(** An integer as a (not normalised) mantissa with exponent 0. *)
Definition exact_of_Z (z : Z) : spec_float :=
  match z with
  | Z0 => S754_zero false
  | Zpos p => S754_finite false p 0
  | Zneg p => S754_finite true p 0
  end.

(** [a / b] on Python integers: the correctly rounded quotient
    ([SFdiv] rounds the exact quotient of the two mantissas), or
    [ZeroDivisionError]. *)
Definition int_truediv (a b : Z) : res spec_float :=
  if (b =? 0)%Z then Exc ZeroDivisionError
  else Val (SFdiv prec emax (exact_of_Z a) (exact_of_Z b)).

(** [x * k] for a float [x] and an integer [k]: [k] is converted to a
    float first. *)
Definition float_mul_int (x : spec_float) (k : Z) : spec_float :=
  SFmul prec emax x (float_of_Z k).

(** [int(x)]: truncation towards zero; infinities and NaN raise. *)
Definition int_of_float (x : spec_float) : res Z :=
  match x with
  | S754_zero _ => Val 0%Z
  | S754_finite s m e =>
      let a := Z.shiftl (Zpos m) e in
      Val (if s then (- a)%Z else a)
  | S754_infinity _ => Exc OverflowError
  | S754_nan => Exc ValueError
  end.

(** [int((processed_files / total_files) * 100)] *)
Definition progress_value (processed_files total_files : Z) : res Z :=
  match int_truediv processed_files total_files with
  | Val q => int_of_float (float_mul_int q 100)
  | Exc e => Exc e
  end.

(** The decimal text of an integer, as an f-string prints it. *)
Definition str_of_Z (z : Z) : str :=
  lit (NilZero.string_of_int (Z.to_int z)).

(** ** The routine *)

Section Collector.

Variable w : world.

(** [open(name, 'w', encoding='utf-8')]: creates or truncates. *)
Definition open_w (name : str) : M unit :=
  fun s =>
    match open_fault w with
    | Some msg => (Exc (OSError msg), [], s)
    | None => (Val tt, [Open name], {| disk := Some []; nwrites := nwrites s |})
    end.

(** [outfile.write(text)] *)
Definition outfile_write (text : str) : M unit :=
  fun s =>
    match write_fault w (nwrites s) with
    | Some msg =>
        (Exc (OSError msg), [], {| disk := disk s; nwrites := S (nwrites s) |})
    | None =>
        (Val tt, [Write text],
         {| disk := Some (match disk s with
                          | Some c => c ++ text
                          | None => text
                          end);
            nwrites := S (nwrites s) |})
    end.

Definition outfile_close : M unit :=
  fun s =>
    match close_fault w with
    | Some msg => (Exc (OSError msg), [], s)
    | None => (Val tt, [Close], s)
    end.

(** [with open(name, 'w') as outfile: body]: the file is closed on the
    way out, also when [body] raised; an exception of the close itself
    replaces the one of [body]. *)
Definition with_open_w {A} (name : str) (body : M A) : M A :=
  open_w name ;;
  fun s =>
    match body s with
    | (r, ev, s') =>
        match outfile_close s' with
        | (Val _, ev', s'') => (r, ev ++ ev', s'')
        | (Exc e, ev', s'') => (Exc e, ev ++ ev', s'')
        end
    end.

(** [with open(full_path, 'r', encoding=enc) as f: f.read()] *)
Definition read_text (full_path : path) (enc : encoding) : M str :=
  lift match lookup (fs w) full_path with
       | Some (File (Readable bytes)) =>
           match decode enc bytes with
           | Some text => Val (universal_newlines text)
           | None => Exc UnicodeDecodeError
           end
       | Some (File (Unreadable msg)) => Exc (OSError msg)
       | Some (Dir _) => Exc (OSError (lit "Is a directory"))
       | None => Exc (OSError (lit "No such file or directory"))
       end.

(** [for dirpath, _, filenames in os.walk(root_dir): ...] (lines 42-46) *)
Definition scan (root_dir : path) (target_extensions : list str)
  : M (list path) :=
  emit (Walk root_dir) ;;
  ret match lookup (fs w) root_dir with
      | Some top => walk_collect target_extensions root_dir top
      | None => []
      end.

Definition latin1_warning : str :=
  nl :: lit "[Warning: File read with latin-1 encoding]" ++ [nl].

(** Source lines 70-88: the read of one file with its fallback chain. *)
Definition copy_content (full_path : path) (relative_path : str) : M unit :=
  try_except
    (content <- read_text full_path Utf8Sig ;;
     outfile_write content)
    (fun e =>
       match e with
       | UnicodeDecodeError =>
           try_except
             (content <- read_text full_path Latin1 ;;
              outfile_write content ;;
              outfile_write latin1_warning ;;
              log_callback
                (lit "Warning: " ++ relative_path
                 ++ lit " read with latin-1 due to UTF-8 decoding error."))
             (fun e_fallback =>
                let error_msg :=
                  nl :: lit "[Error: Unable to read file " ++ relative_path
                  ++ lit " - " ++ exn_str e_fallback ++ lit "]" ++ [nl] in
                outfile_write error_msg ;;
                log_callback
                  (lit "Read error " ++ relative_path ++ lit ": "
                   ++ exn_str e_fallback))
       | _ =>
           let error_msg :=
             nl :: lit "[Error: Unable to process file " ++ relative_path
             ++ lit " - " ++ exn_str e ++ lit "]" ++ [nl] in
           outfile_write error_msg ;;
           log_callback
             (lit "Processing error " ++ relative_path ++ lit ": "
              ++ exn_str e)
       end).

Definition header_of (relative_path : str) : str :=
  relative_path ++ lit "-------------" ++ [nl].

(** Source lines 59-90: the loop over [files_to_process]; the value is
    the final [processed_files]. *)
Fixpoint process_files (root_dir : path) (total_files : Z)
    (files : list path) (processed_files : Z) : M Z :=
  match files with
  | [] => ret processed_files
  | full_path :: rest =>
      let processed_files := (processed_files + 1)%Z in
      v <- lift (progress_value processed_files total_files) ;;
      progress_callback v ;;
      let relative_path := replace_sep (os_path_relpath full_path root_dir) in
      outfile_write (header_of relative_path) ;;
      log_callback (lit "Processing: " ++ relative_path) ;;
      copy_content full_path relative_path ;;
      outfile_write [nl; nl] ;;
      process_files root_dir total_files rest processed_files
  end.

Definition success_line (total_files : Z) (output_file : str) : str :=
  nl :: lit "Successfully collected content from " ++ str_of_Z total_files
  ++ lit " files to '" ++ output_file ++ lit "'".

Definition collect_files_content_gui (root_dir : path) (output_file : str)
    (extensions_str : str) : M unit :=
  if negb (os_path_isdir (fs w) root_dir) then
    log_callback (lit "Error: Directory '" ++ path_str root_dir
                  ++ lit "' not found.") ;;
    progress_callback (-1)
  else
    parsed <-
      try_except
        (let extensions := parse_extensions extensions_str in
         match extensions with
         | [] =>
             log_callback (lit "Error: No valid file extensions provided.") ;;
             progress_callback (-1) ;;
             ret None
         | _ => ret (Some (target_extensions_of extensions))
         end)
        (fun e =>
           log_callback (lit "Error: Failed to parse file extensions - "
                         ++ exn_str e) ;;
           progress_callback (-1) ;;
           ret None) ;;
    match parsed with
    | None => ret tt
    | Some target_extensions =>
        files_to_process <- scan root_dir target_extensions ;;
        let total_files := Z.of_nat (List.length files_to_process) in
        if (total_files =? 0)%Z then
          log_callback (lit "No files with extension(s) " ++ extensions_str
                        ++ lit " found in '" ++ path_str root_dir ++ lit "'.") ;;
          progress_callback 100
        else
          try_except
            (with_open_w output_file
               (process_files root_dir total_files files_to_process 0) ;;
             log_callback (success_line total_files output_file) ;;
             progress_callback 100)
            (fun e =>
               log_callback (lit "Error occurred while writing to output file: "
                             ++ exn_str e) ;;
               progress_callback (-1))
    end.

End Collector.

(** ** Reading a run *)

(** A run from an initial output state: what [collect] returns (or the
    exception that escapes), the trace of its events, the final state. *)
Definition run (w : world) (root_dir : path) (output_file extensions_str : str)
    (s : ostate) : res unit * list event * ostate :=
  collect_files_content_gui w root_dir output_file extensions_str s.

Definition outcome {A} (x : res A * list event * ostate) : res A := fst (fst x).
Definition trace {A} (x : res A * list event * ostate) : list event :=
  snd (fst x).
Definition final {A} (x : res A * list event * ostate) : ostate := snd x.

(** The error sentinel of [progress_callback]. *)
Definition sentinel : Z := (-1)%Z.

(** The values passed to [progress_callback], in order. *)
Fixpoint progress_events (tr : list event) : list Z :=
  match tr with
  | [] => []
  | Progress v :: tr' => v :: progress_events tr'
  | _ :: tr' => progress_events tr'
  end.

(** Everything written through [outfile], concatenated. *)
Fixpoint written (tr : list event) : str :=
  match tr with
  | [] => []
  | Write s :: tr' => s ++ written tr'
  | _ :: tr' => written tr'
  end.

Definition is_progress (e : event) : bool :=
  match e with Progress _ => true | _ => false end.

Definition is_separator (e : event) : bool :=
  match e with
  | Write s => str_eqb s [nl; nl]
  | _ => false
  end.

Definition is_open (e : event) : bool :=
  match e with Open _ => true | _ => false end.

(** The position in [tr] of the [k]-th event (from 0) that satisfies [p]. *)
Fixpoint position (p : event -> bool) (k : nat) (tr : list event)
  : option nat :=
  match tr with
  | [] => None
  | e :: tr' =>
      if p e then
        match k with
        | O => Some O
        | S k' => option_map S (position p k' tr')
        end
      else option_map S (position p k tr')
  end.

(** The files the pre-scan finds (source lines 42-46). *)
Definition files_to_process (w : world) (root_dir : path)
    (extensions_str : str) : list path :=
  match lookup (fs w) root_dir with
  | Some top =>
      walk_collect (target_extensions_of (parse_extensions extensions_str))
                   root_dir top
  | None => []
  end.

(** The effective suffixes of an extension string (lines 30 and 35). *)
Definition parse_filter (extensions_str : str) : list str :=
  target_extensions_of (parse_extensions extensions_str).

(** The output file never fails: it opens, every write succeeds, it
    closes. *)
Definition no_output_fault (w : world) : Prop :=
  open_fault w = None /\ (forall k, write_fault w k = None) /\
  close_fault w = None.

(** The progress value of the [i]-th of [n] files, when line 61 does
    not raise. *)
Definition progress_of (n i : Z) : Z :=
  match progress_value i n with
  | Val v => v
  | Exc _ => sentinel
  end.

(** The per-file progress values of a complete pass over [n] files. *)
Definition per_file_progress (n : nat) : list Z :=
  map (fun i => progress_of (Z.of_nat n) (Z.of_nat i)) (seq 1 n).

(** What lines 70-88 emit for one file when no write fails. *)
Definition content_events (w : world) (full_path : path)
    (relative_path : str) : list event :=
  match lookup (fs w) full_path with
  | Some (File (Readable bytes)) =>
      match decode Utf8Sig bytes with
      | Some text => [Write (universal_newlines text)]
      | None =>
          [Write (universal_newlines (decode_latin1 bytes));
           Write latin1_warning;
           Log (lit "Warning: " ++ relative_path
                ++ lit " read with latin-1 due to UTF-8 decoding error.")]
      end
  | other =>
      let e := match other with
               | Some (File (Unreadable msg)) => OSError msg
               | Some (Dir _) => OSError (lit "Is a directory")
               | _ => OSError (lit "No such file or directory")
               end in
      [Write (nl :: lit "[Error: Unable to process file " ++ relative_path
              ++ lit " - " ++ exn_str e ++ lit "]" ++ [nl]);
       Log (lit "Processing error " ++ relative_path ++ lit ": "
            ++ exn_str e)]
  end.

(** What one iteration of the loop (lines 59-90) emits for the file
    that is the [i]-th of [n], when no write fails. *)
Definition file_events (w : world) (root_dir : path) (n i : Z)
    (full_path : path) : list event :=
  let relative_path := replace_sep (os_path_relpath full_path root_dir) in
  Progress (progress_of n i)
  :: Write (header_of relative_path)
  :: Log (lit "Processing: " ++ relative_path)
  :: content_events w full_path relative_path
  ++ [Write [nl; nl]].

(** The events of the loop over [files], the first of which is the
    [(p+1)]-th of [n], when no write fails. *)
Fixpoint loop_events (w : world) (root_dir : path) (n : Z)
    (files : list path) (p : Z) : list event :=
  match files with
  | [] => []
  | full_path :: rest =>
      file_events w root_dir n (p + 1)%Z full_path
      ++ loop_events w root_dir n rest (p + 1)%Z
  end.

(** The spec's wording of the progress value: [round(i / n * 100)], the
    integer nearest to the exact ratio, ties to the even integer. *)
Definition spec_round_percent (i n : Z) : Z :=
  let q := (100 * i / n)%Z in
  let r := (100 * i mod n)%Z in
  match (2 * r ?= n)%Z with
  | Lt => q
  | Gt => (q + 1)%Z
  | Eq => if Z.even q then q else (q + 1)%Z
  end.

(** The order of events the spec claims for the [k]-th file: its
    progress value comes after its separator. *)
Definition progress_after_separator (tr : list event) (k : nat) : Prop :=
  forall i j, position is_progress k tr = Some i ->
              position is_separator k tr = Some j -> (j < i)%nat.

(** A string of white space. *)
Definition blank (s : str) : Prop := Forall (fun c => isspace c = true) s.

(** A token of an extension string: no separator inside. *)
Definition pipe_free (s : str) : Prop := ~ In pipe s.

(** A bare extension: not empty, no white space at either end, no
    separator inside, no leading dot. *)
Definition bare_ext (t : str) : Prop :=
  t <> [] /\ lstrip t = t /\ rstrip t = t /\ pipe_free t /\
  startswith t [dot] = false.

(** A token with white space around it: (left, token, right). *)
Definition padded := (str * str * str)%type.

Definition padding_ok (x : padded) : Prop :=
  let '(l, t, r) := x in blank l /\ blank r /\ pipe_free t.

(** The token with its padding, and without. *)
Definition with_padding (x : padded) : str := let '(l, t, r) := x in l ++ t ++ r.
Definition without_padding (x : padded) : str := let '(_, t, _) := x in t.

(** The normalisation of one trimmed token (line 35). *)
Definition with_dot (ext : str) : str :=
  if negb (startswith ext [dot]) then dot :: ext else ext.

(** What the events of a trace do to the output file on disk. *)
Fixpoint disk_after (d : option str) (tr : list event) : option str :=
  match tr with
  | [] => d
  | Open _ :: tr' => disk_after (Some []) tr'
  | Write t :: tr' =>
      disk_after (Some (match d with Some c => c ++ t | None => t end)) tr'
  | _ :: tr' => disk_after d tr'
  end.

(** [p + 1, ..., p + k] *)
Definition zrange (p : Z) (k : nat) : list Z :=
  map (fun j => (p + Z.of_nat j)%Z) (seq 1 k).

(** The log line of the outer handler (source line 95). *)
Definition write_error_line (e : exn) : str :=
  lit "Error occurred while writing to output file: " ++ exn_str e.

(** The trace of a run, case by case, in terms of the trace of its loop
    [body]; used to read [collect_files_content_gui] once and for all. *)
Definition run_shape (w : world) (root_dir : path)
    (output_file extensions_str : str) (s : ostate)
  : res unit * list event * ostate :=
  let files := files_to_process w root_dir extensions_str in
  let total_files := Z.of_nat (List.length files) in
  let body := process_files w root_dir total_files files 0
                {| disk := Some []; nwrites := nwrites s |} in
  if negb (os_path_isdir (fs w) root_dir) then
    (Val tt,
     [Log (lit "Error: Directory '" ++ path_str root_dir ++ lit "' not found.");
      Progress (-1)], s)
  else
    match parse_extensions extensions_str with
    | [] =>
        (Val tt,
         [Log (lit "Error: No valid file extensions provided."); Progress (-1)],
         s)
    | _ :: _ =>
        match files with
        | [] =>
            (Val tt,
             [Walk root_dir;
              Log (lit "No files with extension(s) " ++ extensions_str
                   ++ lit " found in '" ++ path_str root_dir ++ lit "'.");
              Progress 100], s)
        | _ :: _ =>
            match open_fault w with
            | Some msg =>
                (Val tt,
                 [Walk root_dir; Log (write_error_line (OSError msg));
                  Progress (-1)], s)
            | None =>
                match outcome body, close_fault w with
                | Val _, None =>
                    (Val tt,
                     Walk root_dir :: Open output_file :: trace body
                     ++ [Close; Log (success_line total_files output_file);
                         Progress 100],
                     final body)
                | Exc e, None =>
                    (Val tt,
                     Walk root_dir :: Open output_file :: trace body
                     ++ [Close; Log (write_error_line e); Progress (-1)],
                     final body)
                | _, Some msg =>
                    (Val tt,
                     Walk root_dir :: Open output_file :: trace body
                     ++ [Log (write_error_line (OSError msg)); Progress (-1)],
                     final body)
                end
            end
        end
    end.

(** A result with more events in front. *)
Definition prepend {A} (ev : list event) (x : res A * list event * ostate)
  : res A * list event * ostate :=
  (outcome x, ev ++ trace x, final x).

(** A computation all of whose runs satisfy [P], a property of the
    initial state, the events and the final state. *)
Definition holds (P : ostate -> list event -> ostate -> Prop) {A} (m : M A)
  : Prop :=
  forall s, P s (trace (m s)) (final (m s)).

(** The exception of a failing [outfile.write]. *)
Definition write_fault_exn (w : world) (e : exn) : Prop :=
  exists msg k, e = OSError msg /\ write_fault w k = Some msg.

(** A computation that raises nothing but the exception of a failing
    [outfile.write]. *)
Definition raises_only_write_faults (w : world) {A} (m : M A) : Prop :=
  forall s e, outcome (m s) = Exc e -> write_fault_exn w e.

(** The events the loop may emit. *)
Definition loop_event (e : event) : Prop :=
  match e with
  | Progress _ | Write _ | Log _ => True
  | _ => False
  end.

(** A progress value is the sentinel or a percentage. *)
Definition progress_ok (v : Z) : Prop :=
  v = sentinel \/ (0 <= v <= 100)%Z.

(** ** Example worlds *)

Definition no_faults (tree : node) : world :=
  {| fs := tree; open_fault := None; write_fault := fun _ => None;
     close_fault := None |}.

Definition text_file (s : string) : node :=
  File (Readable (list_byte_of_string s)).

Definition root_R : path := [lit "R"].

(** [/R/a.txt] holds ["hello"]. *)
Definition world_one : world :=
  no_faults (Dir [(lit "R", Dir [(lit "a.txt", text_file "hello")])]).

(** [/R] holds three text files. *)
Definition tree_three : node :=
  Dir [(lit "R", Dir [(lit "a.txt", text_file "one");
                      (lit "b.txt", text_file "two");
                      (lit "c.txt", text_file "three")])].

Definition world_three : world := no_faults tree_three.

(** As [world_three], but the disk is full from the fourth write on
    (the header of the second file). *)
Definition world_full : world :=
  {| fs := tree_three; open_fault := None;
     write_fault := fun k => if Nat.leb 3 k
                             then Some (lit "No space left on device")
                             else None;
     close_fault := None |}.

(** As [world_three], but one write fails: the fifth, the content of
    the second file. *)
Definition world_hiccup : world :=
  {| fs := tree_three; open_fault := None;
     write_fault := fun k => if Nat.eqb k 4 then Some (lit "I/O error")
                             else None;
     close_fault := None |}.


Definition fresh : ostate := {| disk := None; nwrites := 0 |}.

(** An output file that exists before the run. *)
Definition stale : ostate := {| disk := Some (lit "old"); nwrites := 0 |}.

(** The loop of a run, started on the freshly opened output file. *)
Definition loop_run (w : world) (root_dir : path) (extensions_str : str)
    (s : ostate) : res Z * list event * ostate :=
  let files := files_to_process w root_dir extensions_str in
  process_files w root_dir (Z.of_nat (List.length files)) files 0
                {| disk := Some []; nwrites := nwrites s |}.

(** The failures of a run: a bad root directory, an empty extension
    set, an output file that does not open, an exception out of the
    loop, an output file that does not close. *)
Definition failure_cause (w : world) (root_dir : path) (extensions_str : str)
    (s : ostate) : Prop :=
  os_path_isdir (fs w) root_dir = false \/
  parse_extensions extensions_str = [] \/
  (files_to_process w root_dir extensions_str <> [] /\
   (open_fault w <> None \/
    (exists e, outcome (loop_run w root_dir extensions_str s) = Exc e) \/
    close_fault w <> None)).


(** ** Real-number reading of binary64 values

    Used to state what [SFdiv] and [SFmul] compute: the value of a float,
    where a real sits relative to a mantissa, and rounding to nearest
    with ties to even on the binary64 grid. *)

Section Binary64Spec.

Local Open Scope R_scope.

Definition bpow (e : Z) : R := powerRZ 2 e.

Definition SF2R (f : spec_float) : R :=
  match f with
  | S754_finite s m e => (if s then -1 else 1) * IZR (Zpos m) * bpow e
  | _ => 0
  end.

Definition located (x : R) (m e : Z) (l : location) : Prop :=
  let y := x * bpow (- e) in
  match l with
  | loc_Exact => y = IZR m
  | loc_Inexact Lt => IZR m < y < IZR m + /2
  | loc_Inexact Eq => y = IZR m + /2
  | loc_Inexact Gt => IZR m + /2 < y < IZR m + 1
  end.

Definition rne (y : R) (k : Z) : Prop :=
  IZR k - /2 <= y <= IZR k + /2 /\
  (y = IZR k - /2 \/ y = IZR k + /2 -> Z.even k = true).

Definition emin64 : Z := -1074.

Definition grid_ok (x : R) (E : Z) : Prop :=
  (E = emin64 /\ x < bpow (emin64 + 53)) \/
  ((emin64 < E)%Z /\ bpow (E + 52) <= x < bpow (E + 53)).

Definition rounded (x F : R) : Prop :=
  exists E k, grid_ok x E /\ rne (x * bpow (- E)) k /\ F = IZR k * bpow E.

Definition nonneg_finite (f : spec_float) : Prop :=
  match f with
  | S754_zero false => True
  | S754_finite false _ _ => True
  | _ => False
  end.

End Binary64Spec.

(** ** A run that does not read what it writes *)

(** A component of a path in normal form: a name, not empty, without
    ['/'], and neither ['.'] nor ['..']. *)
Definition normal_component (c : str) : Prop :=
  c <> [] /\ ~ In slash c /\ c <> curdir /\ c <> pardir.

(** The output file is none of the files the pre-scan found: its name
    is the text of a normalised absolute path, and that path is not in
    the list. Line 58 empties the output file before line 71 reads
    anything: without this, the text read from an older output would
    not be what the scan saw. *)
Definition output_not_collected (w : world) (root_dir : path)
    (output_file extensions_str : str) : Prop :=
  exists out : path,
    output_file = path_str out /\
    Forall normal_component out /\
    ~ In out (files_to_process w root_dir extensions_str).

(** [/tmp/out.txt] *)
Definition tmp_out : path := [lit "tmp"; lit "out.txt"].

(** ** The text of an entry of the output file *)

(** The exception [open(full_path, 'r')] raises on what is not a
    readable regular file. *)
Definition read_failure (x : option node) : exn :=
  match x with
  | Some (File (Unreadable msg)) => OSError msg
  | Some (Dir _) => OSError (lit "Is a directory")
  | _ => OSError (lit "No such file or directory")
  end.

(** The error marker of line 86. *)
Definition process_error_marker (relative_path : str) (e : exn) : str :=
  nl :: lit "[Error: Unable to process file " ++ relative_path
  ++ lit " - " ++ exn_str e ++ lit "]" ++ [nl].

(** What lines 66-90 write for one file when no write fails: the
    header, then the content (with the Latin-1 warning after a
    fallback) or the error marker, then two newlines. *)
Definition entry_text (w : world) (root_dir full_path : path) : str :=
  let relative_path := replace_sep (os_path_relpath full_path root_dir) in
  header_of relative_path
  ++ match lookup (fs w) full_path with
     | Some (File (Readable bytes)) =>
         match decode Utf8Sig bytes with
         | Some text => universal_newlines text
         | None => universal_newlines (decode_latin1 bytes) ++ latin1_warning
         end
     | other => process_error_marker relative_path (read_failure other)
     end
  ++ [nl; nl].

(** The events of a file that cannot be opened for reading (lines
    85-88), as the [v]-valued step of the loop. *)
Definition unreadable_file_events (v : Z) (relative_path msg : str)
  : list event :=
  [Progress v;
   Write (header_of relative_path);
   Log (lit "Processing: " ++ relative_path);
   Write (process_error_marker relative_path (OSError msg));
   Log (lit "Processing error " ++ relative_path ++ lit ": " ++ msg);
   Write [nl; nl]].

(** ** The life of the output file *)

Inductive file_state := NotOpened | IsOpen | IsClosed.

(** One event seen by the output file [output_file]: the scan comes
    before the file is opened, the file is opened once, written only
    while open, closed once. [None]: the event is out of order. *)
Definition protocol_step (output_file : str) (st : file_state) (e : event)
  : option file_state :=
  match e, st with
  | Walk _, NotOpened => Some NotOpened
  | Walk _, _ => None
  | Open name, NotOpened =>
      if str_eqb name output_file then Some IsOpen else None
  | Open _, _ => None
  | Write _, IsOpen => Some IsOpen
  | Write _, _ => None
  | Close, IsOpen => Some IsClosed
  | Close, _ => None
  | Log _, _ => Some st
  | Progress _, _ => Some st
  end.

Fixpoint protocol (output_file : str) (st : file_state) (tr : list event)
  : option file_state :=
  match tr with
  | [] => Some st
  | e :: tr' =>
      match protocol_step output_file st e with
      | Some st' => protocol output_file st' tr'
      | None => None
      end
  end.

(** ** Well-formed file systems *)

(** The names of a directory are pairwise distinct, at every level. *)
Fixpoint unique_names (t : node) {struct t} : bool :=
  match t with
  | File _ => true
  | Dir entries =>
      (fix go (es : list (str * node)) : bool :=
         match es with
         | [] => true
         | (n, x) :: rest =>
             negb (existsb (fun e => str_eqb (fst e) n) rest)
             && unique_names x && go rest
         end) entries
  end.

(** Induction on a tree, with the hypothesis for every entry of a
    directory. *)
Fixpoint node_induction (P : node -> Prop)
    (HF : forall d, P (File d))
    (HD : forall entries,
        Forall (fun e => P (snd e)) entries -> P (Dir entries))
    (t : node) {struct t} : P t :=
  match t with
  | File d => HF d
  | Dir entries =>
      HD entries
         ((fix go (es : list (str * node))
             : Forall (fun e => P (snd e)) es :=
             match es with
             | [] => Forall_nil _
             | e :: rest =>
                 Forall_cons e (node_induction P HF HD (snd e)) (go rest)
             end) entries)
  end.

(** The sub-directory walk of [walk_collect], by itself. *)
Definition walk_subdirs (target_extensions : list str) (dirpath : path)
    (entries : list (str * node)) : list path :=
  flat_map (fun e => match snd e with
                     | Dir _ =>
                         walk_collect target_extensions
                                      (os_path_join dirpath (fst e)) (snd e)
                     | File _ => []
                     end) entries.


(** A character of an extension string that can be part of no
    extension: white space or the separator. *)
Definition filler (c : char) : Prop := isspace c = true \/ c = pipe.

(** A trimmed string: no white space at either end. *)
Definition trimmed (e : str) : Prop := lstrip e = e /\ rstrip e = e.

(** The check of the start button on the extension field (line 248):
    [if not extensions.strip(): messagebox.showerror(...)]. *)
Definition start_accepts_extensions (extensions : str) : bool :=
  negb (str_eqb (strip extensions) []).

(** [/R/a.txt] cannot be opened for reading, [/R/b.txt] holds ["two"]. *)
Definition world_locked : world :=
  no_faults (Dir [(lit "R",
                   Dir [(lit "a.txt", File (Unreadable (lit "Permission denied")));
                        (lit "b.txt", text_file "two")])]).

(** [/R] holds a text file, a sub-directory with two files, and a file
    that does not match. *)
Definition tree_nested : node :=
  Dir [(lit "R", Dir [(lit "sub", Dir [(lit "c.txt", text_file "c");
                                       (lit "d.md", text_file "d")]);
                      (lit "a.txt", text_file "a");
                      (lit "notes", text_file "n")])].

Definition world_nested : world := no_faults tree_nested.

(** The UTF-8 byte-order mark, [codecs.BOM_UTF8]. *)
Definition bom_utf8 : list byte := [xef; xbb; xbf]%byte.

(** [/R/a.txt] holds the first two bytes of a byte-order mark. *)
Definition world_half_bom : world :=
  no_faults (Dir [(lit "R", Dir [(lit "a.txt",
                                  File (Readable [xef; xbb]%byte))])]).

(** ** The window (class [FileCollectorApp], source lines 98-296)

    The state of the window is a record of what its methods read and
    write: the three [StringVar]s, the text of the log widget, the value
    of the progress bar, the state of the three buttons ([true] is
    [tk.NORMAL]), the message boxes shown so far, and whether the
    window still exists. [filedialog.askdirectory] is an input: the
    string it returns, empty when the user cancels.
    [master.after(0, self._enable_controls)] is taken to run
    [_enable_controls] once the task is over. *)

Inductive dialog :=
| Showinfo (title message : str)     (* messagebox.showinfo *)
| Showerror (title message : str).   (* messagebox.showerror *)

Record gui := {
  winfo_exists : bool;
  dir_entry_var : str;
  output_file_var : str;
  extensions_var : str;
  log_text : str;
  progress_bar : Z;
  start_button : bool;
  browse_dir_button : bool;
  browse_output_button : bool;
  dialogs : list dialog
}.

Definition set_log_text (t : str) (g : gui) : gui :=
  {| winfo_exists := winfo_exists g;
     dir_entry_var := dir_entry_var g;
     output_file_var := output_file_var g;
     extensions_var := extensions_var g;
     log_text := t;
     progress_bar := progress_bar g;
     start_button := start_button g;
     browse_dir_button := browse_dir_button g;
     browse_output_button := browse_output_button g;
     dialogs := dialogs g |}.

Definition set_progress_bar (v : Z) (g : gui) : gui :=
  {| winfo_exists := winfo_exists g;
     dir_entry_var := dir_entry_var g;
     output_file_var := output_file_var g;
     extensions_var := extensions_var g;
     log_text := log_text g;
     progress_bar := v;
     start_button := start_button g;
     browse_dir_button := browse_dir_button g;
     browse_output_button := browse_output_button g;
     dialogs := dialogs g |}.

Definition set_buttons (b : bool) (g : gui) : gui :=
  {| winfo_exists := winfo_exists g;
     dir_entry_var := dir_entry_var g;
     output_file_var := output_file_var g;
     extensions_var := extensions_var g;
     log_text := log_text g;
     progress_bar := progress_bar g;
     start_button := b;
     browse_dir_button := b;
     browse_output_button := b;
     dialogs := dialogs g |}.

Definition show_dialog (d : dialog) (g : gui) : gui :=
  {| winfo_exists := winfo_exists g;
     dir_entry_var := dir_entry_var g;
     output_file_var := output_file_var g;
     extensions_var := extensions_var g;
     log_text := log_text g;
     progress_bar := progress_bar g;
     start_button := start_button g;
     browse_dir_button := browse_dir_button g;
     browse_output_button := browse_output_button g;
     dialogs := dialogs g ++ [d] |}.

Definition set_paths (directory output : str) (g : gui) : gui :=
  {| winfo_exists := winfo_exists g;
     dir_entry_var := directory;
     output_file_var := output;
     extensions_var := extensions_var g;
     log_text := log_text g;
     progress_bar := progress_bar g;
     start_button := start_button g;
     browse_dir_button := browse_dir_button g;
     browse_output_button := browse_output_button g;
     dialogs := dialogs g |}.

(** [log_message] (lines 223-227) *)
Definition log_message (message : str) (g : gui) : gui :=
  if winfo_exists g then set_log_text (log_text g ++ message ++ [nl]) g
  else g.

(** [update_progress] (lines 229-235) *)
Definition update_progress (value : Z) (g : gui) : gui :=
  if winfo_exists g then
    if (value =? -1)%Z then set_progress_bar 0 g
    else set_progress_bar value g
  else g.

(** [sub in s] *)
Fixpoint contains (s sub : str) : bool :=
  startswith s sub
  || match s with
     | [] => false
     | _ :: s' => contains s' sub
     end.

(** [self.log_text.get(1.0, tk.END)]: the text of the widget, with the
    newline Tk keeps at its end. *)
Definition log_text_get (g : gui) : str := log_text g ++ [nl].

Definition done_dialog : dialog :=
  Showinfo (lit "Done") (lit "File collection completed!").

Definition error_dialog : dialog :=
  Showerror (lit "Error")
    (lit "Error occurred during file collection. Please check the log.").

(** [_enable_controls] (lines 288-296) *)
Definition _enable_controls (g : gui) : gui :=
  if winfo_exists g then
    let g := set_buttons true g in
    if (progress_bar g =? 100)%Z then show_dialog done_dialog g
    else if negb (progress_bar g =? 100)%Z
            && contains (log_text_get g) (lit "Error")
         then show_dialog error_dialog g
         else g
  else g.

(** The two callbacks the window hands to the routine, as consumers of
    its events: [self.log_message] and [self.update_progress]. *)
Definition callback (g : gui) (e : event) : gui :=
  match e with
  | Log msg => log_message msg g
  | Progress v => update_progress v g
  | _ => g
  end.

(** [_run_collection_task] (lines 278-286), with [_enable_controls]
    after it. *)
Definition _run_collection_task (w : world) (root_dir : path)
    (output_file extensions : str) (s : ostate) (g : gui) : gui * ostate :=
  let r := run w root_dir output_file extensions s in
  let g := fold_left callback (trace r) g in
  let g :=
    match outcome r with
    | Val _ => g
    | Exc e =>
        update_progress (-1)
          (log_message (lit "An unexpected error occurred: " ++ exn_str e) g)
    end in
  (if winfo_exists g then _enable_controls g else g, final r).

(** The lines the routine logs, in order. *)
Fixpoint log_lines (tr : list event) : list str :=
  match tr with
  | [] => []
  | Log msg :: tr' => msg :: log_lines tr'
  | _ :: tr' => log_lines tr'
  end.

(** *** Path names as strings ([posixpath]) *)

(** The longest prefix of [s] without [sep]. *)
Fixpoint upto (sep : char) (s : str) : str :=
  match s with
  | [] => []
  | c :: s' => if char_eqb c sep then [] else c :: upto sep s'
  end.

(** [os.path.basename(p)]: what follows the last ['/']. *)
Definition posixpath_basename (p : str) : str := rev (upto slash (rev p)).

(** [os.path.join(a, b)] *)
Definition posixpath_join (a b : str) : str :=
  if startswith b [slash] then b
  else if str_eqb a [] || endswith a [slash] then a ++ b
  else a ++ slash :: b.

(** The output file name [browse_directory] keeps (lines 208-210). *)
Definition base_output_name (output_file : str) : str :=
  let base_output_name := posixpath_basename output_file in
  if str_eqb base_output_name [] || str_eqb base_output_name (lit ".txt")
  then lit "result.txt"
  else base_output_name.

(** [browse_directory] (lines 204-211); [directory] is what
    [filedialog.askdirectory] returned. *)
Definition browse_directory (directory : str) (g : gui) : gui :=
  if negb (str_eqb directory []) then
    set_paths directory
              (posixpath_join directory (base_output_name (output_file_var g)))
              g
  else g.

(** A window as [start_collection_thread] leaves it when it starts the
    task: empty log but for the first line, buttons disabled, progress
    bar at 0. *)
Definition started_window : gui :=
  {| winfo_exists := true;
     dir_entry_var := lit "/R";
     output_file_var := lit "/tmp/out.txt";
     extensions_var := lit "txt";
     log_text := lit "Starting collection process..." ++ [nl];
     progress_bar := 0;
     start_button := false;
     browse_dir_button := false;
     browse_output_button := false;
     dialogs := [] |}.

(** * Part II: properties *)

(** ** Binary64 division, multiplication and truncation *)

Section Binary64Facts.

Local Open Scope R_scope.

Lemma bpow_pos e : 0 < bpow e.
Proof. apply powerRZ_lt; lra. Qed.

Lemma bpow_add a b : bpow (a + b) = bpow a * bpow b.
Proof. apply powerRZ_add; lra. Qed.

Lemma bpow_0 : bpow 0 = 1.
Proof. reflexivity. Qed.

Lemma bpow_opp e : bpow (- e) = / bpow e.
Proof. apply powerRZ_neg'. Qed.

Lemma bpow_inv_l e : bpow (- e) * bpow e = 1.
Proof. rewrite <- bpow_add. replace (- e + e)%Z with 0%Z by lia. reflexivity. Qed.

Lemma bpow_IZR k : (0 <= k)%Z -> bpow k = IZR (2 ^ k).
Proof.
  intros Hk. destruct k as [|p|p]; [reflexivity| |lia].
  unfold bpow. change (2 ^ Z.pos p)%Z with (Z.pow_pos 2 p).
  now rewrite Zpower_pos_powerRZ.
Qed.

Lemma bpow_ge_1 k : (0 <= k)%Z -> 1 <= bpow k.
Proof.
  intros Hk. rewrite bpow_IZR by assumption. apply IZR_le.
  assert (0 < 2 ^ k)%Z by (apply Z.pow_pos_nonneg; lia). lia.
Qed.

Lemma bpow_le a b : (a <= b)%Z -> bpow a <= bpow b.
Proof.
  intros H. replace b with (a + (b - a))%Z by lia. rewrite bpow_add.
  pose proof (bpow_pos a). pose proof (bpow_ge_1 (b - a) ltac:(lia)). nra.
Qed.

Lemma bpow_1 : bpow 1 = 2.
Proof. unfold bpow. simpl. lra. Qed.

Lemma bpow_lt a b : (a < b)%Z -> bpow a < bpow b.
Proof.
  intros H. replace b with (a + 1 + (b - a - 1))%Z by lia.
  rewrite !bpow_add, bpow_1.
  pose proof (bpow_pos a). pose proof (bpow_ge_1 (b - a - 1) ltac:(lia)). nra.
Qed.

Lemma bpow_lt_inv a b : bpow a < bpow b -> (a < b)%Z.
Proof.
  intros H. destruct (Z_lt_le_dec a b) as [|Hle]; [assumption|].
  apply bpow_le in Hle. lra.
Qed.

Lemma bpow_le_inv a b : bpow a <= bpow b -> (a <= b)%Z.
Proof.
  intros H. destruct (Z_le_gt_dec a b) as [|Hgt]; [assumption|].
  assert (b < a)%Z as Hlt by lia. apply bpow_lt in Hlt. lra.
Qed.

Lemma fexp64 e : fexp prec emax e = Z.max (e - 53) emin64.
Proof. reflexivity. Qed.

Lemma digits2_pos_bounds p :
  (2 ^ (Zpos (digits2_pos p) - 1) <= Zpos p < 2 ^ Zpos (digits2_pos p))%Z.
Proof.
  induction p as [p IH|p IH|]; simpl digits2_pos.
  - rewrite Pos2Z.inj_succ.
    replace (Z.succ (Zpos (digits2_pos p)) - 1)%Z
      with (Z.succ (Zpos (digits2_pos p) - 1)) by lia.
    rewrite !Z.pow_succ_r by lia. lia.
  - rewrite Pos2Z.inj_succ.
    replace (Z.succ (Zpos (digits2_pos p)) - 1)%Z
      with (Z.succ (Zpos (digits2_pos p) - 1)) by lia.
    rewrite !Z.pow_succ_r by lia. lia.
  - simpl. lia.
Qed.

Lemma Zdigits2_bounds m :
  (0 < m)%Z -> (2 ^ (Zdigits2 m - 1) <= m < 2 ^ Zdigits2 m)%Z.
Proof.
  destruct m as [|p|p]; try lia. intros _. apply digits2_pos_bounds.
Qed.

Lemma Zdigits2_nonneg m : (0 <= Zdigits2 m)%Z.
Proof. destruct m; simpl; lia. Qed.

Lemma Zdigits2_le m k :
  (0 <= m < 2 ^ k)%Z -> (0 <= k)%Z -> (Zdigits2 m <= k)%Z.
Proof.
  intros [H0 Hk] Hk0. destruct (Z.eq_dec m 0) as [->|Hne]; [simpl; lia|].
  pose proof (Zdigits2_bounds m ltac:(lia)) as [Hlo _].
  assert (2 ^ (Zdigits2 m - 1) < 2 ^ k)%Z as Hlt by lia.
  apply Z.pow_lt_mono_r_iff in Hlt; lia.
Qed.

Lemma Zdigits2_ge m k :
  (2 ^ k <= m)%Z -> (0 <= k)%Z -> (k + 1 <= Zdigits2 m)%Z.
Proof.
  intros Hk Hk0.
  assert (0 < 2 ^ k)%Z by (apply Z.pow_pos_nonneg; lia).
  pose proof (Zdigits2_bounds m ltac:(lia)) as [_ Hhi].
  assert (2 ^ k < 2 ^ Zdigits2 m)%Z as Hlt by lia.
  pose proof (Zdigits2_nonneg m).
  apply Z.pow_lt_mono_r_iff in Hlt; lia.
Qed.

Lemma IZR_xO p : IZR (Zpos p~0) = 2 * IZR (Zpos p).
Proof. rewrite Pos2Z.inj_xO, mult_IZR. reflexivity. Qed.

Lemma IZR_xI p : IZR (Zpos p~1) = 2 * IZR (Zpos p) + 1.
Proof. rewrite Pos2Z.inj_xI, plus_IZR, mult_IZR. reflexivity. Qed.

Lemma bpow_opp_succ e : bpow (- (e + 1)) = bpow (- e) * / 2.
Proof.
  replace (- (e + 1))%Z with (- e + - (1))%Z by lia.
  rewrite bpow_add, (bpow_opp 1), bpow_1. reflexivity.
Qed.

Lemma loc_of_shr_record_of_loc m l :
  loc_of_shr_record (shr_record_of_loc m l) = l.
Proof. destruct l as [|[]]; reflexivity. Qed.

Lemma shr_m_of_loc m l : shr_m (shr_record_of_loc m l) = m.
Proof. destruct l as [|[]]; reflexivity. Qed.

Lemma shr_1_located x mrs e :
  (0 <= shr_m mrs)%Z ->
  located x (shr_m mrs) e (loc_of_shr_record mrs) ->
  (0 <= shr_m (shr_1 mrs))%Z /\
  located x (shr_m (shr_1 mrs)) (e + 1) (loc_of_shr_record (shr_1 mrs)).
Proof.
  destruct mrs as [m r s]. simpl shr_m at 1 2.
  intros Hm. unfold located. rewrite bpow_opp_succ.
  set (y := x * bpow (- e)). replace (x * (bpow (- e) * / 2)) with (y / 2)
    by (unfold y; field).
  destruct m as [|[p|p|]|p]; [| | | |lia..];
    destruct r, s;
    cbn [shr_1 shr_m loc_of_shr_record orb];
    try rewrite !(IZR_xO p); try rewrite !(IZR_xI p); intros H;
    (split; [lia | lra]).
Qed.

Lemma iter_shr_1_located p :
  forall x mrs e,
    (0 <= shr_m mrs)%Z ->
    located x (shr_m mrs) e (loc_of_shr_record mrs) ->
    (0 <= shr_m (iter_pos shr_1 p mrs))%Z /\
    located x (shr_m (iter_pos shr_1 p mrs)) (e + Zpos p)
            (loc_of_shr_record (iter_pos shr_1 p mrs)).
Proof.
  induction p as [p IH|p IH|]; intros x mrs e Hm Hl; simpl iter_pos.
  - destruct (shr_1_located x mrs e Hm Hl) as [H1 H2].
    destruct (IH _ _ _ H1 H2) as [H3 H4].
    destruct (IH _ _ _ H3 H4) as [H5 H6].
    split; [assumption|].
    replace (e + Z.pos p~1)%Z with (e + 1 + Z.pos p + Z.pos p)%Z by lia.
    assumption.
  - destruct (IH _ _ _ Hm Hl) as [H3 H4].
    destruct (IH _ _ _ H3 H4) as [H5 H6].
    split; [assumption|].
    replace (e + Z.pos p~0)%Z with (e + Z.pos p + Z.pos p)%Z by lia.
    assumption.
  - apply shr_1_located; assumption.
Qed.

Lemma shr_located x m e l n :
  (0 <= m)%Z -> (0 <= n)%Z -> located x m e l ->
  exists mrs,
    shr (shr_record_of_loc m l) e n = (mrs, (e + n)%Z) /\
    (0 <= shr_m mrs)%Z /\
    located x (shr_m mrs) (e + n) (loc_of_shr_record mrs).
Proof.
  intros Hm Hn Hl. destruct n as [|p|p]; try lia.
  - exists (shr_record_of_loc m l). simpl.
    rewrite Z.add_0_r, shr_m_of_loc, loc_of_shr_record_of_loc. auto.
  - exists (iter_pos shr_1 p (shr_record_of_loc m l)). simpl shr.
    split; [reflexivity|].
    apply iter_shr_1_located;
      rewrite ?shr_m_of_loc, ?loc_of_shr_record_of_loc; assumption.
Qed.

Lemma round_nearest_even_rne x m e l :
  located x m e l ->
  rne (x * bpow (- e)) (round_nearest_even m l) /\
  (m <= round_nearest_even m l <= m + 1)%Z.
Proof.
  unfold located, rne. set (y := x * bpow (- e)).
  destruct l as [|[]]; simpl; intros H.
  - split; [|lia]. split; [lra|]. intros [?|?]; lra.
  - destruct (Z.even m) eqn:Hev.
    + split; [|lia]. split; [lra|]. intros _. assumption.
    + split; [|lia]. rewrite plus_IZR. split; [lra|]. intros _.
      replace (m + 1)%Z with (Z.succ m) by lia.
      rewrite Z.even_succ, <- Z.negb_even, Hev. reflexivity.
  - split; [|lia]. split; [lra|]. intros [?|?]; lra.
  - split; [|lia]. rewrite plus_IZR. split; [lra|]. intros [?|?]; lra.
Qed.

Lemma located_bounds x m e l :
  located x m e l -> IZR m <= x * bpow (- e) < IZR m + 1.
Proof. unfold located. destruct l as [|[]]; lra. Qed.

Lemma scale_lt x e k : x < bpow (e + k) -> x * bpow (- e) < bpow k.
Proof.
  intros H. pose proof (bpow_pos (- e)).
  replace (bpow k) with (bpow (e + k) * bpow (- e)).
  - nra.
  - rewrite <- bpow_add. f_equal. lia.
Qed.

Lemma scale_le x e k : bpow (e + k) <= x -> bpow k <= x * bpow (- e).
Proof.
  intros H. pose proof (bpow_pos (- e)).
  replace (bpow k) with (bpow (e + k) * bpow (- e)).
  - nra.
  - rewrite <- bpow_add. f_equal. lia.
Qed.

Lemma unscale x e : x = x * bpow (- e) * bpow e.
Proof. rewrite Rmult_assoc, bpow_inv_l. ring. Qed.

(** The grid of a located value. *)
Lemma located_grid x mx ex lx :
  (0 <= mx)%Z -> located x mx ex lx ->
  (ex <= fexp prec emax (Zdigits2 mx + ex))%Z ->
  grid_ok x (fexp prec emax (Zdigits2 mx + ex)).
Proof.
  intros Hm Hl He. rewrite fexp64 in *.
  pose proof (located_bounds _ _ _ _ Hl) as [Hlo Hhi].
  set (y := x * bpow (- ex)) in *.
  assert (Hx : x = y * bpow ex) by apply unscale.
  pose proof (bpow_pos ex) as Hb.
  destruct (Z.eq_dec mx 0) as [->|Hne].
  - simpl Zdigits2 in *. left. split; [lia|].
    assert (x < bpow ex) by (simpl in Hhi; nra).
    assert (bpow ex <= bpow (emin64 + 53)) by (apply bpow_le; lia). lra.
  - pose proof (Zdigits2_bounds mx ltac:(lia)) as [Hd1 Hd2].
    pose proof (Zdigits2_nonneg mx) as Hd0.
    set (d := Zdigits2 mx) in *.
    assert (d <> 0)%Z as Hdne.
    { intros E. rewrite E in Hd2. simpl in Hd2. lia. }
    assert (Hup : x < bpow (d + ex)).
    { rewrite bpow_add, (bpow_IZR d) by lia.
      assert (IZR mx + 1 <= IZR (2 ^ d)).
      { rewrite <- plus_IZR. apply IZR_le. lia. }
      nra. }
    assert (Hdn : bpow (d - 1 + ex) <= x).
    { rewrite bpow_add, (bpow_IZR (d - 1)) by lia.
      assert (IZR (2 ^ (d - 1)) <= IZR mx) by (apply IZR_le; lia).
      nra. }
    destruct (Z_le_gt_dec (d + ex - 53) emin64) as [Hc|Hc].
    + left. split; [lia|].
      assert (bpow (d + ex) <= bpow (emin64 + 53)) by (apply bpow_le; lia).
      lra.
    + right. replace (Z.max (d + ex - 53) emin64) with (d + ex - 53)%Z by lia.
      split; [lia|].
      replace (d + ex - 53 + 52)%Z with (d - 1 + ex)%Z by lia.
      replace (d + ex - 53 + 53)%Z with (d + ex)%Z by lia. lra.
Qed.

Lemma grid_ok_lt x E : grid_ok x E -> x < bpow (E + 53).
Proof. intros [[-> H]|[_ H]]; lra. Qed.

Lemma grid_ok_emin x E : grid_ok x E -> (emin64 <= E)%Z.
Proof. intros [[-> H]|[H _]]; lia. Qed.

Lemma binary_round_aux_correct x mx ex lx :
  (0 <= mx)%Z -> located x mx ex lx ->
  (ex <= fexp prec emax (Zdigits2 mx + ex))%Z ->
  (Zdigits2 mx + ex <= 1023)%Z ->
  nonneg_finite (binary_round_aux prec emax false mx ex lx) /\
  rounded x (SF2R (binary_round_aux prec emax false mx ex lx)).
Proof.
  intros Hm Hl He Hov.
  pose proof (located_grid _ _ _ _ Hm Hl He) as Hg.
  unfold binary_round_aux, shr_fexp.
  set (e1 := fexp prec emax (Zdigits2 mx + ex)) in *.
  destruct (shr_located x mx ex lx (e1 - ex) Hm ltac:(lia) Hl)
    as (mrs & Hs & Hm' & Hl').
  replace (ex + (e1 - ex))%Z with e1 in * by lia.
  rewrite Hs.
  set (m' := shr_m mrs) in *. set (l' := loc_of_shr_record mrs) in *.
  destruct (round_nearest_even_rne _ _ _ _ Hl') as [Hr Hb].
  set (m1 := round_nearest_even m' l') in *.
  pose proof (located_bounds _ _ _ _ Hl') as [Hlo Hhi].
  pose proof (scale_lt _ _ _ (grid_ok_lt _ _ Hg)) as Hy.
  pose proof (grid_ok_emin _ _ Hg) as Hemin.
  assert (Hm53 : (m' < 2 ^ 53)%Z).
  { apply lt_IZR. rewrite <- (bpow_IZR 53) by lia. lra. }
  assert (He1 : (e1 <= 970)%Z).
  { unfold e1. rewrite fexp64. unfold emin64. lia. }
  assert (Hround : rounded x (IZR m1 * bpow e1)).
  { exists e1, m1. auto. }
  destruct (Z.eq_dec m1 (2 ^ 53)) as [E53|N53].
  - (* the rounding carried into a new binade *)
    rewrite E53 in *.
    replace (fexp prec emax (Zdigits2 (2 ^ 53) + e1) - e1)%Z with 1%Z
      by (rewrite fexp64; change (Zdigits2 (2 ^ 53)) with 54%Z; lia).
    assert (Hle : (e1 + 1 <=? emax - prec)%Z = true)
      by (apply Z.leb_le; unfold emax, prec; lia).
    simpl shr. cbn [shr_m]. rewrite Hle.
    split; [exact I|].
    replace (SF2R (S754_finite false 4503599627370496 (e1 + 1)))
      with (IZR (2 ^ 53) * bpow e1); [assumption|].
    simpl SF2R. rewrite bpow_add, bpow_1.
    change (2 ^ 53)%Z with (2 * 4503599627370496)%Z. rewrite mult_IZR. ring.
  - assert (Hd : (Zdigits2 m1 <= 53)%Z) by (apply Zdigits2_le; lia).
    assert (Hn2 : (fexp prec emax (Zdigits2 m1 + e1) - e1 <= 0)%Z)
      by (rewrite fexp64; lia).
    assert (Hsh : shr (shr_record_of_loc m1 loc_Exact) e1
                      (fexp prec emax (Zdigits2 m1 + e1) - e1)
                  = (shr_record_of_loc m1 loc_Exact, e1)).
    { destruct (fexp prec emax (Zdigits2 m1 + e1) - e1)%Z; try lia;
        reflexivity. }
    rewrite Hsh. cbn [shr_m shr_record_of_loc].
    destruct m1 as [|p|p] eqn:Em1; try lia.
    + split; [exact I|]. simpl SF2R.
      replace 0 with (IZR 0 * bpow e1) by (simpl; ring). assumption.
    + assert (Hle : (e1 <=? emax - prec)%Z = true)
        by (apply Z.leb_le; unfold emax, prec; lia).
      rewrite Hle.
      split; [exact I|]. simpl SF2R.
      replace (1 * IZR (Z.pos p) * bpow e1) with (IZR (Z.pos p) * bpow e1)
        by ring.
      assumption.
Qed.

(** ** Order properties of rounding *)

Lemma rne_le y1 y2 k1 k2 :
  y1 <= y2 -> rne y1 k1 -> rne y2 k2 -> (k1 <= k2)%Z.
Proof.
  intros Hy [[L1 U1] T1] [[L2 U2] T2].
  destruct (Z_le_gt_dec k1 k2) as [|Hgt]; [assumption|exfalso].
  assert (IZR k2 + 1 <= IZR k1).
  { rewrite <- plus_IZR. apply IZR_le. lia. }
  assert (Hk : k1 = (k2 + 1)%Z).
  { assert (IZR k1 <= IZR k2 + 1) by lra.
    rewrite <- plus_IZR in *. apply le_IZR in H0. lia. }
  assert (E1 : Z.even k1 = true) by (apply T1; left; rewrite Hk, plus_IZR in *; lra).
  assert (E2 : Z.even k2 = true) by (apply T2; right; rewrite Hk, plus_IZR in *; lra).
  rewrite Hk in E1. replace (k2 + 1)%Z with (Z.succ k2) in E1 by lia.
  rewrite Z.even_succ, <- Z.negb_even, E2 in E1. discriminate.
Qed.

Lemma grid_ok_le x y Ex Ey :
  x <= y -> grid_ok x Ex -> grid_ok y Ey -> (Ex <= Ey)%Z.
Proof.
  intros Hxy Hx Hy.
  destruct (Z_le_gt_dec Ex Ey) as [|Hgt]; [assumption|exfalso].
  pose proof (grid_ok_emin _ _ Hy).
  destruct Hx as [[-> _]|[_ [Hlo _]]]; [lia|].
  pose proof (grid_ok_lt _ _ Hy).
  assert (bpow (Ey + 53) <= bpow (Ex + 52)) by (apply bpow_le; lia). lra.
Qed.

Lemma scale_mono x y e : x <= y -> x * bpow (- e) <= y * bpow (- e).
Proof. intros H. pose proof (bpow_pos (- e)). nra. Qed.

Lemma rounded_le x y F G :
  x <= y -> rounded x F -> rounded y G -> F <= G.
Proof.
  intros Hxy (Ex & kx & Hgx & Hrx & ->) (Ey & ky & Hgy & Hry & ->).
  pose proof (grid_ok_le _ _ _ _ Hxy Hgx Hgy) as HE.
  destruct (Z.eq_dec Ex Ey) as [->|Hne].
  - pose proof (rne_le _ _ _ _ (scale_mono _ _ Ey Hxy) Hrx Hry) as Hk.
    apply IZR_le in Hk. pose proof (bpow_pos Ey). nra.
  - assert (Hlt : (Ex < Ey)%Z) by lia.
    (* x lies below the binade of y *)
    pose proof (scale_lt _ _ _ (grid_ok_lt _ _ Hgx)) as Hsx.
    destruct Hrx as [[Lx Ux] _].
    assert (Hkx : (kx <= 2 ^ 53)%Z).
    { assert (IZR kx < IZR (2 ^ 53) + 1)
        by (rewrite <- (bpow_IZR 53) by lia; lra).
      rewrite <- plus_IZR in H. apply lt_IZR in H. lia. }
    pose proof (grid_ok_emin _ _ Hgx).
    destruct Hgy as [[-> _]|[_ [Hlo _]]]; [lia|].
    pose proof (scale_le _ _ _ Hlo) as Hsy.
    destruct Hry as [[Ly Uy] _].
    assert (Hky : (2 ^ 52 <= ky)%Z).
    { assert (IZR (2 ^ 52) - 1 < IZR ky)
        by (rewrite <- (bpow_IZR 52) by lia; lra).
      rewrite <- minus_IZR in H0. apply lt_IZR in H0. lia. }
    apply IZR_le in Hkx, Hky.
    rewrite <- bpow_IZR in Hkx, Hky by lia.
    pose proof (bpow_pos Ex). pose proof (bpow_pos Ey).
    assert (IZR kx * bpow Ex <= bpow (Ex + 53)).
    { rewrite Z.add_comm, bpow_add. nra. }
    assert (bpow (Ey + 52) <= IZR ky * bpow Ey).
    { rewrite Z.add_comm, bpow_add. nra. }
    assert (bpow (Ex + 53) <= bpow (Ey + 52)) by (apply bpow_le; lia).
    lra.
Qed.

Lemma rounded_fun x F G : rounded x F -> rounded x G -> F = G.
Proof.
  intros HF HG.
  pose proof (rounded_le x x F G ltac:(lra) HF HG).
  pose proof (rounded_le x x G F ltac:(lra) HG HF). lra.
Qed.

Lemma rounded_0 : rounded 0 0.
Proof.
  exists emin64, 0%Z. split; [|split].
  - left. split; [reflexivity|apply bpow_pos].
  - unfold rne. rewrite Rmult_0_l. simpl. split; [lra|]. intros [?|?]; lra.
  - simpl. ring.
Qed.

Lemma rounded_1 : rounded 1 1.
Proof.
  exists (-52)%Z, (2 ^ 52)%Z. split; [|split].
  - right. unfold emin64. split; [lia|].
    change (-52 + 52)%Z with 0%Z. change (-52 + 53)%Z with 1%Z.
    rewrite bpow_0, bpow_1. lra.
  - change (- -52)%Z with 52%Z. rewrite (bpow_IZR 52) by lia.
    unfold rne. split; [lra|]. intros _. reflexivity.
  - rewrite <- (bpow_IZR 52) by lia. rewrite <- bpow_add. reflexivity.
Qed.

Lemma rounded_100 : rounded 100 100.
Proof.
  exists (-46)%Z, 7036874417766400%Z. split; [|split].
  - right. unfold emin64. split; [lia|].
    change (-46 + 52)%Z with 6%Z. change (-46 + 53)%Z with 7%Z.
    rewrite !bpow_IZR by lia.
    split; [apply (IZR_le _ 100)|apply (IZR_lt 100)]; lia.
  - change (- -46)%Z with 46%Z. rewrite (bpow_IZR 46) by lia.
    rewrite <- mult_IZR.
    change (100 * 2 ^ 46)%Z with 7036874417766400%Z.
    unfold rne. split; [lra|]. intros _. reflexivity.
  - change 7036874417766400%Z with (100 * 2 ^ 46)%Z.
    rewrite mult_IZR, <- (bpow_IZR 46) by lia.
    rewrite Rmult_assoc, <- bpow_add. simpl. ring.
Qed.

(** ** The two operations and the truncation *)

Lemma div_floor a n :
  (0 < n)%Z -> IZR (a / n) <= IZR a / IZR n < IZR (a / n) + 1.
Proof.
  intros Hn. pose proof (Z.div_mod a n ltac:(lia)) as Ha.
  pose proof (Z.mod_pos_bound a n Hn) as [Hr0 Hr1].
  assert (Hn' : 0 < IZR n) by (apply (IZR_lt 0); assumption).
  apply IZR_le in Hr0. apply IZR_lt in Hr1.
  assert (E : IZR a = IZR n * IZR (a / n) + IZR (a mod n))
    by (rewrite <- mult_IZR, <- plus_IZR; congruence).
  set (y := IZR a / IZR n).
  assert (Hy : y * IZR n = IZR a) by (unfold y; field; lra).
  split; nra.
Qed.

Lemma int_of_float_floor f :
  nonneg_finite f ->
  exists z, int_of_float f = Val z /\ IZR z <= SF2R f < IZR z + 1.
Proof.
  destruct f as [[]|s|  |[] m e]; try contradiction; intros _.
  - exists 0%Z. simpl. split; [reflexivity|lra].
  - exists (Z.shiftl (Zpos m) e). split; [reflexivity|]. simpl SF2R.
    rewrite Rmult_1_l.
    destruct (Z_le_gt_dec 0 e) as [He|He].
    + rewrite Z.shiftl_mul_pow2 by assumption.
      rewrite mult_IZR, <- bpow_IZR by assumption. lra.
    + rewrite Z.shiftl_div_pow2 by lia.
      assert (Hp : (0 < 2 ^ (- e))%Z) by (apply Z.pow_pos_nonneg; lia).
      pose proof (div_floor (Zpos m) _ Hp) as Hf.
      rewrite <- (bpow_IZR (- e)) in Hf by lia.
      rewrite bpow_opp in Hf. unfold Rdiv in Hf.
      rewrite Rinv_inv in Hf. exact Hf.
Qed.

Lemma new_location_spec n r :
  (0 <= r < n)%Z ->
  new_location n r =
  if (r =? 0)%Z then loc_Exact else loc_Inexact (2 * r ?= n)%Z.
Proof.
  intros Hr. unfold new_location, new_location_even, new_location_odd.
  destruct (Z.even n) eqn:Hev; [reflexivity|].
  destruct (r =? 0)%Z; [reflexivity|]. f_equal.
  assert (n <> 2 * r)%Z as Hne.
  { intros ->. rewrite Z.even_mul in Hev. discriminate. }
  destruct (Z.compare_spec (2 * r + 1) n), (Z.compare_spec (2 * r) n);
    try reflexivity; lia.
Qed.

Lemma located_quotient a n q r e :
  (0 < n)%Z -> a = (n * q + r)%Z -> (0 <= r < n)%Z ->
  located (IZR a / IZR n * bpow e) q e
          (if (r =? 0)%Z then loc_Exact else loc_Inexact (2 * r ?= n)%Z).
Proof.
  intros Hn Ha [Hr0 Hr1]. unfold located.
  rewrite Rmult_assoc, (Rmult_comm (bpow e)), bpow_inv_l, Rmult_1_r.
  assert (Hn' : 0 < IZR n) by (apply (IZR_lt 0); assumption).
  assert (E : IZR a = IZR n * IZR q + IZR r)
    by (rewrite <- mult_IZR, <- plus_IZR; congruence).
  set (y := IZR a / IZR n).
  assert (Hy : y * IZR n = IZR a) by (unfold y; field; lra).
  destruct (Z.eqb_spec r 0) as [->|Hr].
  - simpl in E. nra.
  - assert (0 < IZR r) by (apply (IZR_lt 0); lia).
    apply IZR_lt in Hr1.
    destruct (Z.compare_spec (2 * r) n) as [H2|H2|H2].
    + rewrite <- H2, mult_IZR in *. nra.
    + apply IZR_lt in H2. rewrite mult_IZR in H2. nra.
    + apply IZR_lt in H2. rewrite mult_IZR in H2. nra.
Qed.

Lemma SFdiv_correct (i n : positive) :
  (i <= n)%positive ->
  nonneg_finite (SFdiv prec emax (S754_finite false i 0) (S754_finite false n 0))
  /\ rounded (IZR (Zpos i) / IZR (Zpos n))
             (SF2R (SFdiv prec emax (S754_finite false i 0)
                          (S754_finite false n 0))).
Proof.
  intros Hin. unfold SFdiv, SFdiv_core_binary. cbn [xorb].
  pose proof (Zdigits2_bounds (Zpos i) ltac:(lia)) as [Hi1 Hi2].
  pose proof (Zdigits2_bounds (Zpos n) ltac:(lia)) as [Hn1 Hn2].
  pose proof (Zdigits2_nonneg (Zpos i)) as Hd1.
  pose proof (Zdigits2_nonneg (Zpos n)) as Hd2.
  set (d1 := Zdigits2 (Zpos i)) in *. set (d2 := Zdigits2 (Zpos n)) in *.
  assert (Hd1' : (1 <= d1)%Z).
  { destruct (Z.eq_dec d1 0) as [E|]; [|lia]. rewrite E in Hi2. simpl in Hi2. lia. }
  assert (Hd : (d1 <= d2)%Z).
  { assert (2 ^ (d1 - 1) < 2 ^ d2)%Z as Hlt by lia.
    apply Z.pow_lt_mono_r_iff in Hlt; lia. }
  replace (d1 + 0 - (d2 + 0))%Z with (d1 - d2)%Z by lia.
  change (0 - 0)%Z with 0%Z.
  set (e' := fexp prec emax (d1 - d2)).
  assert (He' : e' = Z.max (d1 - d2 - 53) emin64) by apply fexp64.
  assert (He'neg : (e' < 0)%Z) by (unfold emin64 in He'; lia).
  replace (Z.min e' 0) with e' by lia.
  set (s := (0 - e')%Z).
  assert (Hs : (0 < s)%Z) by (unfold s; lia).
  destruct s as [|ps|ps] eqn:Es; try lia. rewrite <- Es in *. clear Es ps.
  rewrite Z.shiftl_mul_pow2 by lia.
  set (a := (Zpos i * 2 ^ s)%Z).
  assert (Hps : (0 < 2 ^ s)%Z) by (apply Z.pow_pos_nonneg; lia).
  pose proof (Z_div_mod a (Zpos n) ltac:(lia)) as Hdm.
  destruct (Z.div_eucl a (Z.pos n)) as [q r]. destruct Hdm as [Ha Hr].
  assert (Ha0 : (0 < a)%Z) by (unfold a; lia).
  assert (Hq0 : (0 <= q)%Z) by nia.
  assert (Hx : IZR (Zpos i) / IZR (Zpos n) = IZR a / IZR (Zpos n) * bpow e').
  { unfold a. rewrite mult_IZR, <- (bpow_IZR s) by lia.
    assert (0 < IZR (Zpos n)) by (apply (IZR_lt 0); lia).
    replace e' with (- s)%Z by (unfold s; lia).
    unfold Rdiv.
    rewrite (Rmult_comm (IZR (Zpos i) * bpow s)), <- !Rmult_assoc.
    rewrite (Rmult_assoc _ (bpow s)), (Rmult_comm (bpow s)), bpow_inv_l.
    field. lra. }
  rewrite Hx. rewrite new_location_spec by assumption.
  apply binary_round_aux_correct.
  - assumption.
  - apply located_quotient; [lia|assumption|assumption].
  - (* the quotient has enough digits *)
    assert (Hdq : (d1 - d2 <= Zdigits2 q + e')%Z).
    { pose proof (Zdigits2_nonneg q).
      destruct (Z_lt_le_dec (d1 - 1 + s - d2) 0) as [Hneg|Hpos];
        [unfold s in *; lia|].
      assert (H2 : (2 ^ (d1 - 1 + s - d2) <= q)%Z).
      { assert (Hpow : (2 ^ (d1 - 1 + s - d2) * 2 ^ d2 = 2 ^ (d1 - 1) * 2 ^ s)%Z).
        { rewrite <- !Z.pow_add_r by lia. f_equal. lia. }
        assert (0 < 2 ^ (d1 - 1 + s - d2))%Z by (apply Z.pow_pos_nonneg; lia).
        assert (0 < 2 ^ d2)%Z by (apply Z.pow_pos_nonneg; lia).
        assert (2 ^ (d1 - 1) * 2 ^ s <= a)%Z by (unfold a; nia).
        assert (a < Zpos n * (q + 1))%Z by lia.
        assert (Zpos n * (q + 1) < 2 ^ d2 * (q + 1))%Z by nia.
        assert (Hc : (2 ^ (d1 - 1 + s - d2) * 2 ^ d2 < (q + 1) * 2 ^ d2)%Z)
          by lia.
        apply Z.mul_lt_mono_pos_r in Hc; lia. }
      apply Zdigits2_ge in H2; [|lia]. unfold s in *. lia. }
    rewrite fexp64. lia.
  - assert (Hq : (q <= 2 ^ s)%Z).
    { assert (a <= Zpos n * 2 ^ s)%Z by (unfold a; nia).
      assert (Hc : (Zpos n * q <= Zpos n * 2 ^ s)%Z) by lia.
      apply Z.mul_le_mono_pos_l in Hc; lia. }
    assert (Hq' : (0 <= q < 2 ^ (s + 1))%Z).
    { rewrite Z.pow_add_r by lia. lia. }
    apply Zdigits2_le in Hq'; [|lia]. unfold s in *. lia.
Qed.

Lemma float_of_Z_100 :
  float_of_Z 100 = S754_finite false 7036874417766400 (-46).
Proof. reflexivity. Qed.

Lemma SFmul_100_correct f :
  nonneg_finite f -> SF2R f <= 1 ->
  nonneg_finite (float_mul_int f 100) /\
  rounded (SF2R f * 100) (SF2R (float_mul_int f 100)).
Proof.
  unfold float_mul_int. rewrite float_of_Z_100.
  destruct f as [[]|s|  |[] m e]; try contradiction; intros _ Hle.
  - cbn [SFmul xorb SF2R]. split; [exact I|].
    rewrite Rmult_0_l. apply rounded_0.
  - cbn [SFmul xorb]. cbn [SF2R] in Hle. rewrite Rmult_1_l in Hle.
    set (M := 7036874417766400%positive).
    assert (HM : IZR (Zpos M) * bpow (-46) = 100).
    { change (Zpos M) with (100 * 2 ^ 46)%Z.
      rewrite mult_IZR, <- (bpow_IZR 46) by lia.
      rewrite Rmult_assoc, <- bpow_add. simpl. ring. }
    assert (Hx : SF2R (S754_finite false m e) * 100
                 = IZR (Zpos (m * M)) * bpow (e + -46)).
    { cbn [SF2R]. rewrite <- HM, Pos2Z.inj_mul, mult_IZR, bpow_add. ring. }
    rewrite Hx.
    pose proof (bpow_pos e) as Hbe.
    assert (Hm1 : 1 <= IZR (Zpos m)) by (apply (IZR_le 1); lia).
    assert (He0 : (e <= 0)%Z).
    { apply bpow_le_inv. rewrite bpow_0. nra. }
    assert (Hm2 : (Zpos m <= 2 ^ (- e))%Z).
    { apply le_IZR. rewrite <- bpow_IZR by lia.
      pose proof (bpow_inv_l e) as Hi. pose proof (bpow_pos (- e)). nra. }
    assert (Hp : (0 < 2 ^ (- e))%Z) by (apply Z.pow_pos_nonneg; lia).
    apply binary_round_aux_correct.
    + lia.
    + unfold located.
      rewrite Rmult_assoc, (Rmult_comm (bpow _)), bpow_inv_l. ring.
    + assert (H52 : (2 ^ 52 <= Zpos (m * M))%Z).
      { rewrite Pos2Z.inj_mul. change (2 ^ 52)%Z with 4503599627370496%Z.
        unfold M. nia. }
      apply Zdigits2_ge in H52; [|lia]. rewrite fexp64. unfold emin64. lia.
    + assert (Hlt : (0 <= Zpos (m * M) < 2 ^ (- e + 53))%Z).
      { rewrite Pos2Z.inj_mul, Z.pow_add_r by lia.
        change (2 ^ 53)%Z with 9007199254740992%Z. unfold M. nia. }
      apply Zdigits2_le in Hlt; lia.
Qed.

(** The progress value of the [i]-th of [n] files: two roundings and a
    truncation. *)
Lemma progress_value_spec i n :
  (1 <= i <= n)%Z ->
  exists v F P,
    progress_value i n = Val v /\
    rounded (IZR i / IZR n) F /\ rounded (F * 100) P /\
    IZR v <= P < IZR v + 1.
Proof.
  intros [Hi Hin]. unfold progress_value, int_truediv.
  destruct (Z.eqb_spec n 0) as [|_]; [lia|].
  destruct i as [|i|i]; try lia. destruct n as [|n|n]; try lia.
  cbn [exact_of_Z].
  destruct (SFdiv_correct i n ltac:(lia)) as [Hq1 Hq2].
  set (q := SFdiv prec emax (S754_finite false i 0) (S754_finite false n 0)) in *.
  assert (Hq3 : SF2R q <= 1).
  { apply (rounded_le (IZR (Zpos i) / IZR (Zpos n)) 1); auto using rounded_1.
    assert (0 < IZR (Zpos n)) by (apply (IZR_lt 0); lia).
    apply IZR_le in Hin.
    apply (Rmult_le_reg_r (IZR (Zpos n))); [assumption|].
    unfold Rdiv. rewrite Rmult_assoc, Rinv_l by lra. lra. }
  destruct (SFmul_100_correct q Hq1 Hq3) as [Hp1 Hp2].
  destruct (int_of_float_floor _ Hp1) as (v & Hv & Hfl).
  exists v, (SF2R q), (SF2R (float_mul_int q 100)). auto.
Qed.

Lemma progress_value_total i n :
  (1 <= i <= n)%Z -> exists v, progress_value i n = Val v.
Proof.
  intros H. destruct (progress_value_spec i n H) as (v & _ & _ & Hv & _).
  eauto.
Qed.

Lemma ratio_le i j n : (1 <= n)%Z -> (i <= j)%Z -> IZR i / IZR n <= IZR j / IZR n.
Proof.
  intros Hn Hij. assert (0 < IZR n) by (apply (IZR_lt 0); lia).
  apply IZR_le in Hij. unfold Rdiv.
  apply Rmult_le_compat_r; [|assumption].
  apply Rlt_le, Rinv_0_lt_compat. assumption.
Qed.

Lemma progress_value_mono i j n vi vj :
  (1 <= i)%Z -> (i <= j)%Z -> (j <= n)%Z ->
  progress_value i n = Val vi -> progress_value j n = Val vj ->
  (vi <= vj)%Z.
Proof.
  intros Hi Hij Hjn Ei Ej.
  destruct (progress_value_spec i n ltac:(lia)) as (v & F & P & E & HF & HP & Hv).
  destruct (progress_value_spec j n ltac:(lia)) as (v' & F' & P' & E' & HF' & HP' & Hv').
  rewrite Ei in E. rewrite Ej in E'. injection E as <-. injection E' as <-.
  pose proof (rounded_le _ _ _ _ (ratio_le i j n ltac:(lia) Hij) HF HF') as HFF.
  pose proof (rounded_le (F * 100) (F' * 100) P P' ltac:(lra) HP HP') as HPP.
  assert (IZR vi < IZR vj + 1) by lra.
  rewrite <- plus_IZR in H. apply lt_IZR in H. lia.
Qed.

Lemma progress_value_range i n v :
  (1 <= i <= n)%Z -> progress_value i n = Val v -> (0 <= v <= 100)%Z.
Proof.
  intros Hin Ev.
  destruct (progress_value_spec i n Hin) as (v' & F & P & E & HF & HP & Hv).
  rewrite Ev in E. injection E as <-.
  assert (Hn : 0 < IZR n) by (apply (IZR_lt 0); lia).
  assert (H0 : 0 <= IZR i / IZR n).
  { apply Rmult_le_pos; [apply (IZR_le 0); lia|].
    apply Rlt_le, Rinv_0_lt_compat; assumption. }
  assert (H1 : IZR i / IZR n <= 1).
  { replace 1 with (IZR n / IZR n) by (field; lra).
    apply ratio_le; lia. }
  pose proof (rounded_le _ _ _ _ H0 rounded_0 HF) as HF0.
  pose proof (rounded_le _ _ _ _ H1 HF rounded_1) as HF1.
  pose proof (rounded_le 0 (F * 100) 0 P ltac:(lra) rounded_0 HP) as HP0.
  pose proof (rounded_le (F * 100) 100 P 100 ltac:(lra) HP rounded_100) as HP1.
  split.
  - assert (IZR 0 < IZR v + 1) by (simpl; lra).
    rewrite <- plus_IZR in H. apply lt_IZR in H. lia.
  - apply le_IZR. lra.
Qed.

Lemma progress_value_last n :
  (1 <= n)%Z -> progress_value n n = Val 100%Z.
Proof.
  intros Hn.
  destruct (progress_value_spec n n ltac:(lia)) as (v & F & P & E & HF & HP & Hv).
  rewrite E. f_equal.
  assert (0 < IZR n) by (apply (IZR_lt 0); lia).
  replace (IZR n / IZR n) with 1 in HF by (field; lra).
  rewrite (rounded_fun _ _ _ HF rounded_1) in HP.
  rewrite Rmult_1_l in HP.
  rewrite (rounded_fun _ _ _ HP rounded_100) in Hv.
  assert (IZR v < IZR 101) by lra.
  assert (IZR 99 < IZR v) by lra.
  apply lt_IZR in H0, H1. lia.
Qed.

(** Truncation of binary64 values is not the integer quotient
    [100 * i / n]: [29 / 100 * 100] is [28.999999999999996]. *)
Example progress_value_29_100 : progress_value 29 100 = Val 28%Z.
Proof. vm_compute. reflexivity. Qed.

Example progress_value_ten_files :
  map (fun i => progress_value i 10) [1; 2; 3; 4; 5; 6; 7; 8; 9; 10]%Z
  = map Val [10; 20; 30; 40; 50; 60; 70; 80; 90; 100]%Z.
Proof. vm_compute. reflexivity. Qed.



End Binary64Facts.

(** Lists of events, with every append associated to the right. *)
Ltac list_norm := repeat (progress (cbn [app]) || rewrite <- app_assoc).

(** ** The monad *)

Section Monad.

Local Open Scope coll_scope.

Lemma bind_eq {A B} (m : M A) (k : A -> M B) s :
  bind m k s =
  match m s with
  | (Val a, ev, s') => prepend ev (k a s')
  | (Exc e, ev, s') => (Exc e, ev, s')
  end.
Proof.
  unfold bind, prepend, outcome, trace, final.
  destruct (m s) as [[[a|e] ev] s']; [|reflexivity].
  destruct (k a s') as [[r ev'] s'']. reflexivity.
Qed.

Lemma try_except_eq {A} (body : M A) (handler : exn -> M A) s :
  try_except body handler s =
  match body s with
  | (Val a, ev, s') => (Val a, ev, s')
  | (Exc e, ev, s') => prepend ev (handler e s')
  end.
Proof.
  unfold try_except, prepend, outcome, trace, final.
  destruct (body s) as [[[a|e] ev] s']; [reflexivity|].
  destruct (handler e s') as [[r ev'] s'']. reflexivity.
Qed.

Lemma surjective_triple {A} (x : res A * list event * ostate) :
  x = (outcome x, trace x, final x).
Proof. destruct x as [[r ev] s]. reflexivity. Qed.

Lemma prepend_nil {A} (x : res A * list event * ostate) : prepend [] x = x.
Proof. destruct x as [[r ev] s]. reflexivity. Qed.

Lemma prepend_prepend {A} a b (x : res A * list event * ostate) :
  prepend a (prepend b x) = prepend (a ++ b) x.
Proof. unfold prepend. cbn. now rewrite app_assoc. Qed.

Lemma prepend_triple {A} a (r : res A) ev s :
  prepend a (r, ev, s) = (r, a ++ ev, s).
Proof. reflexivity. Qed.

Lemma bind_ret {A B} (a : A) (k : A -> M B) s : bind (ret a) k s = k a s.
Proof. rewrite bind_eq. apply prepend_nil. Qed.

Lemma bind_emit {B} e (k : unit -> M B) s :
  bind (emit e) k s = prepend [e] (k tt s).
Proof. now rewrite bind_eq. Qed.

Lemma bind_log {B} msg (k : unit -> M B) s :
  bind (log_callback msg) k s = prepend [Log msg] (k tt s).
Proof. apply bind_emit. Qed.

Lemma bind_progress {B} v (k : unit -> M B) s :
  bind (progress_callback v) k s = prepend [Progress v] (k tt s).
Proof. apply bind_emit. Qed.

Lemma bind_lift_val {A B} (a : A) (k : A -> M B) s :
  bind (lift (Val a)) k s = k a s.
Proof. rewrite bind_eq. apply prepend_nil. Qed.

Lemma bind_lift_exc {A B} e (k : A -> M B) s :
  bind (lift (Exc e)) k s = (Exc e, [], s).
Proof. now rewrite bind_eq. Qed.

Lemma log_then_progress msg v s :
  bind (log_callback msg) (fun _ => progress_callback v) s
  = (Val tt, [Log msg; Progress v], s).
Proof. reflexivity. Qed.

Lemma bind_assoc {A B C} (m : M A) (k : A -> M B) (h : B -> M C) s :
  bind (bind m k) h s = bind m (fun a => bind (k a) h) s.
Proof.
  rewrite !bind_eq. destruct (m s) as [[[a|e] ev] s']; [|reflexivity].
  rewrite bind_eq. destruct (k a s') as [[[b|e] ev'] s'']; cbn.
  - unfold prepend. cbn. now rewrite app_assoc.
  - reflexivity.
Qed.

End Monad.

(** ** Reading the routine *)

Section Reading.

Variable w : world.

Lemma run_is_shape root_dir output_file extensions_str s :
  run w root_dir output_file extensions_str s
  = run_shape w root_dir output_file extensions_str s.
Proof.
  unfold run, run_shape, collect_files_content_gui.
  destruct (negb (os_path_isdir (fs w) root_dir)); [reflexivity|].
  rewrite bind_eq, try_except_eq.
  unfold files_to_process.
  destruct (parse_extensions extensions_str) as [|ext exts] eqn:Hparse;
    [reflexivity|].
  unfold ret at 1. rewrite prepend_nil.
  unfold scan. rewrite bind_assoc, bind_emit, bind_ret.
  set (files := match lookup (fs w) root_dir with
                | Some top => _
                | None => []
                end).
  destruct files as [|f files'] eqn:Hfiles.
  - reflexivity.
  - rewrite <- Hfiles.
    replace (Z.of_nat (Datatypes.length files) =? 0)%Z with false
      by (rewrite Hfiles; reflexivity).
    rewrite try_except_eq, bind_eq.
    unfold with_open_w. rewrite bind_eq. unfold open_w at 1.
    destruct (open_fault w) as [msg|].
    + reflexivity.
    + set (body := process_files _ _ _ _ _ _).
      destruct body as [[rb evb] sb] eqn:Hbody. unfold outfile_close.
      cbn [outcome trace final fst snd].
      destruct (close_fault w) as [msg|], rb as [z|e];
        unfold prepend, write_error_line;
        cbn [outcome trace final fst snd app];
        rewrite ?log_then_progress;
        cbn [outcome trace final fst snd app];
        rewrite ?app_nil_r, <- ?app_assoc; reflexivity.
Qed.

End Reading.

(** ** The loop, step by step *)

Section Loop.

Variable w : world.

Local Open Scope coll_scope.

Lemma outfile_write_cases text s :
  (exists msg,
      write_fault w (nwrites s) = Some msg /\
      outfile_write w text s
      = (Exc (OSError msg), [],
         {| disk := disk s; nwrites := S (nwrites s) |}))
  \/ (write_fault w (nwrites s) = None /\
      outfile_write w text s
      = (Val tt, [Write text],
         {| disk := Some (match disk s with
                          | Some c => c ++ text
                          | None => text
                          end);
            nwrites := S (nwrites s) |})).
Proof.
  unfold outfile_write. destruct (write_fault w (nwrites s)) as [msg|].
  - left. exists msg. auto.
  - right. auto.
Qed.

Lemma process_files_cons root_dir n full_path rest p s :
  process_files w root_dir n (full_path :: rest) p s =
  let relative_path := replace_sep (os_path_relpath full_path root_dir) in
  match progress_value (p + 1) n with
  | Exc e => (Exc e, [], s)
  | Val v =>
      prepend [Progress v]
        match outfile_write w (header_of relative_path) s with
        | (Exc e, ev1, s1) => (Exc e, ev1, s1)
        | (Val _, ev1, s1) =>
            prepend (ev1 ++ [Log (lit "Processing: " ++ relative_path)])
              match copy_content w full_path relative_path s1 with
              | (Exc e, ev2, s2) => (Exc e, ev2, s2)
              | (Val _, ev2, s2) =>
                  prepend ev2
                    match outfile_write w [nl; nl] s2 with
                    | (Exc e, ev3, s3) => (Exc e, ev3, s3)
                    | (Val _, ev3, s3) =>
                        prepend ev3
                          (process_files w root_dir n rest (p + 1) s3)
                    end
              end
        end
  end.
Proof.
  cbn [process_files]. cbv zeta.
  destruct (progress_value (p + 1) n) as [v|e].
  - rewrite bind_lift_val, bind_progress. f_equal.
    rewrite bind_eq.
    destruct (outfile_write w _ s) as [[[[]|e] ev1] s1]; [|reflexivity].
    rewrite bind_log, prepend_prepend. f_equal.
    rewrite bind_eq.
    destruct (copy_content w _ _ s1) as [[[[]|e] ev2] s2]; [|reflexivity].
    f_equal. rewrite bind_eq.
    destruct (outfile_write w _ s2) as [[[[]|e] ev3] s3]; reflexivity.
  - now rewrite bind_lift_exc.
Qed.

(** *** Invariants of a computation

    A property [P s ev s'] of (initial state, events, final state) that
    holds of no event and composes holds of every computation put
    together from steps of which it holds. *)

Section Invariant.

Variable P : ostate -> list event -> ostate -> Prop.
Hypothesis P_nil : forall s, P s [] s.
Hypothesis P_app :
  forall s ev s' ev' s'', P s ev s' -> P s' ev' s'' -> P s (ev ++ ev') s''.

Lemma holds_ret {A} (a : A) : holds P (ret a).
Proof. intros s. apply P_nil. Qed.

Lemma holds_lift {A} (r : res A) : holds P (lift r).
Proof. intros s. apply P_nil. Qed.

Lemma holds_bind {A B} (m : M A) (k : A -> M B) :
  holds P m -> (forall a, holds P (k a)) -> holds P (bind m k).
Proof.
  intros Hm Hk s. rewrite bind_eq. specialize (Hm s).
  destruct (m s) as [[[a|e] ev] s']; [|exact Hm].
  cbn in *. eapply P_app; [exact Hm|apply Hk].
Qed.

Lemma holds_try_except {A} (body : M A) handler :
  holds P body -> (forall e, holds P (handler e)) -> holds P (try_except body handler).
Proof.
  intros Hm Hk s. rewrite try_except_eq. specialize (Hm s).
  destruct (body s) as [[[a|e] ev] s']; [exact Hm|].
  cbn in *. eapply P_app; [exact Hm|apply Hk].
Qed.

Hypothesis P_log : forall msg s, P s [Log msg] s.
Hypothesis P_progress : forall v s, P s [Progress v] s.
Hypothesis P_write :
  forall text s,
    P s [Write text]
      {| disk := Some (match disk s with
                       | Some c => c ++ text
                       | None => text
                       end);
         nwrites := S (nwrites s) |}.
Hypothesis P_write_fault :
  forall s, P s [] {| disk := disk s; nwrites := S (nwrites s) |}.

Lemma holds_log msg : holds P (log_callback msg).
Proof. intros s. apply P_log. Qed.

Lemma holds_progress v : holds P (progress_callback v).
Proof. intros s. apply P_progress. Qed.

Lemma holds_write text : holds P (outfile_write w text).
Proof.
  intros s.
  destruct (outfile_write_cases text s) as [(msg & _ & ->)|[_ ->]]; cbn; auto.
Qed.

Lemma holds_copy_content full_path relative_path :
  holds P (copy_content w full_path relative_path).
Proof.
  unfold copy_content, read_text.
  apply holds_try_except.
  - apply holds_bind; [apply holds_lift|intros; apply holds_write].
  - intros [| | | |];
      try (apply holds_bind; [apply holds_write|intros; apply holds_log]).
    apply holds_try_except.
    + apply holds_bind; [apply holds_lift|intros].
      apply holds_bind; [apply holds_write|intros].
      apply holds_bind; [apply holds_write|intros]. apply holds_log.
    + intros e. apply holds_bind; [apply holds_write|intros; apply holds_log].
Qed.

Lemma holds_process_files root_dir n files :
  forall p, holds P (process_files w root_dir n files p).
Proof.
  induction files as [|f rest IH]; intros p; cbn [process_files].
  - apply holds_ret.
  - apply holds_bind; [apply holds_lift|intros v].
    apply holds_bind; [apply holds_progress|intros].
    apply holds_bind; [apply holds_write|intros].
    apply holds_bind; [apply holds_log|intros].
    apply holds_bind; [apply holds_copy_content|intros].
    apply holds_bind; [apply holds_write|intros]. apply IH.
Qed.

End Invariant.

(** *** Where exceptions come from

    Only a failing [outfile.write] makes a computation of the loop
    raise. *)

Lemma faults_ret {A} (a : A) : raises_only_write_faults w (ret a).
Proof. intros s e H. discriminate. Qed.

Lemma faults_emit ev : raises_only_write_faults w (emit ev).
Proof. intros s e H. discriminate. Qed.

Lemma faults_bind {A B} (m : M A) (k : A -> M B) :
  raises_only_write_faults w m -> (forall a, raises_only_write_faults w (k a)) -> raises_only_write_faults w (bind m k).
Proof.
  intros Hm Hk s e. rewrite bind_eq. specialize (Hm s).
  destruct (m s) as [[[a|e'] ev] s']; cbn.
  - apply Hk.
  - intros [= <-]. apply Hm. reflexivity.
Qed.

Lemma faults_try_except {A} (body : M A) handler :
  (forall e, raises_only_write_faults w (handler e)) -> raises_only_write_faults w (try_except body handler).
Proof.
  intros Hk s e. rewrite try_except_eq.
  destruct (body s) as [[[a|e'] ev] s']; cbn; [discriminate|apply Hk].
Qed.

Lemma faults_write text : raises_only_write_faults w (outfile_write w text).
Proof.
  intros s e.
  destruct (outfile_write_cases text s) as [(msg & Hf & ->)|[_ ->]]; cbn.
  - intros [= <-]. exists msg, (nwrites s). auto.
  - discriminate.
Qed.

Lemma faults_copy_content full_path relative_path :
  raises_only_write_faults w (copy_content w full_path relative_path).
Proof.
  unfold copy_content. apply faults_try_except.
  intros [| | | |];
    try (apply faults_bind; [apply faults_write|intros; apply faults_emit]).
  apply faults_try_except. intros e.
  apply faults_bind; [apply faults_write|intros; apply faults_emit].
Qed.

Lemma progress_value_of n i :
  (1 <= i <= n)%Z -> progress_value i n = Val (progress_of n i).
Proof.
  intros H. unfold progress_of.
  destruct (progress_value_total i n H) as [v ->]. reflexivity.
Qed.

Lemma faults_process_files root_dir n files :
  forall p, (0 <= p)%Z -> (p + Z.of_nat (List.length files) <= n)%Z ->
            raises_only_write_faults w (process_files w root_dir n files p).
Proof.
  induction files as [|f rest IH]; intros p Hp Hn; cbn [process_files].
  - apply faults_ret.
  - cbn [List.length] in Hn.
    rewrite progress_value_of by lia.
    intros s. rewrite bind_lift_val. revert s.
    apply faults_bind; [apply faults_emit|intros].
    apply faults_bind; [apply faults_write|intros].
    apply faults_bind; [apply faults_emit|intros].
    apply faults_bind; [apply faults_copy_content|intros].
    apply faults_bind; [apply faults_write|intros].
    apply IH; lia.
Qed.

(** The output file holds what the trace wrote. *)
Lemma disk_after_app d ev ev' :
  disk_after d (ev ++ ev') = disk_after (disk_after d ev) ev'.
Proof.
  revert d. induction ev as [|[] ev IH]; intros d; cbn; auto.
Qed.

Lemma process_files_disk root_dir n files p s :
  disk (final (process_files w root_dir n files p s))
  = disk_after (disk s) (trace (process_files w root_dir n files p s)).
Proof.
  refine (holds_process_files
            (fun s ev s' => disk s' = disk_after (disk s) ev)
            _ _ _ _ _ _ root_dir n files p s); try reflexivity.
  intros ? ? ? ? ? H1 H2. rewrite disk_after_app. congruence.
Qed.

Lemma process_files_events root_dir n files p s :
  Forall loop_event (trace (process_files w root_dir n files p s)).
Proof.
  refine (holds_process_files (fun _ ev _ => Forall loop_event ev)
            _ _ _ _ _ _ root_dir n files p s);
    try (intros; solve [repeat constructor]).
  intros ? ? ? ? ? H1 H2. apply Forall_app. auto.
Qed.

Lemma copy_content_events full_path relative_path s :
  Forall (fun e => is_progress e = false)
         (trace (copy_content w full_path relative_path s)).
Proof.
  refine (holds_copy_content
            (fun _ ev _ => Forall (fun e => is_progress e = false) ev)
            _ _ _ _ _ full_path relative_path s);
    try (intros; solve [repeat constructor]).
  intros ? ? ? ? ? H1 H2. apply Forall_app. auto.
Qed.

Lemma progress_events_app a b :
  progress_events (a ++ b) = progress_events a ++ progress_events b.
Proof.
  induction a as [|[] a IH]; cbn; auto. now rewrite IH.
Qed.

Lemma progress_events_none ev :
  Forall (fun e => is_progress e = false) ev -> progress_events ev = [].
Proof.
  induction 1 as [|[] ev H _ IH]; cbn in *; auto. discriminate.
Qed.

Lemma zrange_S p k : zrange p (S k) = (p + 1)%Z :: zrange (p + 1) k.
Proof.
  unfold zrange. cbn [seq map]. f_equal.
  rewrite <- seq_shift, map_map. apply map_ext. intros j. lia.
Qed.

Lemma zrange_bounds p k i : In i (zrange p k) -> (p < i <= p + Z.of_nat k)%Z.
Proof.
  unfold zrange. rewrite in_map_iff. intros (j & <- & Hj).
  apply in_seq in Hj. lia.
Qed.

(** In every world the loop emits the per-file progress values in
    order, up to where it stops; all of them if it returns. *)
Lemma process_files_progress root_dir n files :
  forall p s,
    (0 <= p)%Z -> (p + Z.of_nat (List.length files) <= n)%Z ->
    exists k,
      (k <= List.length files)%nat /\
      progress_events (trace (process_files w root_dir n files p s))
      = map (progress_of n) (zrange p k) /\
      (forall z, outcome (process_files w root_dir n files p s) = Val z ->
                 k = List.length files).
Proof.
  induction files as [|f rest IH]; intros p s Hp Hn.
  - exists 0%nat. cbn. auto.
  - cbn [List.length] in Hn. rewrite process_files_cons. cbv zeta.
    rewrite progress_value_of by lia.
    set (rel := replace_sep (os_path_relpath f root_dir)).
    assert (Hone : [progress_of n (p + 1)]
                   = map (progress_of n) (zrange p 1)).
    { now rewrite zrange_S. }
    destruct (outfile_write_cases (header_of rel) s)
      as [(msg & _ & ->)|[_ ->]].
    { exists 1%nat. cbn. split; [lia|]. split; [exact Hone|discriminate]. }
    pose proof (copy_content_events f rel
      {| disk := Some match disk s with
                      | Some c => c ++ header_of rel
                      | None => header_of rel
                      end;
         nwrites := S (nwrites s) |}) as Hcc.
    apply progress_events_none in Hcc.
    destruct (copy_content w f rel _) as [[[[]|e] ev2] s2]; cbn in Hcc.
    2:{ exists 1%nat. cbn. split; [lia|].
        rewrite Hcc. split; [exact Hone|discriminate]. }
    destruct (outfile_write_cases [nl; nl] s2) as [(msg & _ & ->)|[_ ->]].
    { exists 1%nat. cbn. split; [lia|].
      rewrite progress_events_app, Hcc.
      split; [exact Hone|discriminate]. }
    destruct (IH (p + 1)%Z
                {| disk := Some match disk s2 with
                                | Some c => c ++ [nl; nl]
                                | None => [nl; nl]
                                end;
                   nwrites := S (nwrites s2) |}
                ltac:(lia) ltac:(lia)) as (k & Hk & Hev & Hval).
    exists (S k). split; [cbn; lia|].
    unfold prepend. cbn [outcome trace final fst snd app progress_events].
    rewrite progress_events_app, Hcc. cbn [app progress_events].
    rewrite Hev, zrange_S. split; [reflexivity|].
    intros z Hz. cbn. f_equal. eauto.
Qed.

(** When no write fails, the loop returns and its trace is the
    concatenation of the per-file events. *)
Lemma copy_content_no_fault full_path relative_path s :
  (forall k, write_fault w k = None) ->
  outcome (copy_content w full_path relative_path s) = Val tt /\
  trace (copy_content w full_path relative_path s)
  = content_events w full_path relative_path.
Proof.
  intros Hw.
  assert (Hwr : forall t s0,
             outfile_write w t s0
             = (Val tt, [Write t],
                {| disk := Some match disk s0 with
                                | Some c => c ++ t
                                | None => t
                                end;
                   nwrites := S (nwrites s0) |})).
  { intros. unfold outfile_write. now rewrite Hw. }
  unfold copy_content, content_events, read_text.
  rewrite try_except_eq, bind_eq. unfold lift at 1.
  destruct (lookup (fs w) full_path) as [[[bytes|msg]|entries]|];
    cbn [decode]; [destruct (decode_utf8_sig bytes) as [text|]|..];
    repeat (rewrite ?try_except_eq, ?bind_eq, ?Hwr;
            cbv [prepend lift log_callback emit];
            cbn [outcome trace final fst snd app decode]);
    split; reflexivity.
Qed.

Lemma process_files_no_fault root_dir n files :
  (forall k, write_fault w k = None) ->
  forall p s,
    (0 <= p)%Z -> (p + Z.of_nat (List.length files) <= n)%Z ->
    outcome (process_files w root_dir n files p s)
    = Val (p + Z.of_nat (List.length files))%Z /\
    trace (process_files w root_dir n files p s)
    = loop_events w root_dir n files p.
Proof.
  intros Hw. induction files as [|f rest IH]; intros p s Hp Hn.
  - cbn. split; [f_equal; lia|reflexivity].
  - cbn [List.length] in Hn. rewrite process_files_cons. cbv zeta.
    rewrite progress_value_of by lia.
    set (rel := replace_sep (os_path_relpath f root_dir)).
    destruct (outfile_write_cases (header_of rel) s)
      as [(msg & Hf & _)|[_ ->]]; [rewrite Hw in Hf; discriminate|].
    match goal with
    | |- context [copy_content w f rel ?s1] =>
        destruct (copy_content_no_fault f rel s1 Hw) as [Ho Ht];
        destruct (copy_content w f rel s1) as [[r2 ev2] s2]
    end.
    cbn in Ho, Ht. subst r2 ev2.
    destruct (outfile_write_cases [nl; nl] s2)
      as [(msg & Hf & _)|[_ ->]]; [rewrite Hw in Hf; discriminate|].
    assert (Hp1 : (0 <= p + 1)%Z) by lia.
    assert (Hn1 : (p + 1 + Z.of_nat (List.length rest) <= n)%Z) by lia.
    match goal with
    | |- context [process_files w root_dir n rest (p + 1) ?s3] =>
        destruct (IH (p + 1)%Z s3 Hp1 Hn1) as [Ho Ht]
    end.
    unfold prepend. cbn [outcome trace final fst snd].
    rewrite Ho, Ht. split; [f_equal; cbn [List.length]; lia|].
    cbn [loop_events]. unfold file_events. fold rel.
    cbn [app]. rewrite <- !app_assoc. reflexivity.
Qed.

End Loop.

(** ** Traces *)

Section Traces.

Variable w : world.

Lemma loop_events_app root_dir n a b :
  forall p,
    loop_events w root_dir n (a ++ b) p
    = loop_events w root_dir n a p
      ++ loop_events w root_dir n b (p + Z.of_nat (List.length a)).
Proof.
  induction a as [|f a IH]; intros p; cbn [app loop_events List.length].
  - now rewrite Z.add_0_r.
  - rewrite IH, <- app_assoc. do 3 f_equal. lia.
Qed.

Lemma written_app a b : written (a ++ b) = written a ++ written b.
Proof.
  induction a as [|[] a IH]; cbn; auto. now rewrite IH, app_assoc.
Qed.

(** Without an [Open] in between, the writes of a trace are appended to
    the file. *)
Lemma disk_after_written ev :
  Forall (fun e => is_open e = false) ev ->
  forall c, disk_after (Some c) ev = Some (c ++ written ev).
Proof.
  induction 1 as [|e ev He _ IH]; intros c; cbn.
  - now rewrite app_nil_r.
  - destruct e; cbn in He; try discriminate; rewrite IH; auto.
    now rewrite app_assoc.
Qed.

Lemma loop_event_not_open ev :
  Forall loop_event ev -> Forall (fun e => is_open e = false) ev.
Proof.
  intros H. eapply Forall_impl; [|exact H]. now intros [].
Qed.



End Traces.

(** ** The per-file progress values *)

Section PerFile.

Lemma progress_of_range n i :
  (1 <= i <= n)%Z -> (0 <= progress_of n i <= 100)%Z.
Proof.
  intros H. apply (progress_value_range i n); [assumption|].
  now apply progress_value_of.
Qed.

Lemma progress_of_mono n i j :
  (1 <= i)%Z -> (i <= j)%Z -> (j <= n)%Z ->
  (progress_of n i <= progress_of n j)%Z.
Proof.
  intros Hi Hij Hjn.
  apply (progress_value_mono i j n); try assumption;
    apply progress_value_of; lia.
Qed.

Lemma progress_of_last n : (1 <= n)%Z -> progress_of n n = 100%Z.
Proof.
  intros H. unfold progress_of. now rewrite progress_value_last.
Qed.

Lemma per_file_progress_zrange n :
  per_file_progress n = map (progress_of (Z.of_nat n)) (zrange 0 n).
Proof.
  unfold per_file_progress, zrange. rewrite map_map. reflexivity.
Qed.

Lemma zrange_length p k : List.length (zrange p k) = k.
Proof. unfold zrange. now rewrite length_map, length_seq. Qed.

Lemma progress_zrange_range n p k :
  (0 <= p)%Z -> (p + Z.of_nat k <= n)%Z ->
  Forall (fun v => (0 <= v <= 100)%Z) (map (progress_of n) (zrange p k)).
Proof.
  intros Hp Hk. apply Forall_forall. intros v Hv.
  apply in_map_iff in Hv. destruct Hv as (i & <- & Hi).
  apply zrange_bounds in Hi. apply progress_of_range. lia.
Qed.

Lemma progress_zrange_sorted n k :
  forall p, (0 <= p)%Z -> (p + Z.of_nat k <= n)%Z ->
            StronglySorted Z.le (map (progress_of n) (zrange p k)).
Proof.
  induction k as [|k IH]; intros p Hp Hk.
  - constructor.
  - rewrite zrange_S. cbn [map]. constructor.
    + apply IH; lia.
    + apply Forall_forall. intros v Hv.
      apply in_map_iff in Hv. destruct Hv as (i & <- & Hi).
      apply zrange_bounds in Hi. apply progress_of_mono; lia.
Qed.

Lemma sorted_snoc l x :
  StronglySorted Z.le l -> Forall (fun v => (v <= x)%Z) l ->
  StronglySorted Z.le (l ++ [x]).
Proof.
  induction 1 as [|y l Hs IH Hy]; intros Hx; cbn.
  - repeat constructor.
  - inversion Hx; subst. constructor; [auto|].
    apply Forall_app. split; [assumption|]. repeat constructor. assumption.
Qed.

Lemma per_file_progress_last n :
  (0 < n)%nat -> last (per_file_progress n) sentinel = 100%Z.
Proof.
  intros Hn. destruct n as [|m]; [lia|].
  unfold per_file_progress. rewrite seq_S, map_app. cbn [map].
  rewrite last_last. apply progress_of_last. lia.
Qed.

(** A value that occurs only at the end of a list has nothing after it. *)
Lemma only_last (l : list Z) x a b :
  ~ In x l -> l ++ [x] = a ++ x :: b -> b = [].
Proof.
  revert a. induction l as [|y l IH]; intros a Hx E.
  - destruct a as [|z a]; cbn in E.
    + now injection E.
    + injection E as _ E. now destruct a.
  - destruct a as [|z a]; cbn in E.
    + injection E as -> _. exfalso. apply Hx. now left.
    + injection E as _ E. apply (IH a); [|assumption].
      intros H. apply Hx. now right.
Qed.

End PerFile.

(** ** Whole runs *)

Section Runs.

Variable w : world.
Variables (root_dir : path) (output_file extensions_str : str) (s : ostate).

Local Abbreviation files := (files_to_process w root_dir extensions_str).
Local Abbreviation n := (Z.of_nat (List.length files)).
Local Abbreviation the_run := (run w root_dir output_file extensions_str s).
Local Abbreviation body :=
  (process_files w root_dir n files 0
                 {| disk := Some []; nwrites := nwrites s |}).

Lemma run_outcome : outcome the_run = Val tt.
Proof.
  rewrite run_is_shape. unfold run_shape.
  destruct (negb (os_path_isdir (fs w) root_dir)); [reflexivity|].
  destruct (parse_extensions extensions_str); [reflexivity|].
  destruct files; [reflexivity|].
  destruct (open_fault w); [reflexivity|].
  match goal with
  | |- context [outcome (process_files ?a ?b ?c ?d ?e ?f)] =>
      destruct (outcome (process_files a b c d e f))
  end; destruct (close_fault w); reflexivity.
Qed.

(** The progress values of a run: per-file values in order, as far as
    the loop got, then one last value, 100 or the sentinel. *)
Lemma run_progress :
  exists k fin,
    progress_events (trace the_run)
    = map (progress_of n) (zrange 0 k) ++ [fin] /\
    (k <= List.length files)%nat /\
    ((fin = 100%Z /\ k = List.length files) \/ fin = sentinel).
Proof.
  rewrite run_is_shape. unfold run_shape.
  destruct (negb (os_path_isdir (fs w) root_dir)).
  { exists 0%nat, sentinel. cbn. split; [reflexivity|]. split; [lia|auto]. }
  destruct (parse_extensions extensions_str).
  { exists 0%nat, sentinel. cbn. split; [reflexivity|]. split; [lia|auto]. }
  destruct (process_files_progress w root_dir n files 0
              {| disk := Some []; nwrites := nwrites s |}
              ltac:(lia) ltac:(lia)) as (k & Hk & Hev & Hval).
  remember files as fl eqn:Hfl.
  destruct fl as [|f fs'].
  { exists 0%nat, 100%Z. cbn. auto. }
  destruct (open_fault w).
  { exists 0%nat, sentinel. cbn. split; [reflexivity|]. split; [lia|auto]. }
  match goal with
  | |- context [outcome (process_files ?a ?b ?c ?d ?e ?f)] =>
      destruct (outcome (process_files a b c d e f)) as [z|e0] eqn:Hout
  end; destruct (close_fault w);
    cbn [trace fst snd progress_events];
    rewrite progress_events_app, Hev; cbn [progress_events].
  - exists k, sentinel. auto.
  - exists k, 100%Z. split; [reflexivity|]. split; [assumption|].
    left. split; [reflexivity|]. eapply Hval. reflexivity.
  - exists k, sentinel. auto.
  - exists k, sentinel. auto.
Qed.

(** The output file holds what the trace wrote and nothing else. *)
Lemma run_disk :
  disk (final the_run) = disk_after (disk s) (trace the_run).
Proof.
  rewrite run_is_shape. unfold run_shape.
  destruct (negb (os_path_isdir (fs w) root_dir)); [reflexivity|].
  destruct (parse_extensions extensions_str); [reflexivity|].
  pose proof (process_files_disk w root_dir n files 0
                {| disk := Some []; nwrites := nwrites s |}) as Hd.
  cbn [disk] in Hd.
  remember files as fl eqn:Hfl.
  destruct fl as [|f fs']; [reflexivity|].
  destruct (open_fault w); [reflexivity|].
  match goal with
  | |- context [outcome (process_files ?a ?b ?c ?d ?e ?f)] =>
      destruct (outcome (process_files a b c d e f))
  end; destruct (close_fault w);
    cbn [trace final fst snd disk_after];
    rewrite disk_after_app, <- Hd; reflexivity.
Qed.

(** A run whose output file never fails, over a non-empty list of
    files: the scan, the open, the per-file events, the close, the
    success line and the final 100. *)
Lemma run_no_fault :
  no_output_fault w ->
  os_path_isdir (fs w) root_dir = true ->
  parse_extensions extensions_str <> [] ->
  files <> [] ->
  outcome the_run = Val tt /\
  trace the_run
  = Walk root_dir :: Open output_file
    :: loop_events w root_dir n files 0
    ++ [Close; Log (success_line n output_file); Progress 100].
Proof.
  intros (Hopen & Hwrite & Hclose) Hdir Hparse Hfiles.
  rewrite run_is_shape. unfold run_shape.
  rewrite Hdir, Hopen, Hclose. cbn [negb].
  destruct (parse_extensions extensions_str); [contradiction|].
  destruct (process_files_no_fault w root_dir n files Hwrite 0
              {| disk := Some []; nwrites := nwrites s |}
              ltac:(lia) ltac:(lia)) as [Hout Htrace].
  remember files as fl eqn:Hfl.
  destruct fl as [|f fs']; [contradiction|].
  rewrite Hout, Htrace. split; reflexivity.
Qed.

End Runs.

(** ** The extension filter *)

Section Filter.

Lemma split_pipe_free t : pipe_free t -> split pipe t = [t].
Proof.
  unfold pipe_free. induction t as [|c t IH]; intros H; [reflexivity|].
  cbn [split]. destruct (char_eqb c pipe) eqn:E.
  - exfalso. apply H. left. now apply N.eqb_eq.
  - rewrite IH; [reflexivity|]. intros Hin. apply H. now right.
Qed.

Lemma split_app_pipe t rest :
  pipe_free t -> split pipe (t ++ pipe :: rest) = t :: split pipe rest.
Proof.
  unfold pipe_free. induction t as [|c t IH]; intros H.
  - cbn. reflexivity.
  - cbn [app split]. destruct (char_eqb c pipe) eqn:E.
    + exfalso. apply H. left. now apply N.eqb_eq.
    + rewrite IH; [reflexivity|]. intros Hin. apply H. now right.
Qed.

Lemma split_join toks :
  toks <> [] -> Forall pipe_free toks -> split pipe (join [pipe] toks) = toks.
Proof.
  induction toks as [|t toks IH]; intros Hne Hpf; [contradiction|].
  inversion Hpf as [|? ? Ht Hts]; subst.
  destruct toks as [|t' toks].
  - cbn. now apply split_pipe_free.
  - change (join [pipe] (t :: t' :: toks))
      with (t ++ pipe :: join [pipe] (t' :: toks)).
    rewrite split_app_pipe by assumption. f_equal.
    apply IH; [discriminate|assumption].
Qed.

Lemma lstrip_blank s : blank s -> lstrip s = [].
Proof.
  induction 1 as [|c s Hc _ IH]; [reflexivity|]. cbn. now rewrite Hc.
Qed.

Lemma lstrip_blank_app l t : blank l -> lstrip (l ++ t) = lstrip t.
Proof.
  induction 1 as [|c l Hc _ IH]; [reflexivity|]. cbn. now rewrite Hc.
Qed.

Lemma lstrip_app a b :
  lstrip (a ++ b) = match lstrip a with
                    | [] => lstrip b
                    | _ => lstrip a ++ b
                    end.
Proof.
  induction a as [|c a IH]; [cbn; now destruct (lstrip b)|].
  cbn [app lstrip]. destruct (isspace c); [exact IH|reflexivity].
Qed.

Lemma blank_rev s : blank s -> blank (rev s).
Proof. unfold blank. apply Forall_rev. Qed.

Lemma rstrip_app_blank t r : blank r -> rstrip (t ++ r) = rstrip t.
Proof.
  intros Hr. unfold rstrip. rewrite rev_app_distr.
  now rewrite lstrip_blank_app by now apply blank_rev.
Qed.

(** White space around a token does not survive [strip]. *)
Lemma strip_padding l t r :
  blank l -> blank r -> strip (l ++ t ++ r) = strip t.
Proof.
  intros Hl Hr. unfold strip.
  rewrite lstrip_blank_app by assumption. rewrite lstrip_app.
  destruct (lstrip t) as [|c u] eqn:Et.
  - now rewrite lstrip_blank.
  - now apply rstrip_app_blank.
Qed.

Lemma blank_pipe_free s : blank s -> pipe_free s.
Proof.
  intros Hb Hin. unfold blank in Hb. rewrite Forall_forall in Hb.
  apply Hb in Hin. discriminate.
Qed.

Lemma pipe_free_app a b : pipe_free a -> pipe_free b -> pipe_free (a ++ b).
Proof.
  unfold pipe_free. intros Ha Hb Hin. apply in_app_or in Hin. tauto.
Qed.

Lemma filter_map_commute {A B} (f : A -> B) (p : B -> bool) l :
  filter p (map f l) = map f (filter (fun x => p (f x)) l).
Proof.
  induction l as [|x l IH]; [reflexivity|].
  cbn. destruct (p (f x)); cbn; now rewrite IH.
Qed.

(** Lines 30 and 35 in the spec's words: split on ['|'], trim each
    token, drop the empty ones, put a dot in front where there is none. *)
Lemma parse_filter_eq s :
  parse_filter s
  = map with_dot
        (filter (fun t => negb (str_eqb t [])) (map strip (split pipe s))).
Proof.
  unfold parse_filter, parse_extensions, target_extensions_of.
  now rewrite filter_map_commute.
Qed.

Lemma with_dot_starts t : startswith (with_dot t) [dot] = true.
Proof.
  unfold with_dot. destruct (startswith t [dot]) eqn:E; cbn; [exact E|].
  now destruct t.
Qed.

Lemma with_dot_dotted t : with_dot (dot :: t) = dot :: t.
Proof. unfold with_dot. now destruct t. Qed.

Lemma parse_filter_join toks :
  Forall pipe_free toks ->
  parse_filter (join [pipe] toks)
  = map with_dot (filter (fun t => negb (str_eqb t [])) (map strip toks)).
Proof.
  intros Hpf. rewrite parse_filter_eq.
  destruct toks as [|t toks]; [reflexivity|].
  now rewrite split_join.
Qed.

Lemma bare_ext_strip t : bare_ext t -> strip t = t.
Proof.
  intros (_ & Hl & Hr & _). unfold strip. now rewrite Hl.
Qed.

Lemma bare_ext_dot_strip t : bare_ext t -> strip (dot :: t) = dot :: t.
Proof.
  intros (Hne & Hl & Hr & _). unfold strip.
  change (lstrip (dot :: t)) with (dot :: t).
  unfold rstrip in *. cbn [rev].
  assert (Hrev : lstrip (rev t) = rev t).
  { rewrite <- (rev_involutive (lstrip (rev t))), Hr. reflexivity. }
  rewrite lstrip_app, Hrev.
  destruct (rev t) as [|c u] eqn:Et.
  - exfalso. apply Hne. rewrite <- (rev_involutive t), Et. reflexivity.
  - rewrite <- Et, rev_app_distr, rev_involutive. reflexivity.
Qed.

Lemma str_eqb_nil_false t : t <> [] -> str_eqb t [] = false.
Proof. destruct t; [contradiction|reflexivity]. Qed.

Lemma parse_filter_bare toks :
  Forall bare_ext toks ->
  parse_filter (join [pipe] toks) = map (cons dot) toks /\
  parse_filter (join [pipe] (map (cons dot) toks)) = map (cons dot) toks.
Proof.
  intros Hb. split.
  - rewrite parse_filter_join.
    2:{ eapply Forall_impl; [|exact Hb]. now intros t (_ & _ & _ & H & _). }
    induction Hb as [|t toks Ht _ IH]; [reflexivity|].
    cbn [map filter]. rewrite (bare_ext_strip t Ht).
    destruct Ht as (Hne & _ & _ & _ & Hd).
    rewrite (str_eqb_nil_false t Hne). cbn [negb map].
    unfold with_dot at 1. rewrite Hd. cbn [negb]. now rewrite IH.
  - rewrite parse_filter_join.
    2:{ apply Forall_map. eapply Forall_impl; [|exact Hb].
        intros t (_ & _ & _ & H & _) [E|Hin]; [discriminate|now apply H]. }
    induction Hb as [|t toks Ht _ IH]; [reflexivity|].
    cbn [map filter]. rewrite (bare_ext_dot_strip t Ht).
    cbn [str_eqb negb map]. now rewrite with_dot_dotted, IH.
Qed.

Lemma parse_filter_padding toks :
  Forall padding_ok toks ->
  parse_filter (join [pipe] (map with_padding toks))
  = parse_filter (join [pipe] (map without_padding toks)).
Proof.
  intros Hp. rewrite !parse_filter_join.
  - do 2 f_equal. rewrite !map_map. apply map_ext_in.
    intros [[l t] r] Hin. rewrite Forall_forall in Hp.
    destruct (Hp _ Hin) as (Hl & Hr & _). now apply strip_padding.
  - apply Forall_map. eapply Forall_impl; [|exact Hp].
    now intros [[l t] r] (_ & _ & H).
  - apply Forall_map. eapply Forall_impl; [|exact Hp].
    intros [[l t] r] (Hl & Hr & H). cbn.
    auto using pipe_free_app, blank_pipe_free.
Qed.

End Filter.

(** * Part III: the claims *)

(** ** The model on small inputs *)

Example decode_utf8_examples :
  decode Utf8Sig [xc3; xa9]%byte = Some [233%N] /\
  decode Utf8Sig [xef; xbb; xbf; x68; x69]%byte = Some (lit "hi") /\
  decode Utf8Sig [xe2; x82; xac]%byte = Some [8364%N] /\
  decode Utf8Sig [xf0; x9f; x98; x80]%byte = Some [128512%N] /\
  decode Utf8Sig [xc0; x80]%byte = None /\
  decode Utf8Sig [xed; xa0; x80]%byte = None /\
  decode Utf8Sig [xe9]%byte = None /\
  decode Latin1 [xe9]%byte = Some [233%N].
Proof. repeat split; reflexivity. Qed.

(** A file that is only the beginning of a byte-order mark is read as
    the empty text; the same bytes before something else are an error. *)
Example utf8_sig_truncated_bom :
  decode Utf8Sig []%byte = Some [] /\
  decode Utf8Sig [xef]%byte = Some [] /\
  decode Utf8Sig [xef; xbb]%byte = Some [] /\
  decode Utf8Sig [xef; xbb; xbf]%byte = Some [] /\
  decode Utf8Sig [xef; x41]%byte = None /\
  decode Utf8Sig [xef; xbb; x41]%byte = None.
Proof. repeat split; reflexivity. Qed.

Example universal_newlines_example :
  universal_newlines [97; 13; 10; 98; 13; 99; 10]%N = [97; 10; 98; 10; 99; 10]%N.
Proof. reflexivity. Qed.

Example relpath_examples :
  os_path_relpath [lit "R"; lit "sub"; lit "a.txt"] [lit "R"]
  = lit "sub/a.txt" /\
  os_path_relpath [lit "a"; lit "b"; lit "c"] [lit "a"; lit "x"]
  = lit "../b/c" /\
  os_path_relpath [lit "R"] [lit "R"] = lit ".".
Proof. repeat split; reflexivity. Qed.

(** The pre-scan lists the files of a directory before those of its
    sub-directories, and only the names with a wanted suffix. *)
Example walk_example :
  walk_collect [lit ".txt"] [lit "R"]
    (Dir [(lit "sub", Dir [(lit "c.txt", text_file "c");
                           (lit "d.md", text_file "d")]);
          (lit "a.txt", text_file "a");
          (lit "TXT", text_file "upper");
          (lit ".txt", text_file "hidden")])
  = [[lit "R"; lit "a.txt"]; [lit "R"; lit ".txt"];
     [lit "R"; lit "sub"; lit "c.txt"]].
Proof. reflexivity. Qed.

Example strip_split_examples :
  split pipe (lit "cs||txt|") = [lit "cs"; []; lit "txt"; []] /\
  strip (lit "  cs  ") = lit "cs" /\
  parse_extensions (lit " cs | .txt||  |x y ")
  = [lit "cs"; lit ".txt"; lit "x y"] /\
  parse_extensions (lit " | ") = [].
Proof. repeat split; reflexivity. Qed.

Section Paths.

Lemma str_eqb_refl a : str_eqb a a = true.
Proof.
  induction a as [|c a IH]; [reflexivity|].
  cbn. unfold char_eqb. now rewrite N.eqb_refl, IH.
Qed.

Lemma commonprefix_len_app root rest :
  commonprefix_len root (root ++ rest) = List.length root.
Proof.
  induction root as [|c root IH]; cbn.
  - now destruct rest.
  - now rewrite str_eqb_refl, IH.
Qed.

(** The relative path of a file directly inside the root is its name. *)
Lemma relpath_child root name :
  os_path_relpath (os_path_join root name) root = name.
Proof.
  unfold os_path_relpath, os_path_join.
  rewrite commonprefix_len_app, Nat.sub_diag. cbn [repeat app].
  rewrite skipn_app, skipn_all, Nat.sub_diag. reflexivity.
Qed.

Lemma lookup_app tree p q :
  lookup tree (p ++ q)
  = match lookup tree p with
    | Some x => lookup x q
    | None => None
    end.
Proof.
  revert tree. induction p as [|name p IH]; intros tree; [reflexivity|].
  cbn [app lookup]. destruct tree as [d|entries]; [reflexivity|].
  induction entries as [|[n0 x] es IHes]; [reflexivity|].
  destruct (str_eqb n0 name); [apply IH|apply IHes].
Qed.

End Paths.

(** ** C1: the output of a single ASCII file *)

Lemma progress_of_1_1 : progress_of 1 1 = 100%Z.
Proof. vm_compute. reflexivity. Qed.

(** C1. When the root directory holds exactly one regular file [a.txt]
    with the five bytes of ["hello"], the extension string is ["txt"]
    and the output file (outside the root) does not fail, the run
    returns normally, the output file holds exactly the header line
    [a.txt-------------], the content and two newlines, and the progress
    values are 100 for the file and 100 at the end. *)
Theorem collect_single_ascii_file (w : world) (root_dir : path)
    (output_file : str) (s : ostate) :
  no_output_fault w ->
  lookup (fs w) root_dir = Some (Dir [(lit "a.txt", text_file "hello")]) ->
  let r := run w root_dir output_file (lit "txt") s in
  outcome r = Val tt /\
  disk (final r)
  = Some (lit "a.txt-------------" ++ [nl] ++ lit "hello" ++ [nl; nl]) /\
  progress_events (trace r) = [100; 100]%Z /\
  last (progress_events (trace r)) sentinel = 100%Z.
Proof.
  intros (Hopen & Hwrite & Hclose) Hroot r.
  assert (Hfiles : files_to_process w root_dir (lit "txt")
                   = [os_path_join root_dir (lit "a.txt")]).
  { unfold files_to_process. rewrite Hroot. reflexivity. }
  assert (Hcontent :
            content_events w (os_path_join root_dir (lit "a.txt")) (lit "a.txt")
            = [Write (lit "hello")]).
  { unfold content_events, os_path_join.
    rewrite lookup_app, Hroot. reflexivity. }
  destruct (process_files_no_fault w root_dir 1
              [os_path_join root_dir (lit "a.txt")] Hwrite 0
              {| disk := Some []; nwrites := nwrites s |}
              ltac:(lia) ltac:(cbn; lia)) as [Hout Htrace].
  pose proof (process_files_disk w root_dir 1
                [os_path_join root_dir (lit "a.txt")] 0
                {| disk := Some []; nwrites := nwrites s |}) as Hdisk.
  cbn [loop_events] in Htrace. unfold file_events, replace_sep in Htrace.
  rewrite relpath_child, Hcontent in Htrace.
  change (0 + 1)%Z with 1%Z in Htrace. rewrite progress_of_1_1 in Htrace.
  rewrite Htrace in Hdisk.
  subst r. rewrite run_is_shape. unfold run_shape, os_path_isdir.
  rewrite Hroot, Hfiles, Hopen, Hclose.
  change (parse_extensions (lit "txt")) with [lit "txt"].
  cbn [negb List.length Z.of_nat Pos.of_succ_nat].
  rewrite Hout. cbn [outcome trace final fst snd].
  rewrite Hdisk, Htrace. repeat split; reflexivity.
Qed.

Lemma collect_single_ascii_file_witness :
  no_output_fault world_one /\
  lookup (fs world_one) root_R
  = Some (Dir [(lit "a.txt", text_file "hello")]) /\
  disk (final (run world_one root_R (lit "/tmp/out.txt") (lit "txt") fresh))
  = Some (lit "a.txt-------------" ++ [nl] ++ lit "hello" ++ [nl; nl]).
Proof.
  assert (H1 : no_output_fault world_one) by (repeat split; reflexivity).
  assert (H2 : lookup (fs world_one) root_R
               = Some (Dir [(lit "a.txt", text_file "hello")]))
    by reflexivity.
  split; [exact H1|]. split; [exact H2|].
  exact (proj1 (proj2 (collect_single_ascii_file world_one root_R
                         (lit "/tmp/out.txt") fresh H1 H2))).
Defined.

(** ** C5 and C6: runs that never open the output file *)

(** C5. With a valid root and a non-empty extension set, when no file
    under the root matches, the run scans, emits one log line that names
    the filter and the root, emits the single progress value 100, and
    returns; the output file is never opened and is left as it was. *)
Theorem empty_run_leaves_output_untouched (w : world) (root_dir : path)
    (output_file extensions_str : str) (s : ostate) :
  os_path_isdir (fs w) root_dir = true ->
  parse_extensions extensions_str <> [] ->
  files_to_process w root_dir extensions_str = [] ->
  run w root_dir output_file extensions_str s
  = (Val tt,
     [Walk root_dir;
      Log (lit "No files with extension(s) " ++ extensions_str
           ++ lit " found in '" ++ path_str root_dir ++ lit "'.");
      Progress 100],
     s).
Proof.
  intros Hdir Hparse Hfiles. rewrite run_is_shape. unfold run_shape.
  rewrite Hdir, Hfiles. cbn [negb].
  destruct (parse_extensions extensions_str); [contradiction|reflexivity].
Qed.

Lemma empty_run_leaves_output_untouched_witness :
  os_path_isdir (fs world_one) root_R = true /\
  parse_extensions (lit "md") <> [] /\
  files_to_process world_one root_R (lit "md") = [] /\
  final (run world_one root_R (lit "/tmp/out.txt") (lit "md") stale) = stale.
Proof.
  assert (H1 : os_path_isdir (fs world_one) root_R = true) by reflexivity.
  assert (H2 : parse_extensions (lit "md") <> []) by discriminate.
  assert (H3 : files_to_process world_one root_R (lit "md") = [])
    by reflexivity.
  split; [exact H1|]. split; [exact H2|]. split; [exact H3|].
  rewrite (empty_run_leaves_output_untouched world_one root_R
             (lit "/tmp/out.txt") (lit "md") stale H1 H2 H3).
  reflexivity.
Defined.

(** C6. When the root is not an existing directory the run emits one
    error log line and the sentinel, and returns: there is no directory
    scan, nothing is written, and the output file is left as it was. *)
Theorem invalid_root_fails_at_once (w : world) (root_dir : path)
    (output_file extensions_str : str) (s : ostate) :
  os_path_isdir (fs w) root_dir = false ->
  run w root_dir output_file extensions_str s
  = (Val tt,
     [Log (lit "Error: Directory '" ++ path_str root_dir
           ++ lit "' not found.");
      Progress sentinel],
     s).
Proof.
  intros Hdir. rewrite run_is_shape. unfold run_shape.
  rewrite Hdir. reflexivity.
Qed.

Lemma invalid_root_fails_at_once_witness :
  os_path_isdir (fs world_one) [lit "does"; lit "not"; lit "exist"] = false /\
  final (run world_one [lit "does"; lit "not"; lit "exist"]
             (lit "/tmp/out.txt") (lit "txt") stale) = stale.
Proof.
  assert (H1 : os_path_isdir (fs world_one)
                 [lit "does"; lit "not"; lit "exist"] = false)
    by reflexivity.
  split; [exact H1|].
  rewrite (invalid_root_fails_at_once world_one
             [lit "does"; lit "not"; lit "exist"] (lit "/tmp/out.txt")
             (lit "txt") stale H1).
  reflexivity.
Defined.

(** ** C2, C4 and C10: the progress values *)

Section ProgressClaims.

Variable w : world.
Variables (root_dir : path) (output_file extensions_str : str) (s : ostate).

Local Abbreviation files := (files_to_process w root_dir extensions_str).
Local Abbreviation the_run := (run w root_dir output_file extensions_str s).

Lemma run_progress_values :
  exists k fin,
    progress_events (trace the_run)
    = map (progress_of (Z.of_nat (List.length files))) (zrange 0 k) ++ [fin] /\
    Forall (fun v => (0 <= v <= 100)%Z)
           (map (progress_of (Z.of_nat (List.length files))) (zrange 0 k)) /\
    StronglySorted Z.le
           (map (progress_of (Z.of_nat (List.length files))) (zrange 0 k)) /\
    ((fin = 100%Z /\ k = List.length files) \/ fin = sentinel).
Proof.
  destruct (run_progress w root_dir output_file extensions_str s)
    as (k & fin & E & Hk & Hfin).
  exists k, fin. split; [exact E|].
  split; [apply progress_zrange_range; lia|].
  split; [apply progress_zrange_sorted; lia|exact Hfin].
Qed.

Lemma in_range_not_sentinel l :
  Forall (fun v => (0 <= v <= 100)%Z) l -> ~ In sentinel l.
Proof.
  intros H Hin. rewrite Forall_forall in H. apply H in Hin.
  unfold sentinel in Hin. lia.
Qed.

(** C2, as amended. In every run over a non-empty list of [n] files
    that does not emit the sentinel, the progress values are one value
    per file followed by the final 100; the value of the [i]-th file is
    [int((i / n) * 100)], the binary64 quotient and product truncated
    (not rounded), and the value of the last file is exactly 100. For
    [n = 3] the second value is 66. *)
Theorem per_file_progress_truncates :
  files <> [] ->
  ~ In sentinel (progress_events (trace the_run)) ->
  let n := List.length files in
  progress_events (trace the_run) = per_file_progress n ++ [100%Z] /\
  List.length (per_file_progress n) = n /\
  (forall i, (i < n)%nat ->
             progress_value (Z.of_nat (S i)) (Z.of_nat n)
             = Val (nth i (per_file_progress n) sentinel)) /\
  last (per_file_progress n) sentinel = 100%Z /\
  progress_value 2 3 = Val 66%Z.
Proof.
  intros Hne Hns n.
  destruct run_progress_values as (k & fin & E & Hr & _ & Hfin).
  destruct Hfin as [[-> ->] | ->].
  2:{ exfalso. apply Hns. rewrite E. apply in_or_app. right. now left. }
  fold n in E. rewrite <- per_file_progress_zrange in E.
  split; [exact E|].
  split; [unfold per_file_progress; now rewrite length_map, length_seq|].
  split.
  - intros i Hi. unfold per_file_progress.
    rewrite (nth_indep _ sentinel
               (progress_of (Z.of_nat n) (Z.of_nat 0)))
      by (rewrite length_map, length_seq; exact Hi).
    rewrite (map_nth (fun j => progress_of (Z.of_nat n) (Z.of_nat j))).
    rewrite seq_nth by exact Hi.
    apply progress_value_of. lia.
  - split; [|vm_compute; reflexivity].
    assert (Hn : (0 < n)%nat).
    { unfold n. destruct files; [contradiction|cbn; lia]. }
    apply per_file_progress_last. exact Hn.
Qed.

(** C4. In a run that never emits the sentinel the progress values are
    non-decreasing; and when the sentinel is emitted, no progress value
    follows it. *)
Theorem progress_is_monotone :
  (~ In sentinel (progress_events (trace the_run)) ->
   StronglySorted Z.le (progress_events (trace the_run))) /\
  (forall a b, progress_events (trace the_run) = a ++ sentinel :: b ->
               b = []).
Proof.
  destruct run_progress_values as (k & fin & E & Hr & Hs & Hfin).
  rewrite E. split.
  - intros Hns. destruct Hfin as [[-> _] | ->].
    + apply sorted_snoc; [assumption|].
      eapply Forall_impl; [|exact Hr]. cbn. intros; lia.
    + exfalso. apply Hns. apply in_or_app. right. now left.
  - intros a b Hab. destruct Hfin as [[-> _] | ->].
    + exfalso.
      apply (in_range_not_sentinel
               (map (progress_of (Z.of_nat (List.length files))) (zrange 0 k)
                ++ [100%Z])).
      * apply Forall_app. split; [exact Hr|]. repeat constructor; lia.
      * rewrite Hab. apply in_or_app. right. now left.
    + eapply only_last; [|exact Hab]. now apply in_range_not_sentinel.
Qed.


End ProgressClaims.

(** The run over three files: 33, 66 and 100 for the files, then 100. *)
Lemma three_files_progress :
  progress_events
    (trace (run world_three root_R (lit "/tmp/out.txt") (lit "txt") fresh))
  = [33; 66; 100; 100]%Z.
Proof. vm_compute. reflexivity. Qed.

(** C2 as the spec words it fails: with three files the second value is
    66, where [round(2 / 3 * 100)] is 67. *)
Lemma progress_is_not_rounded :
  ~ (forall i, (i < 3)%nat ->
       nth i (progress_events
                (trace (run world_three root_R (lit "/tmp/out.txt")
                            (lit "txt") fresh))) sentinel
       = spec_round_percent (Z.of_nat (S i)) 3).
Proof.
  intros H. specialize (H 1%nat ltac:(lia)).
  rewrite three_files_progress in H. vm_compute in H. discriminate.
Qed.

Lemma per_file_progress_truncates_witness :
  files_to_process world_three root_R (lit "txt") <> [] /\
  ~ In sentinel
       (progress_events
          (trace (run world_three root_R (lit "/tmp/out.txt") (lit "txt")
                      fresh))) /\
  progress_events
    (trace (run world_three root_R (lit "/tmp/out.txt") (lit "txt") fresh))
  = per_file_progress 3 ++ [100%Z].
Proof.
  assert (H1 : files_to_process world_three root_R (lit "txt") <> [])
    by (vm_compute; discriminate).
  assert (H2 : ~ In sentinel
                  (progress_events
                     (trace (run world_three root_R (lit "/tmp/out.txt")
                                 (lit "txt") fresh)))).
  { vm_compute. intros [H|[H|[H|[H|[]]]]]; discriminate H. }
  split; [exact H1|]. split; [exact H2|].
  exact (proj1 (per_file_progress_truncates world_three root_R
                  (lit "/tmp/out.txt") (lit "txt") fresh H1 H2)).
Defined.

Lemma progress_is_monotone_witness :
  StronglySorted Z.le
    (progress_events
       (trace (run world_three root_R (lit "/tmp/out.txt") (lit "txt")
                   fresh))).
Proof.
  apply (proj1 (progress_is_monotone world_three root_R (lit "/tmp/out.txt")
                  (lit "txt") fresh)).
  vm_compute. intros [H|[H|[H|[H|[]]]]]; discriminate H.
Defined.


(** ** C3 and C8: the events of each file *)

Section FileClaims.

Variable w : world.
Variables (root_dir : path) (output_file extensions_str : str) (s : ostate).

Local Abbreviation files := (files_to_process w root_dir extensions_str).
Local Abbreviation n := (Z.of_nat (List.length files)).
Local Abbreviation the_run := (run w root_dir output_file extensions_str s).

(** C3, as amended. In a run whose output file does not fail, the
    events of each file come in this order: first the progress value of
    the file (before the file is processed), then the header line is
    written, then the log line [Processing: <relative_path>] is emitted,
    then the content (or the error marker) is written, then the
    two-newline separator. *)
Theorem progress_precedes_each_file :
  no_output_fault w ->
  os_path_isdir (fs w) root_dir = true ->
  parse_extensions extensions_str <> [] ->
  files <> [] ->
  trace the_run
  = Walk root_dir :: Open output_file
    :: loop_events w root_dir n files 0
    ++ [Close; Log (success_line n output_file); Progress 100] /\
  forall before full_path after,
    files = before ++ full_path :: after ->
    let i := Z.of_nat (S (List.length before)) in
    let relative_path := replace_sep (os_path_relpath full_path root_dir) in
    exists pre post,
      trace the_run
      = pre
        ++ (Progress (progress_of n i)
            :: Write (header_of relative_path)
            :: Log (lit "Processing: " ++ relative_path)
            :: content_events w full_path relative_path
            ++ [Write [nl; nl]])
        ++ post.
Proof.
  intros Hnf Hdir Hparse Hfiles.
  destruct (run_no_fault w root_dir output_file extensions_str s
              Hnf Hdir Hparse Hfiles) as [_ Htrace].
  split; [exact Htrace|].
  intros before full_path after Hsplit i relative_path.
  exists (Walk root_dir :: Open output_file
          :: loop_events w root_dir n before 0),
         (loop_events w root_dir n after i
          ++ [Close; Log (success_line n output_file); Progress 100]).
  rewrite Htrace. rewrite Hsplit at 2.
  rewrite loop_events_app. cbn [loop_events app].
  unfold file_events. fold relative_path.
  replace (0 + Z.of_nat (List.length before) + 1)%Z with i
    by (unfold i; lia).
  list_norm. reflexivity.
Qed.


End FileClaims.

Lemma three_files_positions :
  position is_progress 0
    (trace (run world_three root_R (lit "/tmp/out.txt") (lit "txt") fresh))
  = Some 2%nat /\
  position is_separator 0
    (trace (run world_three root_R (lit "/tmp/out.txt") (lit "txt") fresh))
  = Some 6%nat.
Proof. vm_compute. split; reflexivity. Qed.

(** C3 as the spec words it fails: the progress value of the first file
    is emitted before its header, not after its separator. *)
Lemma progress_is_not_after_the_file :
  ~ progress_after_separator
      (trace (run world_three root_R (lit "/tmp/out.txt") (lit "txt") fresh))
      0.
Proof.
  intros H. destruct three_files_positions as [Hp Hs].
  specialize (H 2%nat 6%nat Hp Hs). lia.
Qed.

Lemma progress_precedes_each_file_witness :
  no_output_fault world_three /\
  os_path_isdir (fs world_three) root_R = true /\
  parse_extensions (lit "txt") <> [] /\
  files_to_process world_three root_R (lit "txt") <> [] /\
  trace (run world_three root_R (lit "/tmp/out.txt") (lit "txt") fresh)
  = Walk root_R :: Open (lit "/tmp/out.txt")
    :: loop_events world_three root_R 3
         (files_to_process world_three root_R (lit "txt")) 0
    ++ [Close; Log (success_line 3 (lit "/tmp/out.txt")); Progress 100].
Proof.
  assert (H1 : no_output_fault world_three) by (repeat split; reflexivity).
  assert (H2 : os_path_isdir (fs world_three) root_R = true) by reflexivity.
  assert (H3 : parse_extensions (lit "txt") <> []) by discriminate.
  assert (H4 : files_to_process world_three root_R (lit "txt") <> [])
    by (vm_compute; discriminate).
  split; [exact H1|]. split; [exact H2|]. split; [exact H3|].
  split; [exact H4|].
  exact (proj1 (progress_precedes_each_file world_three root_R
                  (lit "/tmp/out.txt") (lit "txt") fresh H1 H2 H3 H4)).
Defined.


(** ** C9: no exception escapes *)

Section Failures.

Variable w : world.
Variables (root_dir : path) (output_file extensions_str : str) (s : ostate).

Local Abbreviation files := (files_to_process w root_dir extensions_str).
Local Abbreviation the_run := (run w root_dir output_file extensions_str s).
Local Abbreviation the_loop := (loop_run w root_dir extensions_str s).

Lemma loop_progress_no_sentinel :
  ~ In sentinel (progress_events (trace the_loop)).
Proof.
  unfold loop_run.
  destruct (process_files_progress w root_dir
              (Z.of_nat (List.length files)) files 0
              {| disk := Some []; nwrites := nwrites s |}
              ltac:(lia) ltac:(lia)) as (k & Hk & Hev & _).
  rewrite Hev. apply in_range_not_sentinel.
  apply progress_zrange_range; lia.
Qed.

Lemma loop_disk : disk (final the_loop) = Some (written (trace the_loop)).
Proof.
  unfold loop_run. rewrite process_files_disk. cbn [disk].
  rewrite disk_after_written; [reflexivity|].
  apply loop_event_not_open, process_files_events.
Qed.

(** C9. Every run returns normally. The loop raises only when a write
    to the output file fails. Each failure (bad root directory, empty
    extension set, output file that does not open, exception out of the
    loop, output file that does not close) ends the trace with one
    error log line and the sentinel, the only sentinel of the trace.
    The output file holds what the successful writes put there: when
    the run opened it, exactly the text written, also after a failure in
    the middle of the run. *)
Theorem no_exception_escapes :
  outcome the_run = Val tt /\
  (forall e, outcome the_loop = Exc e -> write_fault_exn w e) /\
  (failure_cause w root_dir extensions_str s ->
   exists pre msg,
     trace the_run = pre ++ [Log msg; Progress sentinel] /\
     ~ In sentinel (progress_events pre)) /\
  (existsb is_open (trace the_run) = true ->
   disk (final the_run) = Some (written (trace the_run))) /\
  (existsb is_open (trace the_run) = false -> final the_run = s).
Proof.
  split; [apply run_outcome|]. split.
  { intros e He. unfold loop_run in He.
    eapply (faults_process_files w root_dir _ files 0); [| |exact He]; lia. }
  pose proof loop_progress_no_sentinel as Hns.
  pose proof loop_disk as Hdisk.
  rewrite run_is_shape. unfold run_shape, failure_cause.
  fold the_loop.
  destruct (os_path_isdir (fs w) root_dir) eqn:Hdir; cbn [negb].
  2:{ split; [|split; [discriminate|reflexivity]]. intros _.
      eexists [], _. split; [reflexivity|]. intros []. }
  destruct (parse_extensions extensions_str) as [|ext exts] eqn:Hparse.
  { split; [|split; [discriminate|reflexivity]]. intros _.
    eexists [], _. split; [reflexivity|]. intros []. }
  remember files as fl eqn:Hfl.
  destruct fl as [|f fs'].
  { split; [|split; [discriminate|reflexivity]].
    intros [H|[H|[H _]]]; try discriminate. contradiction. }
  destruct (open_fault w) as [msg|] eqn:Hopen.
  { split; [|split; [discriminate|reflexivity]]. intros _.
    eexists [Walk root_dir], _. split; [reflexivity|]. intros []. }
  assert (Hw : forall tail,
             written (trace the_loop ++ tail)
             = written (trace the_loop) ++ written tail)
    by (intros; apply written_app).
  destruct (outcome the_loop) as [z|e] eqn:Hout,
           (close_fault w) as [msg|] eqn:Hclose;
    cbn [trace final fst snd existsb is_open orb written];
    (split; [|split; [intros _; rewrite Hw, Hdisk; cbn [written];
                       now rewrite app_nil_r
                     |discriminate]]).
  - intros _.
    exists (Walk root_dir :: Open output_file :: trace the_loop),
           (write_error_line (OSError msg)).
    split; [reflexivity|exact Hns].
  - intros [H|[H|[_ [H|[[e He]|H]]]]]; try discriminate; contradiction.
  - intros _.
    exists (Walk root_dir :: Open output_file :: trace the_loop),
           (write_error_line (OSError msg)).
    split; [reflexivity|exact Hns].
  - intros _.
    exists (Walk root_dir :: Open output_file :: trace the_loop ++ [Close]),
           (write_error_line e).
    split; [list_norm; reflexivity|].
    cbn [progress_events]. rewrite progress_events_app.
    cbn [progress_events]. now rewrite app_nil_r.
Qed.

End Failures.

(** The disk fills up at the header of the second file: the run ends
    with the sentinel and the first entry stays in the output file. *)
Lemma disk_full_run :
  progress_events
    (trace (run world_full root_R (lit "/tmp/out.txt") (lit "txt") fresh))
  = [33; 66; -1]%Z /\
  disk (final (run world_full root_R (lit "/tmp/out.txt") (lit "txt") fresh))
  = Some (lit "a.txt-------------" ++ [nl] ++ lit "one" ++ [nl; nl]).
Proof. vm_compute. split; reflexivity. Qed.

(** A failing write of the content is inside the [try] of line 70: it
    is reported as an error of that file and the run goes on. *)
Lemma content_write_failure_is_per_file :
  progress_events
    (trace (run world_hiccup root_R (lit "/tmp/out.txt") (lit "txt") fresh))
  = [33; 66; 100; 100]%Z /\
  disk (final (run world_hiccup root_R (lit "/tmp/out.txt") (lit "txt") fresh))
  = Some (lit "a.txt-------------" ++ [nl] ++ lit "one" ++ [nl; nl]
          ++ lit "b.txt-------------" ++ [nl; nl]
          ++ lit "[Error: Unable to process file b.txt - I/O error]"
          ++ [nl; nl; nl]
          ++ lit "c.txt-------------" ++ [nl] ++ lit "three" ++ [nl; nl]).
Proof. vm_compute. split; reflexivity. Qed.

Lemma no_exception_escapes_witness :
  failure_cause world_full root_R (lit "txt") fresh /\
  exists pre msg,
    trace (run world_full root_R (lit "/tmp/out.txt") (lit "txt") fresh)
    = pre ++ [Log msg; Progress sentinel] /\
    ~ In sentinel (progress_events pre).
Proof.
  assert (H1 : failure_cause world_full root_R (lit "txt") fresh).
  { right. right. split; [vm_compute; discriminate|].
    right. left. exists (OSError (lit "No space left on device")).
    vm_compute. reflexivity. }
  split; [exact H1|].
  exact (proj1 (proj2 (proj2 (no_exception_escapes world_full root_R
                                (lit "/tmp/out.txt") (lit "txt") fresh)))
               H1).
Defined.

(** ** C7: the extension filter *)

(** C7 as the spec words it fails: a token that already starts with a
    dot is changed by one more dot: [".cs"] gives the suffix [.cs],
    ["..cs"] gives [..cs]. *)
Lemma leading_dot_is_not_neutral :
  ~ (forall toks,
       Forall pipe_free toks ->
       parse_filter (join [pipe] (map (cons dot) toks))
       = parse_filter (join [pipe] toks)).
Proof.
  intros H. specialize (H [lit ".cs"]).
  assert (Hpf : Forall pipe_free [lit ".cs"]).
  { constructor; [|constructor]. vm_compute. intuition discriminate. }
  specialize (H Hpf). vm_compute in H. discriminate.
Qed.

(** C7, as amended. Parsing splits the string on ['|'], trims each
    token, discards the empty ones and puts a dot in front of every
    token that has none, so every suffix starts with a dot. For every
    token list parsing ignores the white space around the tokens. For
    token lists of bare extensions (trimmed, not empty, no leading dot)
    parsing is the same with and without a leading dot on each token.
    ["cs|txt"] and [".cs|.txt"] both give the suffixes [.cs] and [.txt]. *)
Theorem filter_parsing_normalizes :
  (forall s,
      parse_filter s
      = map with_dot (filter (fun t => negb (str_eqb t []))
                             (map strip (split pipe s)))) /\
  (forall s, Forall (fun e => startswith e [dot] = true) (parse_filter s)) /\
  (forall toks,
      Forall padding_ok toks ->
      parse_filter (join [pipe] (map with_padding toks))
      = parse_filter (join [pipe] (map without_padding toks))) /\
  (forall toks,
      Forall bare_ext toks ->
      parse_filter (join [pipe] (map (cons dot) toks))
      = parse_filter (join [pipe] toks)) /\
  parse_filter (lit "cs|txt") = [lit ".cs"; lit ".txt"] /\
  parse_filter (lit ".cs|.txt") = [lit ".cs"; lit ".txt"].
Proof.
  split; [exact parse_filter_eq|]. split.
  { intros s. rewrite parse_filter_eq. apply Forall_map, Forall_forall.
    intros t _. apply with_dot_starts. }
  split; [exact parse_filter_padding|]. split.
  { intros toks Hb. destruct (parse_filter_bare toks Hb) as [H1 H2].
    congruence. }
  split; vm_compute; reflexivity.
Qed.

Lemma filter_parsing_normalizes_witness :
  Forall padding_ok [(lit " ", lit "cs", lit ""); (lit "", lit ".txt", lit "  ")]
  /\ Forall bare_ext [lit "cs"; lit "txt"] /\
  parse_filter (lit " cs|.txt  ") = parse_filter (lit "cs|.txt") /\
  parse_filter (lit ".cs|.txt") = parse_filter (lit "cs|txt").
Proof.
  assert (H1 : Forall padding_ok
                 [(lit " ", lit "cs", lit "");
                  (lit "", lit ".txt", lit "  ")]).
  { repeat constructor; vm_compute; intuition discriminate. }
  assert (H2 : Forall bare_ext [lit "cs"; lit "txt"]).
  { repeat constructor; try discriminate; try reflexivity;
      vm_compute; intuition discriminate. }
  split; [exact H1|]. split; [exact H2|]. split.
  - exact (proj1 (proj2 (proj2 filter_parsing_normalizes)) _ H1).
  - exact (proj1 (proj2 (proj2 (proj2 filter_parsing_normalizes))) _ H2).
Defined.

(** * Part IV: the rest of the routine *)

(** ** How a run ends *)

Section Endings.

Variable w : world.
Variables (root_dir : path) (output_file extensions_str : str) (s : ostate).

Local Abbreviation files := (files_to_process w root_dir extensions_str).
Local Abbreviation n := (Z.of_nat (List.length files)).
Local Abbreviation the_run := (run w root_dir output_file extensions_str s).
Local Abbreviation the_loop := (loop_run w root_dir extensions_str s).
Local Abbreviation failed := (failure_cause w root_dir extensions_str s).

Lemma loop_progress_range :
  Forall (fun v => (0 <= v <= 100)%Z) (progress_events (trace the_loop)).
Proof.
  unfold loop_run.
  destruct (process_files_progress w root_dir n files 0
              {| disk := Some []; nwrites := nwrites s |}
              ltac:(lia) ltac:(lia)) as (k & Hk & Hev & _).
  rewrite Hev. apply progress_zrange_range; lia.
Qed.

(** Every run ends with a log line and a last progress value, the
    sentinel after a failure and 100 otherwise; the log line of a
    failure starts with [Error]. *)
Lemma run_ends :
  exists pre msg fin,
    trace the_run = pre ++ [Log msg; Progress fin] /\
    Forall (fun v => (0 <= v <= 100)%Z) (progress_events pre) /\
    ((fin = sentinel /\ failed /\ startswith msg (lit "Error") = true) \/
     (fin = 100%Z /\ ~ failed)).
Proof.
  pose proof loop_progress_range as Hr.
  rewrite run_is_shape. unfold run_shape, failure_cause. fold the_loop.
  destruct (os_path_isdir (fs w) root_dir) eqn:Hdir; cbn [negb].
  2:{ eexists [], _, _. split; [reflexivity|]. split; [constructor|].
      left. repeat split; auto. }
  destruct (parse_extensions extensions_str) as [|ext exts] eqn:Hparse.
  { eexists [], _, _. split; [reflexivity|]. split; [constructor|].
    left. repeat split; auto. }
  remember files as fl eqn:Hfl.
  destruct fl as [|f fs'].
  { eexists [Walk root_dir], _, _. split; [reflexivity|].
    split; [constructor|]. right. split; [reflexivity|].
    intros [H|[H|[H _]]]; try discriminate. contradiction. }
  destruct (open_fault w) as [msg|] eqn:Hopen.
  { eexists [Walk root_dir], _, _. split; [reflexivity|].
    split; [constructor|]. left. split; [reflexivity|]. split; [|reflexivity].
    right. right. split; [discriminate|]. left. discriminate. }
  destruct (outcome the_loop) as [z|e] eqn:Hout,
           (close_fault w) as [msg|] eqn:Hclose.
  - exists (Walk root_dir :: Open output_file :: trace the_loop).
    eexists _, _. split; [reflexivity|]. split; [exact Hr|].
    left. split; [reflexivity|]. split; [|reflexivity].
    right. right. split; [discriminate|]. right. right. discriminate.
  - exists (Walk root_dir :: Open output_file :: trace the_loop ++ [Close]).
    eexists _, _. split; [list_norm; reflexivity|]. split.
    { cbn [progress_events]. rewrite progress_events_app.
      cbn [progress_events]. now rewrite app_nil_r. }
    right. split; [reflexivity|].
    intros [H|[H|[_ [H|[[e He]|H]]]]]; try discriminate; contradiction.
  - exists (Walk root_dir :: Open output_file :: trace the_loop).
    eexists _, _. split; [reflexivity|]. split; [exact Hr|].
    left. split; [reflexivity|]. split; [|reflexivity].
    right. right. split; [discriminate|]. right. right. discriminate.
  - exists (Walk root_dir :: Open output_file :: trace the_loop ++ [Close]).
    eexists _, _. split; [list_norm; reflexivity|]. split.
    { cbn [progress_events]. rewrite progress_events_app.
      cbn [progress_events]. now rewrite app_nil_r. }
    left. split; [reflexivity|]. split; [|reflexivity].
    right. right. split; [discriminate|]. right. left. eauto.
Qed.

Lemma range_not_sentinel l :
  Forall (fun v => (0 <= v <= 100)%Z) l -> ~ In sentinel l.
Proof.
  intros H Hin. rewrite Forall_forall in H. apply H in Hin.
  unfold sentinel in Hin. lia.
Qed.

(** The last progress value tells whether the run failed: it is the
    sentinel -1 exactly when one of the five failures occurred (bad root
    directory, empty extension set, output file that does not open,
    exception out of the loop, output file that does not close) and
    100 exactly when none did; the sentinel occurs in no other run. *)
Theorem last_progress_tells_failure :
  (last (progress_events (trace the_run)) 0%Z = sentinel <-> failed) /\
  (last (progress_events (trace the_run)) 0%Z = 100%Z <-> ~ failed) /\
  (In sentinel (progress_events (trace the_run)) <-> failed).
Proof.
  destruct run_ends as (pre & msg & fin & E & Hr & Hfin).
  rewrite E, progress_events_app. cbn [progress_events].
  rewrite last_last.
  assert (Hin : In sentinel (progress_events pre ++ [fin]) <-> fin = sentinel).
  { rewrite in_app_iff. cbn [In]. split.
    - intros [H|[H|[]]]; [|auto]. now apply range_not_sentinel in H.
    - auto. }
  rewrite Hin.
  destruct Hfin as [(-> & Hf & _) | (-> & Hf)].
  - repeat split; auto; try contradiction. discriminate.
  - repeat split; auto; try discriminate; intros; contradiction.
Qed.

End Endings.

(** ** The extension filter, continued *)

Section Tokens.

Lemma lstrip_nil_blank t : lstrip t = [] -> blank t.
Proof.
  induction t as [|c t IH]; cbn [lstrip]; [intros _; constructor|].
  destruct (isspace c) eqn:E; [|discriminate].
  intros H. constructor; [exact E|exact (IH H)].
Qed.

Lemma lstrip_decomp t : exists l, blank l /\ t = l ++ lstrip t.
Proof.
  induction t as [|c t IH].
  - exists []. split; [constructor|reflexivity].
  - cbn [lstrip]. destruct (isspace c) eqn:E.
    + destruct IH as (l & Hl & Ht). exists (c :: l).
      split; [constructor; assumption|]. cbn [app]. now f_equal.
    + exists []. split; [constructor|reflexivity].
Qed.

Lemma lstrip_head t c u : lstrip t = c :: u -> isspace c = false.
Proof.
  induction t as [|a t IH]; cbn [lstrip]; [discriminate|].
  destruct (isspace a) eqn:E; [exact IH|].
  intros [= <- _]. exact E.
Qed.

Lemma lstrip_fix u :
  (forall c v, u = c :: v -> isspace c = false) -> lstrip u = u.
Proof.
  destruct u as [|c v]; [reflexivity|]. intros H.
  cbn [lstrip]. now rewrite (H c v eq_refl).
Qed.

Lemma lstrip_idem t : lstrip (lstrip t) = lstrip t.
Proof. apply lstrip_fix. intros c v. apply lstrip_head. Qed.

Lemma rstrip_decomp t : exists r, blank r /\ t = rstrip t ++ r.
Proof.
  unfold rstrip. destruct (lstrip_decomp (rev t)) as (l & Hl & E).
  exists (rev l). split; [now apply blank_rev|].
  rewrite <- rev_app_distr, <- E. now rewrite rev_involutive.
Qed.

Lemma rstrip_idem t : rstrip (rstrip t) = rstrip t.
Proof. unfold rstrip. now rewrite rev_involutive, lstrip_idem. Qed.

Lemma strip_decomp t :
  exists l r, blank l /\ blank r /\ t = l ++ strip t ++ r.
Proof.
  destruct (lstrip_decomp t) as (l & Hl & El).
  destruct (rstrip_decomp (lstrip t)) as (r & Hr & Er).
  exists l, r. split; [assumption|]. split; [assumption|].
  unfold strip. now rewrite <- Er.
Qed.

Lemma strip_nil_blank t : strip t = [] <-> blank t.
Proof.
  split.
  - intros H. destruct (strip_decomp t) as (l & r & Hl & Hr & E).
    rewrite E, H. apply Forall_app. split; [assumption|exact Hr].
  - intros H. unfold strip. now rewrite lstrip_blank.
Qed.

Lemma strip_trimmed t : trimmed (strip t).
Proof.
  split.
  - apply lstrip_fix. intros c v E.
    destruct (rstrip_decomp (lstrip t)) as (r & _ & Er).
    change (rstrip (lstrip t)) with (strip t) in Er. rewrite E in Er.
    exact (lstrip_head t c (v ++ r) Er).
  - unfold strip. apply rstrip_idem.
Qed.

Lemma split_not_nil sep s : split sep s <> [].
Proof.
  destruct s as [|c s]; cbn [split]; [discriminate|].
  destruct (char_eqb c sep); [discriminate|].
  destruct (split sep s); discriminate.
Qed.

Lemma char_eqb_eq a b : char_eqb a b = true <-> a = b.
Proof. apply N.eqb_eq. Qed.

Lemma split_tokens_pipe_free s : Forall pipe_free (split pipe s).
Proof.
  induction s as [|c s IH]; cbn [split].
  - constructor; [intros []|constructor].
  - destruct (char_eqb c pipe) eqn:E.
    + constructor; [intros []|exact IH].
    + assert (Hc : c <> pipe).
      { intros ->. unfold char_eqb in E. now rewrite N.eqb_refl in E. }
      destruct (split pipe s) as [|tok toks].
      * constructor; [|constructor]. intros [H|[]]. congruence.
      * inversion IH as [|? ? Htok Htoks]; subst.
        constructor; [|assumption]. intros [H|H]; [congruence|auto].
Qed.

Lemma isspace_pipe : isspace pipe = false.
Proof. reflexivity. Qed.

Lemma split_blank_filler s : Forall blank (split pipe s) <-> Forall filler s.
Proof.
  induction s as [|c s IH]; cbn [split].
  - split; intros _; repeat constructor.
  - destruct (char_eqb c pipe) eqn:E.
    + apply char_eqb_eq in E. subst c.
      rewrite !Forall_cons_iff, IH. split.
      * intros [_ H]. split; [now right|assumption].
      * intros [_ H]. split; [constructor|assumption].
    + assert (Hc : c <> pipe).
      { intros ->. unfold char_eqb in E. now rewrite N.eqb_refl in E. }
      pose proof (split_not_nil pipe s) as Hne.
      destruct (split pipe s) as [|tok toks]; [contradiction|].
      rewrite !Forall_cons_iff, <- IH, Forall_cons_iff. unfold blank at 1.
      rewrite Forall_cons_iff. unfold filler, blank. intuition congruence.
Qed.

Lemma filter_nil_iff {A} (p : A -> bool) l :
  filter p l = [] <-> Forall (fun x => p x = false) l.
Proof.
  induction l as [|x l IH]; cbn [filter].
  - split; intros _; constructor.
  - rewrite Forall_cons_iff, <- IH.
    destruct (p x); intuition discriminate.
Qed.

(** No extension comes out of a string exactly when the string is made
    of white space and separators. *)
Lemma parse_extensions_nil_iff s :
  parse_extensions s = [] <-> Forall filler s.
Proof.
  rewrite <- split_blank_filler. unfold parse_extensions. split.
  - intros H. apply map_eq_nil in H. rewrite filter_nil_iff in H.
    eapply Forall_impl; [|exact H]. intros t Ht. apply strip_nil_blank.
    cbv beta in Ht. destruct (strip t); [reflexivity|discriminate Ht].
  - intros H. replace (filter _ _) with (@nil str); [reflexivity|].
    symmetry. apply filter_nil_iff.
    eapply Forall_impl; [|exact H]. intros t Ht.
    apply strip_nil_blank in Ht. now rewrite Ht.
Qed.

Lemma parse_extensions_clean s :
  Forall (fun e => e <> [] /\ trimmed e /\ pipe_free e) (parse_extensions s).
Proof.
  unfold parse_extensions. apply Forall_map, Forall_forall.
  intros t Hin. apply filter_In in Hin. destruct Hin as [Hin Hne].
  split; [|split].
  - destruct (strip t); [discriminate|discriminate].
  - apply strip_trimmed.
  - pose proof (split_tokens_pipe_free s) as Hpf.
    rewrite Forall_forall in Hpf. specialize (Hpf t Hin).
    destruct (strip_decomp t) as (l & r & _ & _ & E).
    intros Hp. apply Hpf. rewrite E.
    apply in_or_app. right. apply in_or_app. now left.
Qed.

Lemma with_dot_clean e :
  e <> [] /\ trimmed e /\ pipe_free e ->
  with_dot e <> [] /\ trimmed (with_dot e) /\ pipe_free (with_dot e) /\
  startswith (with_dot e) [dot] = true.
Proof.
  intros (Hne & [Hl Hr] & Hp).
  split; [|split; [|split; [|apply with_dot_starts]]];
    unfold with_dot; destruct (startswith e [dot]); cbn [negb];
    try assumption; try discriminate; try (split; assumption).
  - split; [reflexivity|].
    unfold rstrip in *. cbn [rev].
    assert (Hrev : lstrip (rev e) = rev e).
    { rewrite <- (rev_involutive (lstrip (rev e))), Hr. reflexivity. }
    rewrite lstrip_app, Hrev.
    destruct (rev e) as [|c u] eqn:Et.
    + exfalso. apply Hne. rewrite <- (rev_involutive e), Et. reflexivity.
    + rewrite <- Et, rev_app_distr, rev_involutive. reflexivity.
  - intros [H|H]; [discriminate|auto].
Qed.

Lemma filler_dec c : {filler c} + {~ filler c}.
Proof.
  unfold filler. destruct (isspace c).
  - left. now left.
  - destruct (N.eq_dec c pipe) as [E|E].
    + left. now right.
    + right. intros [H|H]; [discriminate|contradiction].
Qed.

Lemma parse_filter_clean s :
  Forall (fun t => t <> [] /\ trimmed t /\ pipe_free t /\
                   startswith t [dot] = true)
         (parse_filter s).
Proof.
  unfold parse_filter, target_extensions_of. apply Forall_map.
  eapply Forall_impl; [|apply parse_extensions_clean].
  intros e He. apply (with_dot_clean e He).
Qed.

(** No suffix is empty, so the empty name matches none. *)
Lemma matching_name_not_empty s name :
  endswith_any name (parse_filter s) = true -> name <> [].
Proof.
  intros Hm ->. unfold endswith_any in Hm.
  apply existsb_exists in Hm. destruct Hm as (t & Hin & Ht).
  pose proof (parse_filter_clean s) as H. rewrite Forall_forall in H.
  destruct (H t Hin) as (Hne & _).
  unfold endswith in Ht. cbn [rev] in Ht.
  destruct (rev t) as [|c u] eqn:E; [|discriminate].
  apply Hne. rewrite <- (rev_involutive t), E. reflexivity.
Qed.

End Tokens.

(** The extensions line 30 keeps are not empty, have no white space at
    either end and no ['|'] inside; the suffixes line 35 makes of them
    keep these properties and start with a dot. In particular no suffix
    is the empty string, which every file name would end with. *)
Theorem parsed_suffixes_are_clean (extensions_str : str) :
  Forall (fun e => e <> [] /\ trimmed e /\ pipe_free e)
         (parse_extensions extensions_str) /\
  Forall (fun t => t <> [] /\ trimmed t /\ pipe_free t /\
                   startswith t [dot] = true)
         (parse_filter extensions_str) /\
  forall name, endswith_any name (parse_filter extensions_str) = true ->
               name <> [].
Proof.
  assert (H2 : Forall (fun t => t <> [] /\ trimmed t /\ pipe_free t /\
                                startswith t [dot] = true)
                      (parse_filter extensions_str)).
  { unfold parse_filter, target_extensions_of. apply Forall_map.
    eapply Forall_impl; [|apply parse_extensions_clean].
    intros e He. apply (with_dot_clean e He). }
  split; [apply parse_extensions_clean|]. split; [exact H2|].
  intros name Hm ->. unfold endswith_any in Hm.
  apply existsb_exists in Hm. destruct Hm as (t & Hin & Ht).
  rewrite Forall_forall in H2. destruct (H2 t Hin) as (Hne & _).
  unfold endswith in Ht. cbn [rev] in Ht.
  destruct (rev t) as [|c u] eqn:E; [|discriminate].
  apply Hne. rewrite <- (rev_involutive t), E. reflexivity.
Qed.

(** The routine finds no extension in a string (and reports
    [No valid file extensions provided]) exactly when every character
    of the string is white space or ['|'], the empty string being the
    first case; it finds one exactly when some character is neither. *)
Theorem no_extension_iff_only_filler (extensions_str : str) :
  (parse_extensions extensions_str = [] <-> Forall filler extensions_str) /\
  (parse_extensions extensions_str <> [] <->
   exists c, In c extensions_str /\ isspace c = false /\ c <> pipe).
Proof.
  split; [apply parse_extensions_nil_iff|]. split.
  - intros Hne.
    destruct (Forall_Exists_dec filler filler_dec extensions_str) as [Hf|He].
    { apply parse_extensions_nil_iff in Hf. contradiction. }
    apply Exists_exists in He. destruct He as (c & Hin & Hc).
    exists c. split; [assumption|]. unfold filler in Hc. split.
    + destruct (isspace c); [|reflexivity]. exfalso. apply Hc. now left.
    + intros ->. apply Hc. now right.
  - intros (c & Hin & Hs & Hp) H. apply parse_extensions_nil_iff in H.
    rewrite Forall_forall in H. destruct (H c Hin); congruence.
Qed.

(** The check of the start button (the extension field, stripped, is
    not empty) is weaker than the check of the routine: every string the
    routine finds an extension in passes it, and so does every string of
    white space and separators with at least one ['|'], in which the
    routine finds none. *)
Theorem start_check_is_weaker :
  (forall s, parse_extensions s <> [] -> start_accepts_extensions s = true) /\
  (forall s, Forall filler s -> In pipe s ->
             start_accepts_extensions s = true /\ parse_extensions s = []).
Proof.
  assert (Hacc : forall s, ~ blank s -> start_accepts_extensions s = true).
  { intros s Hs. unfold start_accepts_extensions.
    destruct (strip s) as [|c u] eqn:E; [|reflexivity].
    exfalso. apply Hs. now apply strip_nil_blank. }
  split.
  - intros s Hs. apply Hacc. intros Hb. apply Hs.
    apply parse_extensions_nil_iff.
    eapply Forall_impl; [|exact Hb]. intros c Hc. now left.
  - intros s Hf Hin. split; [|now apply parse_extensions_nil_iff].
    apply Hacc. intros Hb. unfold blank in Hb. rewrite Forall_forall in Hb.
    apply Hb in Hin. discriminate.
Qed.

Lemma start_check_is_weaker_witness :
  parse_extensions (lit "cs| txt") <> [] /\
  start_accepts_extensions (lit "cs| txt") = true /\
  Forall filler (lit " | ") /\ In pipe (lit " | ") /\
  start_accepts_extensions (lit " | ") = true /\
  parse_extensions (lit " | ") = [].
Proof.
  assert (H1 : parse_extensions (lit "cs| txt") <> [])
    by (vm_compute; discriminate).
  assert (H2 : Forall filler (lit " | ")).
  { repeat (constructor;
            [first [left; reflexivity | right; reflexivity]|]).
    constructor. }
  assert (H3 : In pipe (lit " | ")) by (right; left; reflexivity).
  split; [exact H1|].
  split; [exact (proj1 start_check_is_weaker _ H1)|].
  split; [exact H2|]. split; [exact H3|].
  exact (proj2 start_check_is_weaker _ H2 H3).
Defined.

(** With a valid root directory and an extension string of white
    space and separators only, the run emits the one error line
    [Error: No valid file extensions provided.] and the sentinel, and
    returns: no directory scan, nothing opened or written, the output
    file left as it was. *)
Theorem blank_filter_is_rejected (w : world) (root_dir : path)
    (output_file extensions_str : str) (s : ostate) :
  os_path_isdir (fs w) root_dir = true ->
  Forall filler extensions_str ->
  run w root_dir output_file extensions_str s
  = (Val tt,
     [Log (lit "Error: No valid file extensions provided.");
      Progress sentinel],
     s).
Proof.
  intros Hdir Hf. apply parse_extensions_nil_iff in Hf.
  rewrite run_is_shape. unfold run_shape.
  rewrite Hdir, Hf. reflexivity.
Qed.

Lemma blank_filter_is_rejected_witness :
  os_path_isdir (fs world_one) root_R = true /\
  Forall filler (lit " | ") /\
  final (run world_one root_R (lit "/tmp/out.txt") (lit " | ") stale) = stale.
Proof.
  assert (H1 : os_path_isdir (fs world_one) root_R = true) by reflexivity.
  assert (H2 : Forall filler (lit " | ")).
  { repeat (constructor;
            [first [left; reflexivity | right; reflexivity]|]).
    constructor. }
  split; [exact H1|]. split; [exact H2|].
  rewrite (blank_filter_is_rejected world_one root_R (lit "/tmp/out.txt")
             (lit " | ") stale H1 H2).
  reflexivity.
Defined.

(** ** The output file *)

Section Output.

Variable w : world.
Variables (root_dir : path) (output_file extensions_str : str) (s : ostate).

Local Abbreviation files := (files_to_process w root_dir extensions_str).
Local Abbreviation n := (Z.of_nat (List.length files)).
Local Abbreviation the_run := (run w root_dir output_file extensions_str s).
Local Abbreviation the_loop := (loop_run w root_dir extensions_str s).

(** When the output file cannot be opened (a missing directory, no
    permission), the run scans the tree, then emits one error line that
    carries the text of the exception and the sentinel, and returns; no
    file is read and the output file is left as it was. *)
Theorem open_failure_is_reported msg :
  os_path_isdir (fs w) root_dir = true ->
  parse_extensions extensions_str <> [] ->
  files <> [] ->
  open_fault w = Some msg ->
  the_run
  = (Val tt,
     [Walk root_dir;
      Log (lit "Error occurred while writing to output file: " ++ msg);
      Progress sentinel],
     s).
Proof.
  intros Hdir Hparse Hfiles Hopen. rewrite run_is_shape. unfold run_shape.
  rewrite Hdir, Hopen. cbn [negb].
  destruct (parse_extensions extensions_str); [contradiction|].
  destruct files; [contradiction|reflexivity].
Qed.

Lemma written_file_events i full_path :
  written (file_events w root_dir n i full_path)
  = entry_text w root_dir full_path.
Proof.
  unfold file_events, entry_text, content_events, process_error_marker,
    read_failure.
  cbn [written]. rewrite written_app. cbn [written]. f_equal. f_equal.
  destruct (lookup (fs w) full_path) as [[[bytes|m]|entries]|];
    cbn [written]; rewrite ?app_nil_r; try reflexivity.
  destruct (decode Utf8Sig bytes); cbn [written]; now rewrite ?app_nil_r.
Qed.

Lemma written_loop_events fl :
  forall p,
    written (loop_events w root_dir n fl p)
    = List.concat (map (entry_text w root_dir) fl).
Proof.
  induction fl as [|f rest IH]; intros p; [reflexivity|].
  cbn [loop_events map List.concat].
  now rewrite written_app, written_file_events, IH.
Qed.

(** When the output file does not fail, is none of the files
    collected, and at least one file matches, the output file holds,
    after the run, the entries of the matching files in the order of
    the scan, each entry being the header line, the content of the file
    (or its error marker) and two newlines; nothing of what the file
    held before the run is left. *)
Theorem output_is_the_entries_in_scan_order :
  no_output_fault w ->
  output_not_collected w root_dir output_file extensions_str ->
  os_path_isdir (fs w) root_dir = true ->
  parse_extensions extensions_str <> [] ->
  files <> [] ->
  disk (final the_run) = Some (List.concat (map (entry_text w root_dir) files)).
Proof.
  intros Hnf _ Hdir Hparse Hfiles.
  destruct (run_no_fault w root_dir output_file extensions_str s
              Hnf Hdir Hparse Hfiles) as [_ Htrace].
  rewrite run_disk, Htrace. cbn [disk_after].
  rewrite disk_after_written.
  - cbn [app]. rewrite written_app, written_loop_events. cbn [written].
    now rewrite app_nil_r.
  - apply Forall_app. split.
    + destruct Hnf as (_ & Hwrite & _).
      destruct (process_files_no_fault w root_dir n files Hwrite 0
                  {| disk := Some []; nwrites := nwrites s |}
                  ltac:(lia) ltac:(lia)) as [_ Ht].
      rewrite <- Ht. apply loop_event_not_open, process_files_events.
    + repeat constructor.
Qed.

(** A file that cannot be opened for reading does not stop the run:
    when the output file does not fail, its entry is the header and the
    marker [[Error: Unable to process file <path> - <reason>]], its log
    lines are [Processing: <path>] and [Processing error <path>:
    <reason>], the files after it are processed as usual and the run
    ends with the success line and 100. *)
Theorem unreadable_file_is_reported_and_skipped before full_path after msg :
  no_output_fault w ->
  os_path_isdir (fs w) root_dir = true ->
  parse_extensions extensions_str <> [] ->
  files = before ++ full_path :: after ->
  lookup (fs w) full_path = Some (File (Unreadable msg)) ->
  let i := Z.of_nat (S (List.length before)) in
  let relative_path := replace_sep (os_path_relpath full_path root_dir) in
  trace the_run
  = Walk root_dir :: Open output_file
    :: loop_events w root_dir n before 0
    ++ unreadable_file_events (progress_of n i) relative_path msg
    ++ loop_events w root_dir n after i
    ++ [Close; Log (success_line n output_file); Progress 100] /\
  entry_text w root_dir full_path
  = header_of relative_path
    ++ process_error_marker relative_path (OSError msg) ++ [nl; nl].
Proof.
  intros Hnf Hdir Hparse Hsplit Hlook i relative_path.
  assert (Hfiles : files <> []).
  { rewrite Hsplit. now destruct before. }
  destruct (run_no_fault w root_dir output_file extensions_str s
              Hnf Hdir Hparse Hfiles) as [Hout Htrace].
  split.
  - rewrite Htrace. rewrite Hsplit at 2.
    rewrite loop_events_app. cbn [loop_events app].
    unfold file_events, content_events. fold relative_path.
    rewrite Hlook.
    replace (0 + Z.of_nat (List.length before) + 1)%Z with i
      by (unfold i; lia).
    unfold unreadable_file_events, process_error_marker.
    cbn [exn_str]. list_norm. reflexivity.
  - unfold entry_text. fold relative_path. now rewrite Hlook.
Qed.

Lemma protocol_app output_file0 st a b :
  protocol output_file0 st (a ++ b)
  = match protocol output_file0 st a with
    | Some st' => protocol output_file0 st' b
    | None => None
    end.
Proof.
  revert st. induction a as [|e a IH]; intros st; [reflexivity|].
  cbn [app protocol].
  destruct (protocol_step output_file0 st e); [apply IH|reflexivity].
Qed.

Lemma protocol_loop output_file0 ev :
  Forall loop_event ev -> protocol output_file0 IsOpen ev = Some IsOpen.
Proof.
  induction 1 as [|e ev He _ IH]; [reflexivity|].
  destruct e; cbn in He; try contradiction; exact IH.
Qed.

(** In every run the output file is used in order: it is opened at
    most once, under the name given, and only after the scan; text is
    written only while it is open; and a file that was opened is closed
    before the run ends, also when the loop raised, unless the close
    itself fails. *)
Theorem output_file_is_used_in_order :
  exists st,
    protocol output_file NotOpened (trace the_run) = Some st /\
    (st = NotOpened -> final the_run = s) /\
    (st = IsOpen -> close_fault w <> None).
Proof.
  pose proof (process_files_events w root_dir n files 0
                {| disk := Some []; nwrites := nwrites s |}) as Hev.
  apply (protocol_loop output_file) in Hev.
  rewrite run_is_shape. unfold run_shape.
  destruct (negb (os_path_isdir (fs w) root_dir)).
  { exists NotOpened. repeat split; auto; discriminate. }
  destruct (parse_extensions extensions_str).
  { exists NotOpened. repeat split; auto; discriminate. }
  remember files as fl eqn:Hfl.
  destruct fl as [|f fs'].
  { exists NotOpened. repeat split; auto; discriminate. }
  destruct (open_fault w).
  { exists NotOpened. repeat split; auto; discriminate. }
  match goal with
  | |- context [outcome (process_files ?a ?b ?c ?d ?e ?f)] =>
      destruct (outcome (process_files a b c d e f))
  end; destruct (close_fault w);
    cbn [trace final fst snd protocol protocol_step];
    rewrite str_eqb_refl, protocol_app, Hev; cbn [protocol protocol_step].
  - exists IsOpen. repeat split; discriminate.
  - exists IsClosed. repeat split; discriminate.
  - exists IsOpen. repeat split; discriminate.
  - exists IsClosed. repeat split; discriminate.
Qed.

End Output.

Lemma open_failure_is_reported_witness :
  let w := {| fs := tree_three; open_fault := Some (lit "Permission denied");
              write_fault := fun _ => None; close_fault := None |} in
  os_path_isdir (fs w) root_R = true /\
  parse_extensions (lit "txt") <> [] /\
  files_to_process w root_R (lit "txt") <> [] /\
  open_fault w = Some (lit "Permission denied") /\
  final (run w root_R (lit "/tmp/out.txt") (lit "txt") stale) = stale.
Proof.
  intros w.
  assert (H1 : os_path_isdir (fs w) root_R = true) by reflexivity.
  assert (H2 : parse_extensions (lit "txt") <> []) by discriminate.
  assert (H3 : files_to_process w root_R (lit "txt") <> [])
    by (vm_compute; discriminate).
  assert (H4 : open_fault w = Some (lit "Permission denied")) by reflexivity.
  split; [exact H1|]. split; [exact H2|]. split; [exact H3|].
  split; [exact H4|].
  rewrite (open_failure_is_reported w root_R (lit "/tmp/out.txt") (lit "txt")
             stale (lit "Permission denied") H1 H2 H3 H4).
  reflexivity.
Defined.

Lemma output_is_the_entries_in_scan_order_witness :
  no_output_fault world_three /\
  output_not_collected world_three root_R (lit "/tmp/out.txt") (lit "txt") /\
  os_path_isdir (fs world_three) root_R = true /\
  parse_extensions (lit "txt") <> [] /\
  files_to_process world_three root_R (lit "txt") <> [] /\
  disk (final (run world_three root_R (lit "/tmp/out.txt") (lit "txt") stale))
  = Some (lit "a.txt-------------" ++ [nl] ++ lit "one" ++ [nl; nl]
          ++ lit "b.txt-------------" ++ [nl] ++ lit "two" ++ [nl; nl]
          ++ lit "c.txt-------------" ++ [nl] ++ lit "three" ++ [nl; nl]).
Proof.
  assert (H1 : no_output_fault world_three) by (repeat split; reflexivity).
  assert (H0 : output_not_collected world_three root_R (lit "/tmp/out.txt")
                 (lit "txt")).
  { exists tmp_out. split; [reflexivity|]. split.
    - repeat constructor; try discriminate;
        vm_compute; intuition discriminate.
    - vm_compute. intuition discriminate. }
  assert (H2 : os_path_isdir (fs world_three) root_R = true) by reflexivity.
  assert (H3 : parse_extensions (lit "txt") <> []) by discriminate.
  assert (H4 : files_to_process world_three root_R (lit "txt") <> [])
    by (vm_compute; discriminate).
  split; [exact H1|]. split; [exact H0|]. split; [exact H2|].
  split; [exact H3|]. split; [exact H4|].
  rewrite (output_is_the_entries_in_scan_order world_three root_R
             (lit "/tmp/out.txt") (lit "txt") stale H1 H0 H2 H3 H4).
  reflexivity.
Defined.

Lemma unreadable_file_is_reported_and_skipped_witness :
  no_output_fault world_locked /\
  os_path_isdir (fs world_locked) root_R = true /\
  parse_extensions (lit "txt") <> [] /\
  files_to_process world_locked root_R (lit "txt")
  = [] ++ [lit "R"; lit "a.txt"] :: [[lit "R"; lit "b.txt"]] /\
  lookup (fs world_locked) [lit "R"; lit "a.txt"]
  = Some (File (Unreadable (lit "Permission denied"))) /\
  entry_text world_locked root_R [lit "R"; lit "a.txt"]
  = lit "a.txt-------------" ++ [nl; nl]
    ++ lit "[Error: Unable to process file a.txt - Permission denied]"
    ++ [nl; nl; nl].
Proof.
  assert (H1 : no_output_fault world_locked) by (repeat split; reflexivity).
  assert (H2 : os_path_isdir (fs world_locked) root_R = true) by reflexivity.
  assert (H3 : parse_extensions (lit "txt") <> []) by discriminate.
  assert (H4 : files_to_process world_locked root_R (lit "txt")
               = [] ++ [lit "R"; lit "a.txt"] :: [[lit "R"; lit "b.txt"]])
    by reflexivity.
  assert (H5 : lookup (fs world_locked) [lit "R"; lit "a.txt"]
               = Some (File (Unreadable (lit "Permission denied"))))
    by reflexivity.
  split; [exact H1|]. split; [exact H2|]. split; [exact H3|].
  split; [exact H4|]. split; [exact H5|].
  rewrite (proj2 (unreadable_file_is_reported_and_skipped world_locked root_R
                    (lit "/tmp/out.txt") (lit "txt") fresh
                    [] [lit "R"; lit "a.txt"] [[lit "R"; lit "b.txt"]]
                    (lit "Permission denied") H1 H2 H3 H4 H5)).
  reflexivity.
Defined.

(** ** The pre-scan *)

Section Scan.

Variable te : list str.

Lemma str_eqb_eq a b : str_eqb a b = true <-> a = b.
Proof.
  split; [|intros ->; apply str_eqb_refl].
  revert b. induction a as [|x a IH]; intros [|y b]; cbn [str_eqb];
    try discriminate; [reflexivity|].
  intros H. apply andb_prop in H. destruct H as [Hx Hab].
  apply N.eqb_eq in Hx. f_equal; auto.
Qed.

Lemma walk_collect_Dir dirpath entries :
  walk_collect te dirpath (Dir entries)
  = matching_here dirpath te entries ++ walk_subdirs te dirpath entries.
Proof.
  cbn [walk_collect]. f_equal. unfold walk_subdirs.
  induction entries as [|[n0 x] es IH]; [reflexivity|].
  cbn [flat_map fst snd]. rewrite <- IH. now destruct x.
Qed.

Lemma in_matching_here dirpath entries p :
  In p (matching_here dirpath te entries) <->
  exists name d, In (name, File d) entries /\
                 endswith_any name te = true /\ p = dirpath ++ [name].
Proof.
  unfold matching_here. rewrite in_flat_map. split.
  - intros ([n0 x] & Hin & Hp). cbn [fst snd] in Hp.
    destruct x as [d|sub]; [|contradiction].
    destruct (endswith_any n0 te) eqn:E; [|contradiction].
    destruct Hp as [<-|[]]. exists n0, d. auto.
  - intros (name & d & Hin & Hm & ->). exists (name, File d).
    split; [assumption|]. cbn [fst snd]. rewrite Hm. now left.
Qed.

Lemma in_walk_subdirs dirpath entries p :
  In p (walk_subdirs te dirpath entries) <->
  exists name sub, In (name, Dir sub) entries /\
                   In p (walk_collect te (dirpath ++ [name]) (Dir sub)).
Proof.
  unfold walk_subdirs. rewrite in_flat_map. split.
  - intros ([n0 x] & Hin & Hp). cbn [fst snd] in Hp.
    destruct x as [d|sub]; [contradiction|]. exists n0, sub. auto.
  - intros (name & sub & Hin & Hp). exists (name, Dir sub). auto.
Qed.



Lemma unique_names_cons n0 x es :
  unique_names (Dir ((n0, x) :: es)) = true ->
  (forall y, ~ In (n0, y) es) /\ unique_names x = true /\
  unique_names (Dir es) = true.
Proof.
  cbn [unique_names]. intros H.
  apply andb_prop in H. destruct H as [H Hes].
  apply andb_prop in H. destruct H as [Hn Hx].
  split; [|split; assumption].
  intros y Hin. apply negb_true_iff in Hn.
  assert (Hex : existsb (fun e : str * node => str_eqb (fst e) n0) es = true).
  { apply existsb_exists. exists (n0, y). split; [assumption|].
    apply str_eqb_refl. }
  congruence.
Qed.




(** Every path the walk yields lies below the directory walked and
    ends in a name with a wanted suffix. *)
Lemma walk_collect_below top :
  forall dirpath p,
    In p (walk_collect te dirpath top) ->
    exists rel name,
      p = dirpath ++ rel ++ [name] /\ endswith_any name te = true.
Proof.
  induction top as [d|entries IH] using node_induction; intros dirpath p Hin.
  - contradiction.
  - rewrite walk_collect_Dir in Hin. apply in_app_or in Hin.
    destruct Hin as [Hin|Hin].
    + apply in_matching_here in Hin. destruct Hin as (name & d & _ & Hm & ->).
      exists [], name. auto.
    + apply in_walk_subdirs in Hin. destruct Hin as (name & sub & Hsub & Hin).
      rewrite Forall_forall in IH. specialize (IH _ Hsub _ _ Hin).
      cbn [snd] in IH. destruct IH as (rel & name' & -> & Hm).
      exists (name :: rel), name'. split; [|assumption].
      now rewrite <- app_assoc.
Qed.


Lemma relpath_below root rel :
  rel <> [] -> os_path_relpath (root ++ rel) root = join [slash] rel.
Proof.
  intros Hne. unfold os_path_relpath.
  rewrite commonprefix_len_app, Nat.sub_diag. cbn [repeat app].
  rewrite skipn_app, skipn_all, Nat.sub_diag. cbn [skipn app].
  destruct rel; [contradiction|reflexivity].
Qed.

End Scan.



(** Every collected file lies strictly below the root directory, under
    a name that is not empty and ends with one of the suffixes. The
    path printed in its header and in its log lines is the list of its
    components below the root (the sub-directories walked, then the
    name) joined by ['/'], and nothing else: [os.path.relpath] adds no
    component of its own. The header is that text, thirteen dashes and
    a newline. *)
Theorem collected_file_is_named_relative_to_root (w : world) (root_dir : path)
    (extensions_str : str) (p : path) :
  In p (files_to_process w root_dir extensions_str) ->
  exists rel name,
    p = root_dir ++ rel ++ [name] /\
    name <> [] /\
    endswith_any name (parse_filter extensions_str) = true /\
    os_path_relpath p root_dir
    = join [slash] (skipn (List.length root_dir) p) /\
    replace_sep (os_path_relpath p root_dir) = join [slash] (rel ++ [name]) /\
    header_of (replace_sep (os_path_relpath p root_dir))
    = join [slash] (rel ++ [name]) ++ lit "-------------" ++ [nl].
Proof.
  unfold files_to_process.
  destruct (lookup (fs w) root_dir) as [top|]; [|contradiction].
  fold (parse_filter extensions_str).
  intros Hin. apply walk_collect_below in Hin.
  destruct Hin as (rel & name & -> & Hm). exists rel, name.
  assert (E : os_path_relpath (root_dir ++ rel ++ [name]) root_dir
              = join [slash] (rel ++ [name])).
  { apply relpath_below. now destruct rel. }
  split; [reflexivity|].
  split; [exact (matching_name_not_empty _ _ Hm)|].
  split; [exact Hm|]. split.
  { rewrite E, skipn_app, skipn_all, Nat.sub_diag. reflexivity. }
  split; [exact E|].
  unfold header_of, replace_sep. now rewrite E.
Qed.

Lemma collected_file_is_named_relative_to_root_witness :
  In [lit "R"; lit "sub"; lit "c.txt"]
     (files_to_process world_nested root_R (lit "txt")) /\
  exists rel name,
    [lit "R"; lit "sub"; lit "c.txt"] = root_R ++ rel ++ [name] /\
    name <> [] /\
    endswith_any name (parse_filter (lit "txt")) = true /\
    os_path_relpath [lit "R"; lit "sub"; lit "c.txt"] root_R
    = join [slash] (skipn (List.length root_R) [lit "R"; lit "sub"; lit "c.txt"])
    /\
    replace_sep (os_path_relpath [lit "R"; lit "sub"; lit "c.txt"] root_R)
    = join [slash] (rel ++ [name]) /\
    header_of (replace_sep
                 (os_path_relpath [lit "R"; lit "sub"; lit "c.txt"] root_R))
    = join [slash] (rel ++ [name]) ++ lit "-------------" ++ [nl].
Proof.
  assert (H1 : In [lit "R"; lit "sub"; lit "c.txt"]
                  (files_to_process world_nested root_R (lit "txt")))
    by (vm_compute; auto).
  split; [exact H1|].
  exact (collected_file_is_named_relative_to_root world_nested root_R
           (lit "txt") _ H1).
Defined.

(** ** Reading the files *)

Section ReadingFiles.

Lemma decode_utf8_ascii bs :
  Forall (fun b => (Byte.to_N b < 128)%N) bs ->
  decode_utf8 bs = Some (map Byte.to_N bs).
Proof.
  induction 1 as [|b bs Hb _ IH]; [reflexivity|].
  cbn [decode_utf8 map]. apply N.ltb_lt in Hb. rewrite Hb, IH. reflexivity.
Qed.

Lemma decode_utf8_sig_ascii bs :
  Forall (fun b => (Byte.to_N b < 128)%N) bs ->
  decode_utf8_sig bs = Some (map Byte.to_N bs).
Proof.
  intros H. unfold decode_utf8_sig.
  destruct bs as [|b0 bs]; [reflexivity|].
  assert (H0 : (Byte.to_N b0 =? 239)%N = false).
  { inversion H as [|? ? Hb _]; subst. apply N.eqb_neq. lia. }
  rewrite H0. cbn [andb].
  destruct bs as [|b1 [|b2 rest]]; now apply decode_utf8_ascii.
Qed.

Lemma universal_newlines_cons c s :
  c <> cr -> universal_newlines (c :: s) = c :: universal_newlines s.
Proof.
  intros H. cbn [universal_newlines].
  destruct (char_eqb c cr) eqn:E; [|reflexivity].
  apply char_eqb_eq in E. contradiction.
Qed.

Lemma universal_newlines_id s : ~ In cr s -> universal_newlines s = s.
Proof.
  induction s as [|c s IH]; intros H; [reflexivity|].
  rewrite universal_newlines_cons by (intros ->; apply H; now left).
  rewrite IH; [reflexivity|]. intros Hin. apply H. now right.
Qed.

(** Both [s] and [c :: s], since the function looks two characters
    ahead. *)
Lemma universal_newlines_no_cr_aux s :
  ~ In cr (universal_newlines s) /\
  forall c, ~ In cr (universal_newlines (c :: s)).
Proof.
  induction s as [|c0 s [IH1 IH2]].
  - split; [intros []|]. intros c. cbn [universal_newlines].
    destruct (char_eqb c cr) eqn:E.
    + intros [H|[]]. discriminate H.
    + intros [H|[]]. subst c. unfold char_eqb in E.
      now rewrite N.eqb_refl in E.
  - split; [apply IH2|]. intros c.
    change (universal_newlines (c :: c0 :: s))
      with (if char_eqb c cr
            then if char_eqb c0 nl then nl :: universal_newlines s
                 else nl :: universal_newlines (c0 :: s)
            else c :: universal_newlines (c0 :: s)).
    destruct (char_eqb c cr) eqn:E.
    + destruct (char_eqb c0 nl).
      * intros [H|H]; [discriminate H|exact (IH1 H)].
      * intros [H|H]; [discriminate H|exact (IH2 c0 H)].
    + intros [H|H]; [|exact (IH2 c0 H)].
      subst c. unfold char_eqb in E. now rewrite N.eqb_refl in E.
Qed.

Lemma universal_newlines_no_cr s : ~ In cr (universal_newlines s).
Proof. apply universal_newlines_no_cr_aux. Qed.

Variable w : world.

(** A file of ASCII bytes without carriage return is copied as it is:
    with the output file accepting the write, lines 70-73 make one
    write of the very characters of the file, take no fallback and log
    nothing. *)
Theorem ascii_file_is_copied_verbatim (full_path : path)
    (relative_path : str) (bytes : list byte) (s : ostate) :
  lookup (fs w) full_path = Some (File (Readable bytes)) ->
  Forall (fun b => (Byte.to_N b < 128)%N /\ Byte.to_N b <> cr) bytes ->
  write_fault w (nwrites s) = None ->
  copy_content w full_path relative_path s
  = (Val tt, [Write (map Byte.to_N bytes)],
     {| disk := Some (match disk s with
                      | Some c => c ++ map Byte.to_N bytes
                      | None => map Byte.to_N bytes
                      end);
        nwrites := S (nwrites s) |}).
Proof.
  intros Hlook Hascii Hw.
  assert (Hdec : decode Utf8Sig bytes = Some (map Byte.to_N bytes)).
  { apply decode_utf8_sig_ascii. eapply Forall_impl; [|exact Hascii].
    now intros b [Hb _]. }
  assert (Hnl : universal_newlines (map Byte.to_N bytes)
                = map Byte.to_N bytes).
  { apply universal_newlines_id. intros Hin. apply in_map_iff in Hin.
    destruct Hin as (b & Hb & Hin). rewrite Forall_forall in Hascii.
    destruct (Hascii b Hin) as [_ Hcr]. contradiction. }
  unfold copy_content, read_text.
  rewrite try_except_eq, bind_eq. unfold lift at 1.
  rewrite Hlook, Hdec, Hnl. unfold outfile_write. rewrite Hw.
  reflexivity.
Qed.

(** What is read from a file, in either encoding, has no carriage
    return: the text mode of [open] turns CR LF and a lone CR into LF,
    and so Windows and old Mac line ends reach the output file as
    plain newlines. Text without a carriage return is read unchanged. *)
Theorem read_text_has_no_carriage_return (full_path : path) (enc : encoding)
    (s : ostate) (text : str) :
  outcome (read_text w full_path enc s) = Val text ->
  ~ In cr text /\
  exists bytes decoded,
    lookup (fs w) full_path = Some (File (Readable bytes)) /\
    decode enc bytes = Some decoded /\
    text = universal_newlines decoded /\
    (~ In cr decoded -> text = decoded).
Proof.
  unfold read_text, lift, outcome. cbn [fst].
  destruct (lookup (fs w) full_path) as [[[bytes|m]|entries]|];
    try discriminate.
  destruct (decode enc bytes) as [decoded|] eqn:Hd; [|discriminate].
  intros [= <-]. split; [apply universal_newlines_no_cr|].
  exists bytes, decoded. repeat split; auto.
  apply universal_newlines_id.
Qed.

(** A file that holds only a byte-order mark, or only the beginning
    of one, is copied as the empty text: with the output file accepting
    the write, lines 70-73 write the empty string, raise nothing and
    take no Latin-1 fallback, although one or two bytes of a byte-order
    mark are not valid UTF-8 and are not empty under Latin-1. *)
Theorem truncated_bom_is_read_as_empty (full_path : path)
    (relative_path : str) (bytes : list byte) (k : nat) (s : ostate) :
  lookup (fs w) full_path = Some (File (Readable bytes)) ->
  bytes = firstn k bom_utf8 ->
  write_fault w (nwrites s) = None ->
  copy_content w full_path relative_path s
  = (Val tt, [Write []],
     {| disk := Some (match disk s with
                      | Some c => c ++ []
                      | None => []
                      end);
        nwrites := S (nwrites s) |}) /\
  (k = 1%nat \/ k = 2%nat ->
   decode_utf8 bytes = None /\ decode_latin1 bytes <> []).
Proof.
  intros Hlook Hb Hw.
  assert (Hdec : decode Utf8Sig bytes = Some []).
  { subst bytes. destruct k as [|[|[|[|k]]]]; reflexivity. }
  split.
  - unfold copy_content, read_text.
    rewrite try_except_eq, bind_eq. unfold lift at 1.
    rewrite Hlook, Hdec. cbn [universal_newlines].
    unfold outfile_write. rewrite Hw. reflexivity.
  - subst bytes. intros [-> | ->]; split; try reflexivity; discriminate.
Qed.

End ReadingFiles.

Lemma ascii_file_is_copied_verbatim_witness :
  lookup (fs world_one) [lit "R"; lit "a.txt"]
  = Some (File (Readable (list_byte_of_string "hello"))) /\
  Forall (fun b => (Byte.to_N b < 128)%N /\ Byte.to_N b <> cr)
         (list_byte_of_string "hello") /\
  write_fault world_one (nwrites fresh) = None /\
  trace (copy_content world_one [lit "R"; lit "a.txt"] (lit "a.txt") fresh)
  = [Write (lit "hello")].
Proof.
  assert (H1 : lookup (fs world_one) [lit "R"; lit "a.txt"]
               = Some (File (Readable (list_byte_of_string "hello"))))
    by reflexivity.
  assert (H2 : Forall (fun b => (Byte.to_N b < 128)%N /\ Byte.to_N b <> cr)
                      (list_byte_of_string "hello")).
  { repeat constructor; try (vm_compute; reflexivity); discriminate. }
  assert (H3 : write_fault world_one (nwrites fresh) = None) by reflexivity.
  split; [exact H1|]. split; [exact H2|]. split; [exact H3|].
  rewrite (ascii_file_is_copied_verbatim world_one [lit "R"; lit "a.txt"]
             (lit "a.txt") (list_byte_of_string "hello") fresh H1 H2 H3).
  reflexivity.
Defined.

Lemma read_text_has_no_carriage_return_witness :
  let w := no_faults (Dir [(lit "dos.txt",
                            File (Readable [x61; x0d; x0a; x62; x0d]%byte))]) in
  outcome (read_text w [lit "dos.txt"] Utf8Sig fresh)
  = Val [97; 10; 98; 10]%N /\
  ~ In cr [97; 10; 98; 10]%N.
Proof.
  intros w.
  assert (H1 : outcome (read_text w [lit "dos.txt"] Utf8Sig fresh)
               = Val [97; 10; 98; 10]%N) by reflexivity.
  split; [exact H1|].
  exact (proj1 (read_text_has_no_carriage_return w [lit "dos.txt"] Utf8Sig
                  fresh _ H1)).
Defined.

Lemma truncated_bom_is_read_as_empty_witness :
  lookup (fs world_half_bom) [lit "R"; lit "a.txt"]
  = Some (File (Readable [xef; xbb]%byte)) /\
  [xef; xbb]%byte = firstn 2 bom_utf8 /\
  write_fault world_half_bom (nwrites fresh) = None /\
  trace (copy_content world_half_bom [lit "R"; lit "a.txt"] (lit "a.txt")
           fresh)
  = [Write []] /\
  disk (final (run world_half_bom root_R (lit "/tmp/out.txt") (lit "txt")
                   fresh))
  = Some (lit "a.txt-------------" ++ [nl; nl; nl]).
Proof.
  assert (H1 : lookup (fs world_half_bom) [lit "R"; lit "a.txt"]
               = Some (File (Readable [xef; xbb]%byte))) by reflexivity.
  assert (H2 : [xef; xbb]%byte = firstn 2 bom_utf8) by reflexivity.
  assert (H3 : write_fault world_half_bom (nwrites fresh) = None)
    by reflexivity.
  split; [exact H1|]. split; [exact H2|]. split; [exact H3|]. split.
  - rewrite (proj1 (truncated_bom_is_read_as_empty world_half_bom
                      [lit "R"; lit "a.txt"] (lit "a.txt") _ 2 fresh
                      H1 H2 H3)).
    reflexivity.
  - vm_compute. reflexivity.
Defined.

(** ** How far the binary64 progress value is from the exact one *)

Section Accuracy.
Local Open Scope R_scope.

Lemma bpow_half E : bpow E * / 2 = bpow (E + 52) * bpow (-53).
Proof.
  rewrite <- bpow_add. replace (E + 52 + -53)%Z with (E + - (1))%Z by lia.
  rewrite bpow_add, bpow_opp, bpow_1. reflexivity.
Qed.

Lemma rounded_rel x F :
  bpow (emin64 + 53) <= x -> rounded x F ->
  x * (1 - bpow (-53)) <= F <= x * (1 + bpow (-53)).
Proof.
  intros Hx (E & k & Hg & [Hr _] & ->).
  destruct Hg as [[-> Hlt]|[HE [Hlo Hhi]]]; [lra|].
  pose proof (bpow_pos E) as HE0.
  pose proof (unscale x E) as Hxs.
  assert (Hhalf : bpow E * / 2 <= x * bpow (-53)).
  { rewrite bpow_half. apply Rmult_le_compat_r; [left; apply bpow_pos|exact Hlo]. }
  set (y := x * bpow (- E)) in *.
  assert (H1 : (IZR k - / 2) * bpow E <= y * bpow E)
    by (apply Rmult_le_compat_r; lra).
  assert (H2 : y * bpow E <= (IZR k + / 2) * bpow E)
    by (apply Rmult_le_compat_r; lra).
  lra.
Qed.

Lemma bpow_neg_IZR k : (0 <= k)%Z -> bpow (- k) = / IZR (2 ^ k).
Proof. intros H. now rewrite bpow_opp, bpow_IZR. Qed.

(** For fewer than 2^44 files the progress value of line 61 is the
    exact percentage [100 * i / n] rounded down, or one less; it is the
    exact percentage rounded down whenever that percentage is not a
    whole number. (A whole percentage can lose one: 29 of 100 files
    give 28.) *)
Theorem progress_value_is_nearly_exact i n :
  (1 <= i <= n)%Z -> (n < 2 ^ 44)%Z ->
  exists v,
    progress_value i n = Val v /\
    (100 * i / n - 1 <= v <= 100 * i / n)%Z /\
    ((100 * i) mod n <> 0 -> v = 100 * i / n)%Z.
Proof.
  intros Hin Hn.
  destruct (progress_value_spec i n Hin) as (v & F & P & Hv & HF & HP & Hfl).
  exists v. split; [exact Hv|].
  assert (HU : bpow (-53) = / 9007199254740992).
  { change (-53)%Z with (- (53))%Z. now rewrite bpow_neg_IZR by lia. }
  assert (H44 : bpow (-44) = / 17592186044416).
  { change (-44)%Z with (- (44))%Z. now rewrite bpow_neg_IZR by lia. }
  assert (Hmin : bpow (emin64 + 53) <= / 17592186044416).
  { rewrite <- H44. apply bpow_le. unfold emin64. lia. }
  assert (HN : 0 < IZR n) by (apply (IZR_lt 0); lia).
  assert (HN44 : IZR n < 17592186044416).
  { apply IZR_lt. change (2 ^ 44)%Z with 17592186044416%Z in Hn. exact Hn. }
  set (d := / IZR n).
  assert (Hd : IZR n * d = 1) by (unfold d; field; lra).
  assert (Hd44 : / 17592186044416 < d).
  { unfold d. apply Rinv_lt_contravar; [|exact HN44].
    apply Rmult_lt_0_compat; lra. }
  set (x := IZR i / IZR n) in *.
  assert (Hx : x = IZR i * d) by reflexivity.
  assert (Hi1 : 1 <= IZR i) by (apply IZR_le; lia).
  assert (Hi2 : IZR i <= IZR n) by (apply IZR_le; lia).
  assert (Hd0 : 0 < d) by lra.
  assert (Hxlo : d <= x).
  { rewrite Hx. replace d with (1 * d) at 1 by ring.
    apply Rmult_le_compat_r; lra. }
  assert (Hxhi : x <= 1).
  { rewrite Hx, <- Hd. apply Rmult_le_compat_r; lra. }
  pose proof (rounded_rel x F ltac:(lra) HF) as HFr.
  rewrite HU in HFr.
  pose proof (rounded_rel (F * 100) P ltac:(lra) HP) as HPr.
  rewrite HU in HPr.
  (* the exact percentage *)
  pose proof (Z.div_mod (100 * i) n ltac:(lia)) as Hdm.
  pose proof (Z.mod_pos_bound (100 * i) n ltac:(lia)) as Hr.
  set (m := (100 * i / n)%Z) in *.
  set (r := ((100 * i) mod n)%Z) in *.
  assert (Hdm' : 100 * IZR i = IZR n * IZR m + IZR r).
  { rewrite <- !mult_IZR, <- plus_IZR. now f_equal. }
  assert (He : 100 * x = IZR m + IZR r * d).
  { rewrite Hx. replace (100 * (IZR i * d)) with (100 * IZR i * d) by ring.
    rewrite Hdm'. replace ((IZR n * IZR m + IZR r) * d)
      with (IZR n * d * IZR m + IZR r * d) by ring.
    rewrite Hd. ring. }
  assert (Hr0 : 0 <= IZR r * d).
  { apply Rmult_le_pos; [apply (IZR_le 0); lia|lra]. }
  assert (Hr1 : IZR r * d <= 1 - d).
  { replace (1 - d) with ((IZR n - 1) * d) by (rewrite Rmult_minus_distr_r; lra).
    apply Rmult_le_compat_r; [lra|].
    rewrite <- minus_IZR. apply IZR_le. lia. }
  split; [split|].
  - assert (H : IZR (m - 2) < IZR v) by (rewrite minus_IZR; lra).
    apply lt_IZR in H. lia.
  - assert (H : IZR v < IZR (m + 1)) by (rewrite plus_IZR; lra).
    apply lt_IZR in H. lia.
  - intros Hne.
    assert (Hr2 : d <= IZR r * d).
    { replace d with (1 * d) at 1 by ring.
      apply Rmult_le_compat_r; [lra|]. apply IZR_le. lia. }
    assert (H1 : IZR (m - 1) < IZR v) by (rewrite minus_IZR; lra).
    apply lt_IZR in H1.
    assert (H2 : IZR v < IZR (m + 1)) by (rewrite plus_IZR; lra).
    apply lt_IZR in H2. lia.
Qed.

End Accuracy.

Lemma progress_value_is_nearly_exact_witness :
  (1 <= 29 <= 100)%Z /\ (100 < 2 ^ 44)%Z /\
  exists v,
    progress_value 29 100 = Val v /\
    (100 * 29 / 100 - 1 <= v <= 100 * 29 / 100)%Z /\
    ((100 * 29) mod 100 <> 0 -> v = 100 * 29 / 100)%Z.
Proof.
  assert (H1 : (1 <= 29 <= 100)%Z) by lia.
  assert (H2 : (100 < 2 ^ 44)%Z) by reflexivity.
  split; [exact H1|]. split; [exact H2|].
  exact (progress_value_is_nearly_exact 29 100 H1 H2).
Defined.

(** ** No file twice, and a failing write of the content *)

Section NoFileTwice.

Variable te : list str.

Lemma matching_here_cons dirpath e es :
  matching_here dirpath te (e :: es)
  = match snd e with
    | File _ =>
        if endswith_any (fst e) te then [os_path_join dirpath (fst e)] else []
    | Dir _ => []
    end ++ matching_here dirpath te es.
Proof. reflexivity. Qed.

Lemma walk_subdirs_cons dirpath e es :
  walk_subdirs te dirpath (e :: es)
  = match snd e with
    | Dir _ => walk_collect te (os_path_join dirpath (fst e)) (snd e)
    | File _ => []
    end ++ walk_subdirs te dirpath es.
Proof. reflexivity. Qed.

Lemma matching_here_nodup dirpath es :
  unique_names (Dir es) = true -> NoDup (matching_here dirpath te es).
Proof.
  induction es as [|[n0 x] es IH]; intros Hu; [constructor|].
  apply unique_names_cons in Hu. destruct Hu as (Hn & _ & Hes).
  rewrite matching_here_cons. cbn [fst snd].
  apply NoDup_app; [| now apply IH |].
  - destruct x as [d|sub]; [|constructor].
    destruct (endswith_any n0 te); repeat constructor. intros [].
  - intros p Hp Hin. apply in_matching_here in Hin.
    destruct Hin as (name & d & Hin & _ & ->).
    destruct x as [d0|sub]; [|contradiction].
    destruct (endswith_any n0 te); [|contradiction].
    destruct Hp as [Hp|[]]. unfold os_path_join in Hp.
    apply app_inv_head in Hp. injection Hp as ->. exact (Hn _ Hin).
Qed.

Lemma walk_subdirs_nodup dirpath es :
  unique_names (Dir es) = true ->
  Forall (fun e => forall dp, unique_names (snd e) = true ->
                              NoDup (walk_collect te dp (snd e))) es ->
  NoDup (walk_subdirs te dirpath es).
Proof.
  induction es as [|[n0 x] es IH]; intros Hu Hall; [constructor|].
  apply unique_names_cons in Hu. destruct Hu as (Hn & Hx & Hes).
  inversion Hall as [|? ? Hx0 Hall']; subst. cbn [snd] in Hx0.
  rewrite walk_subdirs_cons. cbn [fst snd].
  apply NoDup_app; [| now apply IH |].
  - destruct x as [d|sub]; [constructor|]. now apply Hx0.
  - intros p Hp Hin. destruct x as [d|sub]; [contradiction|].
    apply walk_collect_below in Hp. destruct Hp as (rel & name & -> & _).
    apply in_walk_subdirs in Hin. destruct Hin as (n1 & sub1 & Hin & Hp).
    apply walk_collect_below in Hp. destruct Hp as (rel1 & name1 & Hp & _).
    unfold os_path_join in Hp. rewrite <- !app_assoc in Hp.
    apply app_inv_head in Hp. cbn [app] in Hp. injection Hp as -> _.
    exact (Hn _ Hin).
Qed.

Lemma walk_collect_nodup top :
  forall dirpath, unique_names top = true ->
                  NoDup (walk_collect te dirpath top).
Proof.
  induction top as [d|entries IH] using node_induction; intros dirpath Hu.
  - constructor.
  - rewrite walk_collect_Dir.
    apply NoDup_app;
      [now apply matching_here_nodup|now apply walk_subdirs_nodup|].
    intros p Hp Hin. apply in_matching_here in Hp.
    destruct Hp as (name & d & _ & _ & ->).
    apply in_walk_subdirs in Hin. destruct Hin as (n1 & sub1 & _ & Hp).
    apply walk_collect_below in Hp. destruct Hp as (rel & name1 & Hp & _).
    rewrite <- app_assoc in Hp. apply app_inv_head in Hp.
    cbn [app] in Hp. injection Hp as _ Hp. now destruct rel.
Qed.

End NoFileTwice.

(** In a file system whose directories hold no name twice, the
    pre-scan lists no file twice: every matching file gets one entry in
    the output, not more. *)
Theorem scan_lists_no_file_twice (w : world) (root_dir : path)
    (extensions_str : str) (top : node) :
  lookup (fs w) root_dir = Some top ->
  unique_names top = true ->
  NoDup (files_to_process w root_dir extensions_str).
Proof.
  intros Hroot Hu. unfold files_to_process. rewrite Hroot.
  now apply walk_collect_nodup.
Qed.

Lemma scan_lists_no_file_twice_witness :
  lookup (fs world_nested) root_R
  = Some (Dir [(lit "sub", Dir [(lit "c.txt", text_file "c");
                                (lit "d.md", text_file "d")]);
               (lit "a.txt", text_file "a");
               (lit "notes", text_file "n")]) /\
  NoDup (files_to_process world_nested root_R (lit "txt|md")).
Proof.
  assert (H1 : lookup (fs world_nested) root_R
               = Some (Dir [(lit "sub", Dir [(lit "c.txt", text_file "c");
                                             (lit "d.md", text_file "d")]);
                            (lit "a.txt", text_file "a");
                            (lit "notes", text_file "n")]))
    by reflexivity.
  split; [exact H1|].
  exact (scan_lists_no_file_twice world_nested root_R (lit "txt|md") _ H1
           eq_refl).
Defined.

(** A failing write of a file's content is caught by the [try] of line
    70 with the errors of reading: when the file decodes as UTF-8 and
    the write of its content fails, the failure is reported as an error
    of that file (the marker [Unable to process file] in the output, a
    [Processing error] line in the log) and the loop goes on, provided
    the write of the marker succeeds; if that fails too, the exception
    leaves the loop. *)
Theorem content_write_failure_is_blamed_on_the_file (w : world)
    (full_path : path) (relative_path : str) (bytes : list byte)
    (text msg : str) (s : ostate) :
  lookup (fs w) full_path = Some (File (Readable bytes)) ->
  decode Utf8Sig bytes = Some text ->
  write_fault w (nwrites s) = Some msg ->
  (write_fault w (S (nwrites s)) = None ->
   copy_content w full_path relative_path s
   = (Val tt,
      [Write (process_error_marker relative_path (OSError msg));
       Log (lit "Processing error " ++ relative_path ++ lit ": " ++ msg)],
      {| disk := Some (match disk s with
                       | Some c =>
                           c ++ process_error_marker relative_path
                                  (OSError msg)
                       | None =>
                           process_error_marker relative_path (OSError msg)
                       end);
         nwrites := S (S (nwrites s)) |})) /\
  (forall msg', write_fault w (S (nwrites s)) = Some msg' ->
                copy_content w full_path relative_path s
                = (Exc (OSError msg'), [],
                   {| disk := disk s; nwrites := S (S (nwrites s)) |})).
Proof.
  intros Hlook Hdec Hw.
  assert (E : copy_content w full_path relative_path s
              = bind (outfile_write w
                        (process_error_marker relative_path (OSError msg)))
                  (fun _ => log_callback
                              (lit "Processing error " ++ relative_path
                               ++ lit ": " ++ msg))
                  {| disk := disk s; nwrites := S (nwrites s) |}).
  { unfold copy_content, read_text.
    rewrite try_except_eq, bind_eq. unfold lift at 1.
    rewrite Hlook, Hdec. unfold outfile_write at 1. rewrite Hw.
    exact (prepend_nil _). }
  rewrite E, bind_eq. unfold outfile_write. cbn [nwrites disk]. split.
  - intros ->. reflexivity.
  - intros msg' ->. reflexivity.
Qed.

Lemma content_write_failure_is_blamed_on_the_file_witness :
  let s := {| disk := Some (lit "b.txt-------------" ++ [nl]);
              nwrites := 4 |} in
  lookup (fs world_hiccup) [lit "R"; lit "b.txt"]
  = Some (File (Readable (list_byte_of_string "two"))) /\
  decode Utf8Sig (list_byte_of_string "two") = Some (lit "two") /\
  write_fault world_hiccup (nwrites s) = Some (lit "I/O error") /\
  write_fault world_hiccup (S (nwrites s)) = None /\
  trace (copy_content world_hiccup [lit "R"; lit "b.txt"] (lit "b.txt") s)
  = [Write (nl :: lit "[Error: Unable to process file b.txt - I/O error]"
            ++ [nl]);
     Log (lit "Processing error b.txt: I/O error")].
Proof.
  intros s.
  assert (H1 : lookup (fs world_hiccup) [lit "R"; lit "b.txt"]
               = Some (File (Readable (list_byte_of_string "two"))))
    by reflexivity.
  assert (H2 : decode Utf8Sig (list_byte_of_string "two") = Some (lit "two"))
    by reflexivity.
  assert (H3 : write_fault world_hiccup (nwrites s) = Some (lit "I/O error"))
    by reflexivity.
  assert (H4 : write_fault world_hiccup (S (nwrites s)) = None)
    by reflexivity.
  split; [exact H1|]. split; [exact H2|]. split; [exact H3|].
  split; [exact H4|].
  rewrite (proj1 (content_write_failure_is_blamed_on_the_file world_hiccup
                    [lit "R"; lit "b.txt"] (lit "b.txt")
                    (list_byte_of_string "two") (lit "two") (lit "I/O error")
                    s H1 H2 H3) H4).
  reflexivity.
Defined.

(** * Part V: the window *)

(** ** The callbacks and the end of the task *)

Section Window.

Lemma callback_winfo g e : winfo_exists (callback g e) = winfo_exists g.
Proof.
  destruct e; cbn [callback]; try reflexivity.
  - unfold log_message. destruct (winfo_exists g) eqn:E; exact E.
  - unfold update_progress. destruct (winfo_exists g) eqn:E; [|exact E].
    destruct (v =? -1)%Z; exact E.
Qed.

Lemma log_message_on g message :
  winfo_exists g = true ->
  log_message message g = set_log_text (log_text g ++ message ++ [nl]) g.
Proof. intros H. unfold log_message. now rewrite H. Qed.

Lemma update_progress_on g value :
  winfo_exists g = true ->
  update_progress value g
  = set_progress_bar (if (value =? -1)%Z then 0%Z else value) g.
Proof.
  intros H. unfold update_progress. rewrite H. now destruct (value =? -1)%Z.
Qed.

Lemma fold_callback_winfo tr :
  forall g, winfo_exists (fold_left callback tr g) = winfo_exists g.
Proof.
  induction tr as [|e tr IH]; intros g; [reflexivity|].
  cbn [fold_left]. now rewrite IH, callback_winfo.
Qed.

Lemma callback_bar g e :
  match e with Progress v => progress_ok v | _ => True end ->
  (0 <= progress_bar g <= 100)%Z ->
  (0 <= progress_bar (callback g e) <= 100)%Z.
Proof.
  destruct e; cbn [callback]; intros He Hg; try assumption.
  - unfold log_message. now destruct (winfo_exists g).
  - unfold update_progress. destruct (winfo_exists g); [|assumption].
    destruct (Z.eqb_spec v (-1)); cbn [set_progress_bar progress_bar];
      [lia|].
    destruct He as [He|He]; [contradiction|exact He].
Qed.

Lemma fold_callback_bar tr :
  Forall progress_ok (progress_events tr) ->
  forall g, (0 <= progress_bar g <= 100)%Z ->
            (0 <= progress_bar (fold_left callback tr g) <= 100)%Z.
Proof.
  induction tr as [|e tr IH]; intros Hok g Hg; [exact Hg|].
  cbn [fold_left]. destruct e; cbn [progress_events] in Hok;
    try (apply IH; [exact Hok|apply callback_bar; [exact I|exact Hg]]).
  inversion Hok; subst.
  apply IH; [assumption|apply callback_bar; assumption].
Qed.

Lemma fold_callback_log tr :
  forall g, winfo_exists g = true ->
            log_text (fold_left callback tr g)
            = log_text g
              ++ List.concat (map (fun m => m ++ [nl]) (log_lines tr)).
Proof.
  induction tr as [|e tr IH]; intros g Hg; cbn [fold_left log_lines].
  - cbn. now rewrite app_nil_r.
  - assert (Hc : winfo_exists (callback g e) = true)
      by now rewrite callback_winfo.
    rewrite (IH _ Hc).
    destruct e; cbn [callback log_lines map List.concat]; try reflexivity.
    + unfold log_message. rewrite Hg. cbn [set_log_text log_text].
      now rewrite <- !app_assoc.
    + unfold update_progress. rewrite Hg. now destruct (v =? -1)%Z.
Qed.

Lemma progress_events_prefix_ok pre post :
  Forall progress_ok (progress_events (pre ++ post)) ->
  Forall progress_ok (progress_events pre).
Proof.
  rewrite progress_events_app. intros H. now apply Forall_app in H.
Qed.

Lemma startswith_app s t p : startswith s p = true -> startswith (s ++ t) p = true.
Proof.
  revert s. induction p as [|x p IH]; intros s;
    [intros _; now destruct (s ++ t)|].
  destruct s as [|y s]; cbn [startswith app]; [discriminate|].
  intros H. apply andb_prop in H. destruct H as [-> H]. cbn [andb]. auto.
Qed.

Lemma contains_app a b sub : contains b sub = true -> contains (a ++ b) sub = true.
Proof.
  intros Hb. induction a as [|c a IH]; [exact Hb|].
  cbn [app contains]. rewrite IH. apply orb_true_r.
Qed.

Lemma contains_startswith s sub : startswith s sub = true -> contains s sub = true.
Proof. intros H. destruct s; cbn [contains]; now rewrite H. Qed.

Variable w : world.
Variables (root_dir : path) (output_file extensions_str : str) (s : ostate).

Local Abbreviation the_run := (run w root_dir output_file extensions_str s).
Local Abbreviation failed := (failure_cause w root_dir extensions_str s).

Lemma run_progress_ok : Forall progress_ok (progress_events (trace the_run)).
Proof.
  destruct (run_ends w root_dir output_file extensions_str s)
    as (pre & msg & fin & E & Hr & Hfin).
  rewrite E, progress_events_app. apply Forall_app. split.
  - eapply Forall_impl; [|exact Hr]. intros v Hv. now right.
  - cbn [progress_events]. constructor; [|constructor].
    destruct Hfin as [(-> & _) | (-> & _)]; [now left|right; lia].
Qed.

(** At every moment of a run the progress bar shows a value between 0
    and 100: the values the routine reports are percentages, and the
    window shows the error sentinel -1 as 0. *)
Theorem progress_bar_stays_in_range (g : gui) (pre post : list event) :
  (0 <= progress_bar g <= 100)%Z ->
  trace the_run = pre ++ post ->
  (0 <= progress_bar (fold_left callback pre g) <= 100)%Z.
Proof.
  intros Hg E. apply fold_callback_bar; [|exact Hg].
  apply (progress_events_prefix_ok pre post). rewrite <- E.
  apply run_progress_ok.
Qed.

(** When the task is over and the window still exists, the three
    buttons are enabled again, the log holds every line the routine
    logged, in order, one per line, and exactly one message box has been
    shown: [Done] with the progress bar at 100 when the run did not
    fail, the error box with the progress bar at 0 when it did. Files
    that could not be read do not make a run fail. *)
Theorem task_ends_with_one_dialog (g : gui) :
  winfo_exists g = true ->
  let g' := fst (_run_collection_task w root_dir output_file extensions_str
                                      s g) in
  (start_button g' = true /\ browse_dir_button g' = true /\
   browse_output_button g' = true) /\
  log_text g'
  = log_text g
    ++ List.concat (map (fun m => m ++ [nl]) (log_lines (trace the_run))) /\
  (failed ->
   progress_bar g' = 0%Z /\ dialogs g' = dialogs g ++ [error_dialog]) /\
  (~ failed ->
   progress_bar g' = 100%Z /\ dialogs g' = dialogs g ++ [done_dialog]).
Proof.
  intros Hg g'. subst g'. unfold _run_collection_task. cbv zeta.
  rewrite run_outcome.
  pose proof (fold_callback_log (trace the_run) g Hg) as Hlog.
  pose proof (fold_callback_winfo (trace the_run) g) as Hw.
  rewrite Hg in Hw.
  destruct (run_ends w root_dir output_file extensions_str s)
    as (pre & msg & fin & E & Hr & Hfin).
  assert (Hw0 : winfo_exists (fold_left callback pre g) = true)
    by now rewrite fold_callback_winfo.
  assert (Hlast :
            fold_left callback (trace the_run) g
            = set_progress_bar (if (fin =? -1)%Z then 0%Z else fin)
                (set_log_text
                   (log_text (fold_left callback pre g) ++ msg ++ [nl])
                   (fold_left callback pre g))).
  { rewrite E, fold_left_app. cbn [fold_left callback].
    rewrite (log_message_on _ _ Hw0). now rewrite update_progress_on. }
  assert (Hdia : forall tr g2, dialogs (fold_left callback tr g2) = dialogs g2).
  { induction tr as [|e tr IH]; intros g2; [reflexivity|].
    cbn [fold_left]. rewrite IH.
    destruct e; cbn [callback]; try reflexivity.
    - unfold log_message. now destruct (winfo_exists g2).
    - unfold update_progress. destruct (winfo_exists g2); [|reflexivity].
      now destruct (v =? -1)%Z. }
  specialize (Hdia (trace the_run) g).
  set (g0 := fold_left callback pre g) in *.
  set (g1 := fold_left callback (trace the_run) g) in *.
  assert (Hbar : progress_bar g1 = if (fin =? -1)%Z then 0%Z else fin)
    by now rewrite Hlast.
  assert (Htext : log_text g1 = log_text g0 ++ msg ++ [nl])
    by now rewrite Hlast.
  cbn [fst]. rewrite Hw. unfold _enable_controls. rewrite Hw.
  cbv zeta. unfold log_text_get.
  cbn [set_buttons progress_bar log_text].
  destruct Hfin as [(-> & Hf & Hmsg) | (-> & Hf)].
  - change (if (sentinel =? -1)%Z then 0%Z else sentinel) with 0%Z in *.
    rewrite Hbar. cbn [Z.eqb negb andb].
    assert (Hc : contains (log_text g1 ++ [nl]) (lit "Error") = true).
    { rewrite Htext, <- app_assoc.
      apply contains_app, contains_startswith.
      rewrite <- app_assoc. now apply startswith_app. }
    rewrite Hc.
    cbn [show_dialog set_buttons start_button browse_dir_button
         browse_output_button log_text progress_bar dialogs].
    rewrite Hbar, Hdia, Hlog.
    repeat split; auto; intros; contradiction.
  - change (if (100 =? -1)%Z then 0%Z else 100%Z) with 100%Z in *.
    rewrite Hbar. cbn [Z.eqb Pos.eqb].
    cbn [show_dialog set_buttons start_button browse_dir_button
         browse_output_button log_text progress_bar dialogs].
    rewrite Hbar, Hdia, Hlog.
    repeat split; auto; intros; contradiction.
Qed.

End Window.

Lemma progress_bar_stays_in_range_witness :
  (0 <= progress_bar started_window <= 100)%Z /\
  trace (run world_full root_R (lit "/tmp/out.txt") (lit "txt") fresh)
  = trace (run world_full root_R (lit "/tmp/out.txt") (lit "txt") fresh)
    ++ [] /\
  (0 <= progress_bar
          (fold_left callback
             (trace (run world_full root_R (lit "/tmp/out.txt") (lit "txt")
                         fresh))
             started_window) <= 100)%Z.
Proof.
  assert (H1 : (0 <= progress_bar started_window <= 100)%Z)
    by (cbn; lia).
  assert (H2 : trace (run world_full root_R (lit "/tmp/out.txt") (lit "txt")
                          fresh)
               = trace (run world_full root_R (lit "/tmp/out.txt") (lit "txt")
                            fresh) ++ [])
    by (now rewrite app_nil_r).
  split; [exact H1|]. split; [exact H2|].
  exact (progress_bar_stays_in_range world_full root_R (lit "/tmp/out.txt")
           (lit "txt") fresh started_window _ [] H1 H2).
Defined.

Lemma task_ends_with_one_dialog_witness :
  winfo_exists started_window = true /\
  dialogs (fst (_run_collection_task world_full root_R (lit "/tmp/out.txt")
                                     (lit "txt") fresh started_window))
  = [error_dialog] /\
  dialogs (fst (_run_collection_task world_locked root_R (lit "/tmp/out.txt")
                                     (lit "txt") fresh started_window))
  = [done_dialog].
Proof.
  assert (H1 : winfo_exists started_window = true) by reflexivity.
  split; [exact H1|]. split.
  - apply (proj1 (proj2 (proj2 (task_ends_with_one_dialog world_full root_R
                                  (lit "/tmp/out.txt") (lit "txt") fresh
                                  started_window H1)))).
    right. right. split; [vm_compute; discriminate|].
    right. left. exists (OSError (lit "No space left on device")).
    vm_compute. reflexivity.
  - vm_compute. reflexivity.
Defined.

(** ** Choosing the source directory *)

Section Browse.

Lemma upto_free sep a : ~ In sep a -> upto sep a = a.
Proof.
  induction a as [|c a IH]; intros H; [reflexivity|].
  cbn [upto]. destruct (char_eqb c sep) eqn:E.
  - apply char_eqb_eq in E. exfalso. apply H. now left.
  - rewrite IH; [reflexivity|]. intros Hin. apply H. now right.
Qed.

Lemma upto_app_sep sep a b : ~ In sep a -> upto sep (a ++ sep :: b) = a.
Proof.
  induction a as [|c a IH]; intros H.
  - cbn [app upto]. unfold char_eqb. now rewrite N.eqb_refl.
  - cbn [app upto]. destruct (char_eqb c sep) eqn:E.
    + apply char_eqb_eq in E. exfalso. apply H. now left.
    + rewrite IH; [reflexivity|]. intros Hin. apply H. now right.
Qed.

Lemma upto_no_sep sep s : ~ In sep (upto sep s).
Proof.
  induction s as [|c s IH]; [intros []|].
  cbn [upto]. destruct (char_eqb c sep) eqn:E; [intros []|].
  intros [H|H]; [|auto]. subst c.
  unfold char_eqb in E. now rewrite N.eqb_refl in E.
Qed.

Lemma basename_no_slash p : ~ In slash (posixpath_basename p).
Proof.
  unfold posixpath_basename. intros H. apply in_rev in H.
  exact (upto_no_sep slash (rev p) H).
Qed.

Lemma basename_free b : ~ In slash b -> posixpath_basename b = b.
Proof.
  intros H. unfold posixpath_basename.
  rewrite upto_free; [apply rev_involutive|].
  intros Hin. apply H. now apply in_rev.
Qed.

Lemma basename_after_slash a b :
  ~ In slash b -> posixpath_basename (a ++ slash :: b) = b.
Proof.
  intros H. unfold posixpath_basename.
  rewrite rev_app_distr. cbn [rev]. rewrite <- app_assoc. cbn [app].
  rewrite upto_app_sep; [apply rev_involutive|].
  intros Hin. apply H. now apply in_rev.
Qed.

Lemma endswith_slash a :
  endswith a [slash] = true -> exists a', a = a' ++ [slash].
Proof.
  unfold endswith. cbn [rev app]. intros H.
  destruct (rev a) as [|c r] eqn:E; [discriminate|].
  cbn [startswith] in H. apply andb_prop in H. destruct H as [H _].
  apply char_eqb_eq in H. subst c.
  exists (rev r). rewrite <- (rev_involutive a), E. reflexivity.
Qed.

(** The two shapes of [os.path.join(a, b)] for a name [b] that is not
    empty and has no ['/']. *)
Lemma join_name a b :
  b <> [] -> ~ In slash b ->
  posixpath_join a b
  = if str_eqb a [] || endswith a [slash] then a ++ b else a ++ slash :: b.
Proof.
  intros Hne Hb. unfold posixpath_join.
  destruct b as [|c b]; [contradiction|].
  cbn [startswith]. destruct (char_eqb slash c) eqn:E; [|reflexivity].
  apply char_eqb_eq in E. exfalso. apply Hb. now left.
Qed.

Lemma basename_join a b :
  b <> [] -> ~ In slash b -> posixpath_basename (posixpath_join a b) = b.
Proof.
  intros Hne Hb. rewrite join_name by assumption.
  destruct (str_eqb a []) eqn:Ea; cbn [orb].
  - apply str_eqb_eq in Ea. subst a. now apply basename_free.
  - destruct (endswith a [slash]) eqn:Es.
    + apply endswith_slash in Es. destruct Es as [a' ->].
      rewrite <- app_assoc. now apply basename_after_slash.
    + now apply basename_after_slash.
Qed.

Lemma base_output_name_ok o :
  base_output_name o <> [] /\ ~ In slash (base_output_name o) /\
  str_eqb (base_output_name o) (lit ".txt") = false.
Proof.
  unfold base_output_name. cbv zeta.
  destruct (str_eqb (posixpath_basename o) []) eqn:E1; cbn [orb].
  { split; [discriminate|]. split; [|reflexivity].
    vm_compute. intuition discriminate. }
  destruct (str_eqb (posixpath_basename o) (lit ".txt")) eqn:E2.
  { split; [discriminate|]. split; [|reflexivity].
    vm_compute. intuition discriminate. }
  split; [|split; [apply basename_no_slash|exact E2]].
  intros H. rewrite H in E1. discriminate.
Qed.

Lemma base_output_name_join d o :
  base_output_name (posixpath_join d (base_output_name o))
  = base_output_name o.
Proof.
  destruct (base_output_name_ok o) as (Hne & Hs & Ht).
  unfold base_output_name at 1. cbv zeta.
  rewrite (basename_join d _ Hne Hs), Ht.
  destruct (base_output_name o); [contradiction|reflexivity].
Qed.

End Browse.

(** Choosing a directory makes it the source directory and moves the
    output file into it: the new output path is the directory, a ['/']
    unless the directory ends with one, and the file name the output
    had before, [result.txt] taking the place of an empty name and of
    [.txt]. Nothing else in the window changes. *)
Theorem browse_directory_moves_output (directory : str) (g : gui) :
  directory <> [] ->
  let g' := browse_directory directory g in
  let name := base_output_name (output_file_var g) in
  dir_entry_var g' = directory /\
  output_file_var g'
  = (if endswith directory [slash] then directory ++ name
     else directory ++ slash :: name) /\
  posixpath_basename (output_file_var g') = name /\
  (name = posixpath_basename (output_file_var g) \/ name = lit "result.txt") /\
  g' = set_paths (dir_entry_var g') (output_file_var g') g.
Proof.
  intros Hne g' name. subst g'. unfold browse_directory.
  destruct (str_eqb directory []) eqn:Ed.
  { apply str_eqb_eq in Ed. contradiction. }
  cbn [negb set_paths dir_entry_var output_file_var]. fold name.
  destruct (base_output_name_ok (output_file_var g)) as (Hn & Hs & _).
  fold name in Hn, Hs.
  split; [reflexivity|]. split.
  { rewrite join_name by assumption. rewrite Ed. reflexivity. }
  split; [now apply basename_join|]. split; [|reflexivity].
  unfold name, base_output_name. cbv zeta.
  destruct (_ || _); auto.
Qed.

Lemma browse_directory_moves_output_witness :
  lit "/home/me/src" <> [] /\
  output_file_var (browse_directory (lit "/home/me/src") started_window)
  = lit "/home/me/src/out.txt".
Proof.
  assert (H1 : lit "/home/me/src" <> []) by discriminate.
  split; [exact H1|].
  rewrite (proj1 (proj2 (browse_directory_moves_output (lit "/home/me/src")
                           started_window H1))).
  reflexivity.
Defined.

(** Choosing the same directory twice is the same as choosing it once:
    the file name of the output survives the move, so the second choice
    finds it again. Cancelling the dialog changes nothing. *)
Theorem browse_directory_is_idempotent (directory : str) (g : gui) :
  browse_directory directory (browse_directory directory g)
  = browse_directory directory g /\
  browse_directory [] g = g.
Proof.
  split; [|reflexivity]. unfold browse_directory.
  destruct (str_eqb directory []); cbn [negb]; [reflexivity|].
  cbn [set_paths output_file_var extensions_var log_text progress_bar
       start_button browse_dir_button browse_output_button dialogs
       winfo_exists].
  unfold set_paths at 1.
  cbn [set_paths output_file_var extensions_var log_text progress_bar
       start_button browse_dir_button browse_output_button dialogs
       winfo_exists].
  now rewrite base_output_name_join.
Qed.
